(** * Ticket algorithm on POSIX threads (proj2.c)

    A shallow embedding of [proj2.c]: the argument handling of [main], the
    ticket counter [getticket], the admission gate [await]/[advance], the
    worker loop [just_do_it] and the thread life cycle driven by [main].

    The sequential prologue of [main] is a function.  The threaded part is
    an interleaving semantics: every thread has a program counter naming
    the source statement it executes next, a step of the system is one
    statement of one thread, and the scheduler, the thread chosen by
    [pthread_cond_signal] and spurious wake-ups are the labels of the
    steps. *)

From Stdlib Require Import ZArith List Lia Ascii String.
From Stdlib Require DecimalString DecimalN.
From stdpp Require Import base numbers option list strings relations sorting.

Local Open Scope Z_scope.

(** ** Machine integers

  The target is the usual LP64 one: [int] and [unsigned] have 32 bits,
  [unsigned long] has 64. *)

Module CInt.

Definition INT_MAX : Z := 2147483647.
Definition INT_MIN : Z := -2147483648.
Definition UINT_MAX : Z := 4294967295.
Definition ULONG_MAX : Z := 18446744073709551615.

Definition EXIT_SUCCESS : Z := 0.
Definition EXIT_FAILURE : Z := 1.

(** Conversion to [unsigned]: reduction modulo 2^32. *)
Definition to_unsigned (z : Z) : Z := z mod 4294967296.

(** Conversion to [int], and the result of [int] arithmetic: the
    two's-complement value of the low 32 bits.  (Signed overflow is
    undefined in ISO C; the wrap written here is what the usual targets
    compute.  The theorems that depend on a counter staying in range say
    so in a hypothesis.) *)
Definition to_int (z : Z) : Z := (z + 2147483648) mod 4294967296 - 2147483648.

End CInt.

(** ** Argument handling *)

Module Args.

Import CInt.

Definition nl : string := String (ascii_of_nat 10) EmptyString.
Definition tab : string := String (ascii_of_nat 9) EmptyString.

Local Open Scope string_scope.

Definition help_begin : string :=
  "Ticket algorithm implementation using POSIX threads" ++ nl ++
  "Fridolin Pokorny, 2014 <fridex.devel@gmail.com>" ++ nl ++
  "USAGE:" ++ nl ++ tab.

Definition help_end : string :=
  " THREAD_COUNT EXCL_COUNT" ++ nl ++
  tab ++ "THREAD_COUNT" ++ tab ++ tab ++ "- number of threads to be crated" ++ nl ++
  tab ++ "LOOP_COUNT" ++ tab ++ tab ++ "- number of critical section entrance" ++ nl.

(** [print_help]: the text written to standard error and the value
    returned, always [EXIT_FAILURE]. *)
Definition print_help (pname : string) : string * Z :=
  (help_begin ++ pname ++ help_end, EXIT_FAILURE).

Local Close Scope string_scope.

(** [strtoul(str, &endptr, 10)] of the C library, after ISO C 7.22.1.4:
    leading white space, an optional sign, then decimal digits.  The
    result is the value (negated in [unsigned long] after a minus sign,
    [ULONG_MAX] when out of range) and the offset [endptr - str]; with no
    digit nothing is converted and [endptr = str]. *)
Definition isspace (c : ascii) : bool :=
  let n := nat_of_ascii c in
  ((n =? 32) || ((9 <=? n) && (n <=? 13)))%nat.

Definition digit_of (c : ascii) : option Z :=
  let n := nat_of_ascii c in
  if ((48 <=? n) && (n <=? 57))%nat then Some (Z.of_nat n - 48) else None.

Fixpoint skip_space (s : string) : nat * string :=
  match s with
  | String c s' =>
      if isspace c then let '(k, r) := skip_space s' in (S k, r) else (O, s)
  | EmptyString => (O, s)
  end.

Fixpoint digits (s : string) (acc : Z) : Z * nat :=
  match s with
  | String c s' =>
      match digit_of c with
      | Some d => let '(v, k) := digits s' (10 * acc + d) in (v, S k)
      | None => (acc, O)
      end
  | EmptyString => (acc, O)
  end.

Definition strtoul (str : string) : Z * nat :=
  let '(ws, s1) := skip_space str in
  let '(neg, sg, s2) :=
    match s1 with
    | String c r =>
        if Ascii.eqb c "-"%char then (true, 1%nat, r)
        else if Ascii.eqb c "+"%char then (false, 1%nat, r)
        else (false, O, s1)
    | EmptyString => (false, O, s1)
    end in
  let '(v, nd) := digits s2 0 in
  match nd with
  | O => (0, O)
  | _ =>
      let r := if ULONG_MAX <? v then ULONG_MAX
               else if neg then (ULONG_MAX + 1 - v) mod (ULONG_MAX + 1)
               else v in
      (r, (ws + sg + nd)%nat)
  end.

(** [get_num]: the pair of the returned flag and the value stored in
    [*num] (an [unsigned], so the [unsigned long] is truncated). *)
Definition get_num (str : string) : bool * Z :=
  let '(v, endptr) := strtoul str in
  (Nat.eqb endptr (String.length str), to_unsigned v).

(** What the first part of [main] decides: an early return with the text
    written to standard error and the exit status, or the two counts
    with which the threads are started. *)
Inductive prologue :=
| Reject (err : string) (status : Z)
| Launch (thread_count loop_count : Z).

(** [main] up to and including the two [malloc] calls.  [argv] is the
    argument vector ([argc] is its length, [argv[0]] the program name)
    and [threads_ok], [params_ok] tell whether the two allocations
    return a non-null pointer. *)
Definition main_prologue (argv : list string) (threads_ok params_ok : bool)
  : prologue :=
  let pname := nth 0 argv EmptyString in
  if negb (Nat.eqb (List.length argv) 3) then
    let '(txt, st) := print_help pname in
    Reject (("Invalid argument count" ++ nl) ++ txt)%string st
  else
    let '(ok1, thread_count) := get_num (nth 1 argv EmptyString) in
    if negb ok1 || (thread_count <=? 0) then
      let '(txt, st) := print_help pname in Reject txt st
    else
      let '(ok2, loop_count) := get_num (nth 2 argv EmptyString) in
      if negb ok2 || (loop_count <=? 0) then
        let '(txt, st) := print_help pname in Reject txt st
      else if negb threads_ok || negb params_ok then
        Reject ("Error: out of memory!" ++ nl)%string EXIT_FAILURE
      else Launch thread_count loop_count.

End Args.

(** ** The threads *)

Module Param.
(** [thread_param_t] *)
Record t := { id : Z; loop_count : Z }.
End Param.

Module Ticket.

Import CInt.

(** Program points of a worker thread: the statements of [just_do_it]
    with [getticket], [await] and [advance] inlined at their only call
    sites.  [Unborn] is a slot of the thread array before its
    [pthread_create]; [Blocked] is a thread suspended inside
    [pthread_cond_wait]; [Done] is a thread that returned. *)
Inductive wpc :=
| Unborn
| GetLock     (* getticket: pthread_mutex_lock(&ticket_mutex) *)
| GetRead     (* getticket: res = next_ticket *)
| GetIncr     (* getticket: next_ticket++ *)
| GetUnlock   (* getticket: pthread_mutex_unlock(&ticket_mutex) *)
| LoopTest        (* (ticket = <returned res>) < param->loop_count *)
| Suspend1    (* suspend() before await *)
| AwLock      (* await: pthread_mutex_lock(&section_mutex) *)
| AwTest      (* await: while (aenter != actual_ticket) *)
| AwSignal    (* await: pthread_cond_signal(&section_cond) *)
| AwWait      (* await: pthread_cond_wait, releasing the mutex *)
| Blocked     (* await: inside pthread_cond_wait, not yet woken *)
| AwReacq     (* await: woken, pthread_cond_wait reacquires the mutex *)
| Printf       (* printf + fflush *)
| AdvIncr     (* advance: actual_ticket++ *)
| AdvSignal   (* advance: pthread_cond_signal(&section_cond) *)
| AdvUnlock   (* advance: pthread_mutex_unlock(&section_mutex) *)
| Suspend2    (* suspend() after advance *)
| Done.

#[global] Instance wpc_eq_dec : EqDecision wpc.
Proof. solve_decision. Defined.

(** A worker: its program point, its [param], the local [ticket] of
    [just_do_it] (the argument [aenter] of [await]) and the local [res]
    of [getticket]. *)
Record worker := {
  pc : wpc;
  param : Param.t;
  ticket : Z;
  res : Z }.

Definition at_pc (p : wpc) (w : worker) : worker :=
  {| pc := p; param := param w; ticket := ticket w; res := res w |}.

Definition with_res (p : wpc) (r : Z) (w : worker) : worker :=
  {| pc := p; param := param w; ticket := ticket w; res := r |}.

Definition with_ticket (p : wpc) (t : Z) (w : worker) : worker :=
  {| pc := p; param := param w; ticket := t; res := res w |}.

(** Observation points recorded beside the program state: the value a
    [getticket] call takes from the counter, the return of [await] and
    the return of [advance], each with the index of the thread. *)
Inductive event :=
| Issue (i : nat) (t : Z)
| Enter (i : nat) (t : Z)
| Leave (i : nat) (t : Z).

#[global] Instance event_eq_dec : EqDecision event.
Proof. solve_decision. Defined.

(** The globals of the program, the lines written to standard output (a
    ticket and a thread id each), and the observations so far, oldest
    first.  A mutex is [None] when free and [Some i] when thread [i]
    holds it. *)
Record shared := {
  section_mutex : option nat;
  ticket_mutex : option nat;
  actual_ticket : Z;
  next_ticket : Z;
  stdout : list (Z * Z);
  trace : list event }.

Definition set_section_mutex (m : option nat) (g : shared) : shared :=
  {| section_mutex := m; ticket_mutex := ticket_mutex g;
     actual_ticket := actual_ticket g; next_ticket := next_ticket g;
     stdout := stdout g; trace := trace g |}.

Definition set_ticket_mutex (m : option nat) (g : shared) : shared :=
  {| section_mutex := section_mutex g; ticket_mutex := m;
     actual_ticket := actual_ticket g; next_ticket := next_ticket g;
     stdout := stdout g; trace := trace g |}.

Definition set_actual_ticket (a : Z) (g : shared) : shared :=
  {| section_mutex := section_mutex g; ticket_mutex := ticket_mutex g;
     actual_ticket := a; next_ticket := next_ticket g;
     stdout := stdout g; trace := trace g |}.

Definition set_next_ticket (n : Z) (g : shared) : shared :=
  {| section_mutex := section_mutex g; ticket_mutex := ticket_mutex g;
     actual_ticket := actual_ticket g; next_ticket := n;
     stdout := stdout g; trace := trace g |}.

Definition put_line (l : Z * Z) (g : shared) : shared :=
  {| section_mutex := section_mutex g; ticket_mutex := ticket_mutex g;
     actual_ticket := actual_ticket g; next_ticket := next_ticket g;
     stdout := stdout g ++ [l]; trace := trace g |}.

Definition observe (e : event) (g : shared) : shared :=
  {| section_mutex := section_mutex g; ticket_mutex := ticket_mutex g;
     actual_ticket := actual_ticket g; next_ticket := next_ticket g;
     stdout := stdout g; trace := trace g ++ [e] |}.

(** One statement of worker [i].  The result is the worker and the
    globals after it and whether the statement was a
    [pthread_cond_signal]; [None] when the thread cannot run (it waits
    for a mutex or a signal, does not exist, or has returned) or when
    the statement is undefined (unlocking a mutex the thread does not
    hold). *)
Definition worker_step (i : nat) (w : worker) (g : shared)
  : option (worker * shared * bool) :=
  match pc w with
  | Unborn => None
  | GetLock =>
      match ticket_mutex g with
      | None => Some (at_pc GetRead w, set_ticket_mutex (Some i) g, false)
      | Some _ => None
      end
  | GetRead => Some (with_res GetIncr (next_ticket g) w, g, false)
  | GetIncr =>
      Some (at_pc GetUnlock w,
            observe (Issue i (res w))
              (set_next_ticket (to_int (next_ticket g + 1)) g), false)
  | GetUnlock =>
      if decide (ticket_mutex g = Some i)
      then Some (at_pc LoopTest w, set_ticket_mutex None g, false)
      else None
  | LoopTest =>
      if res w <? Param.loop_count (param w)
      then Some (with_ticket Suspend1 (res w) w, g, false)
      else Some (with_ticket Done (res w) w, g, false)
  | Suspend1 => Some (at_pc AwLock w, g, false)
  | AwLock | AwReacq =>
      match section_mutex g with
      | None => Some (at_pc AwTest w, set_section_mutex (Some i) g, false)
      | Some _ => None
      end
  | AwTest =>
      if negb (ticket w =? actual_ticket g)
      then Some (at_pc AwSignal w, g, false)
      else Some (at_pc Printf w, observe (Enter i (ticket w)) g, false)
  | AwSignal => Some (at_pc AwWait w, g, true)
  | AwWait =>
      if decide (section_mutex g = Some i)
      then Some (at_pc Blocked w, set_section_mutex None g, false)
      else None
  | Blocked => None
  | Printf =>
      Some (at_pc AdvIncr w,
            put_line (ticket w, to_int (Param.id (param w))) g, false)
  | AdvIncr =>
      Some (at_pc AdvSignal w,
            set_actual_ticket (to_int (actual_ticket g + 1)) g, false)
  | AdvSignal => Some (at_pc AdvUnlock w, g, true)
  | AdvUnlock =>
      if decide (section_mutex g = Some i)
      then Some (at_pc Suspend2 w,
                 observe (Leave i (ticket w)) (set_section_mutex None g),
                 false)
      else None
  | Suspend2 => Some (at_pc GetLock w, g, false)
  | Done => None
  end.

(** [pthread_cond_signal]: when threads are blocked on the condition
    variable one of them, [j], is unblocked; when none is, nothing
    happens.  Which one is not specified by POSIX, it is the choice [j]
    of the step. *)
Definition is_blocked (w : worker) : bool := bool_decide (pc w = Blocked).

Definition cond_signal (j : nat) (ths : list worker) : option (list worker) :=
  match ths !! j with
  | Some w =>
      if is_blocked w then Some (<[j := at_pc AwReacq w]> ths)
      else if existsb is_blocked ths then None else Some ths
  | None => if existsb is_blocked ths then None else Some ths
  end.

(** Program points of the main thread after the allocations. *)
Inductive mpc :=
| MInitMutex            (* pthread_mutex_init(&section_mutex, NULL) *)
| MInitCond             (* pthread_cond_init(&section_cond, NULL) *)
| MCreate (i : nat)     (* first loop, at its test with this i *)
| MJoin (i : nat)       (* second loop, at its test with this i *)
| MFree                 (* free(threads); free(params) *)
| MDestroyMutex         (* pthread_mutex_destroy(&section_mutex) *)
| MDestroyCond          (* pthread_cond_destroy(&section_cond) *)
| MReturn.              (* after return EXIT_SUCCESS *)

#[global] Instance mpc_eq_dec : EqDecision mpc.
Proof. solve_decision. Defined.

(** Life cycle of a synchronisation object: [Static] is the zero-filled
    object of static storage that no init function has seen, [Ready] is
    after its [pthread_*_init], [Gone] after its [pthread_*_destroy]. *)
Inductive lifecycle := Static | Ready | Gone.

#[global] Instance lifecycle_eq_dec : EqDecision lifecycle.
Proof. solve_decision. Defined.

Record state := {
  globals : shared;
  threads : list worker;
  main_pc : mpc;
  section_mutex_life : lifecycle;
  section_cond_life : lifecycle;
  ticket_mutex_life : lifecycle;
  exit_status : option Z }.

(** The two locals of [main] the threaded part depends on. *)
Record config := { thread_count : Z; loop_count : Z }.

Definition nthreads (c : config) : nat := Z.to_nat (thread_count c).

Definition unborn : worker :=
  {| pc := Unborn; param := {| Param.id := 0; Param.loop_count := 0 |};
     ticket := 0; res := 0 |}.

(** The state when [main] reaches [pthread_mutex_init]: both arrays
    allocated, the globals as their static initialisers leave them. *)
Definition init (c : config) : state :=
  {| globals := {| section_mutex := None; ticket_mutex := None;
                   actual_ticket := 0; next_ticket := 0;
                   stdout := []; trace := [] |};
     threads := replicate (nthreads c) unborn;
     main_pc := MInitMutex;
     section_mutex_life := Static;
     section_cond_life := Static;
     ticket_mutex_life := Static;
     exit_status := None |}.

Definition set_main (p : mpc) (s : state) : state :=
  {| globals := globals s; threads := threads s; main_pc := p;
     section_mutex_life := section_mutex_life s;
     section_cond_life := section_cond_life s;
     ticket_mutex_life := ticket_mutex_life s;
     exit_status := exit_status s |}.

Definition set_threads (g : shared) (ths : list worker) (s : state) : state :=
  {| globals := g; threads := ths; main_pc := main_pc s;
     section_mutex_life := section_mutex_life s;
     section_cond_life := section_cond_life s;
     ticket_mutex_life := ticket_mutex_life s;
     exit_status := exit_status s |}.

(** The worker [pthread_create] starts in slot [i]: [params[i]] as the
    loop of [main] fills it, [ticket = 0], about to call [getticket]. *)
Definition spawn (c : config) (i : nat) : worker :=
  {| pc := GetLock;
     param := {| Param.id := to_unsigned (Z.of_nat i + 1);
                 Param.loop_count := to_int (loop_count c) |};
     ticket := 0; res := 0 |}.

(** One statement of the main thread.  [pthread_join] waits until the
    thread has returned. *)
Definition main_step (c : config) (s : state) : option state :=
  match main_pc s with
  | MInitMutex =>
      Some {| globals := globals s; threads := threads s;
              main_pc := MInitCond;
              section_mutex_life := Ready;
              section_cond_life := section_cond_life s;
              ticket_mutex_life := ticket_mutex_life s;
              exit_status := exit_status s |}
  | MInitCond =>
      Some {| globals := globals s; threads := threads s;
              main_pc := MCreate 0;
              section_mutex_life := section_mutex_life s;
              section_cond_life := Ready;
              ticket_mutex_life := ticket_mutex_life s;
              exit_status := exit_status s |}
  | MCreate i =>
      if Z.of_nat i <? thread_count c
      then Some (set_main (MCreate (S i))
                   (set_threads (globals s) (<[i := spawn c i]> (threads s)) s))
      else Some (set_main (MJoin 0) s)
  | MJoin i =>
      if Z.of_nat i <? thread_count c
      then match threads s !! i with
           | Some w => if decide (pc w = Done)
                       then Some (set_main (MJoin (S i)) s) else None
           | None => None
           end
      else Some (set_main MFree s)
  | MFree => Some (set_main MDestroyMutex s)
  | MDestroyMutex =>
      Some {| globals := globals s; threads := threads s;
              main_pc := MDestroyCond;
              section_mutex_life := Gone;
              section_cond_life := section_cond_life s;
              ticket_mutex_life := ticket_mutex_life s;
              exit_status := exit_status s |}
  | MDestroyCond =>
      Some {| globals := globals s; threads := threads s;
              main_pc := MReturn;
              section_mutex_life := section_mutex_life s;
              section_cond_life := Gone;
              ticket_mutex_life := ticket_mutex_life s;
              exit_status := Some EXIT_SUCCESS |}
  | MReturn => None
  end.

(** The steps of the system: the main thread, worker [i] (with the
    thread [wake] its signal unblocks, if the statement is a signal), or
    a spurious wake-up of the blocked thread [j], which POSIX allows. *)
Inductive label :=
| LMain
| LWorker (i wake : nat)
| LSpurious (j : nat).

Definition exec (c : config) (l : label) (s : state) : option state :=
  match l with
  | LMain => main_step c s
  | LWorker i wake =>
      match threads s !! i with
      | Some w =>
          match worker_step i w (globals s) with
          | Some (w', g', signal) =>
              let ths := <[i := w']> (threads s) in
              if signal
              then match cond_signal wake ths with
                   | Some ths' => Some (set_threads g' ths' s)
                   | None => None
                   end
              else Some (set_threads g' ths s)
          | None => None
          end
      | None => None
      end
  | LSpurious j =>
      match threads s !! j with
      | Some w =>
          if is_blocked w
          then Some (set_threads (globals s)
                       (<[j := at_pc AwReacq w]> (threads s)) s)
          else None
      | None => None
      end
  end.

Definition step (c : config) (s s' : state) : Prop :=
  exists l, exec c l s = Some s'.

Definition reachable (c : config) (s : state) : Prop :=
  rtc (step c) (init c) s.

(** Running a given schedule. *)
Fixpoint run (c : config) (ls : list label) (s : state) : option state :=
  match ls with
  | [] => Some s
  | l :: ls' =>
      match exec c l s with
      | Some s' => run c ls' s'
      | None => None
      end
  end.

(** A scheduler for concrete runs: the main thread when it can move,
    otherwise the first worker that can, a signal unblocking the first
    blocked thread. *)
Definition first_blocked (ths : list worker) : nat :=
  match list_find (fun w => pc w = Blocked) ths with
  | Some (j, _) => j
  | None => O
  end.

Fixpoint first_worker (c : config) (s : state) (i k : nat) : option state :=
  match k with
  | O => None
  | S k' =>
      match exec c (LWorker i (first_blocked (threads s))) s with
      | Some s' => Some s'
      | None => first_worker c s (S i) k'
      end
  end.

Definition sched (c : config) (s : state) : option state :=
  match exec c LMain s with
  | Some s' => Some s'
  | None => first_worker c s O (List.length (threads s))
  end.

Fixpoint run_sched (c : config) (fuel : nat) (s : state) : state :=
  match fuel with
  | O => s
  | S f =>
      match sched c s with
      | Some s' => run_sched c f s'
      | None => s
      end
  end.

End Ticket.

Import CInt Ticket.

(** ** Notions used in the statements *)

(** The critical section: after [await] has returned and before [advance]
    has. *)
Definition in_section (p : wpc) : bool :=
  match p with
  | Printf | AdvIncr | AdvSignal | AdvUnlock => true
  | _ => false
  end.

(** Program points at which the thread holds [section_mutex], and those at
    which it holds [ticket_mutex]. *)
Definition has_section_mutex (p : wpc) : bool :=
  match p with
  | AwTest | AwSignal | AwWait | Printf | AdvIncr | AdvSignal | AdvUnlock => true
  | _ => false
  end.

Definition has_ticket_mutex (p : wpc) : bool :=
  match p with
  | GetRead | GetIncr | GetUnlock => true
  | _ => false
  end.

(** A property of every slot of the thread array. *)
Definition all_workers (P : nat -> worker -> Prop) (ths : list worker) : Prop :=
  forall i w, ths !! i = Some w -> P i w.

Definition locks_ok (g : shared) (i : nat) (w : worker) : Prop :=
  (has_section_mutex (pc w) = true -> section_mutex g = Some i) /\
  (has_ticket_mutex (pc w) = true -> ticket_mutex g = Some i).

(** The effect of a signal or a spurious wake-up on the thread array. *)
Definition woken (ths ths' : list worker) : Prop :=
  ths' = ths \/
  exists k wk, ths !! k = Some wk /\ pc wk = Blocked /\
               ths' = <[k := at_pc AwReacq wk]> ths.

(** The [loop_count] every worker sees in its [param], the number of
    admissions it allows, and the configurations in which [next_ticket]
    stays below [INT_MAX] (so that no [int] arithmetic overflows). *)
Definition lci (c : config) : Z := to_int (loop_count c).

Definition budget (c : config) : Z := Z.max 0 (lci c).

Definition no_overflow (c : config) : Prop :=
  budget c + Z.of_nat (nthreads c) <= INT_MAX.

(** Weights summed over the thread array: [drawn] is 1 while the thread
    has a ticket it has taken from the counter and not yet given back by
    [advance] (a returned thread keeps its last one); [final] is 1 when
    that ticket is not below [loop_count]. *)
Definition drawn (w : worker) : nat :=
  match pc w with
  | GetUnlock | LoopTest | Suspend1 | AwLock | AwTest | AwSignal | AwWait
  | Blocked | AwReacq | Printf | AdvIncr | Done => 1
  | _ => 0
  end.

Definition final (c : config) (w : worker) : nat :=
  match pc w with
  | Done => 1
  | GetUnlock | LoopTest => if res w <? lci c then 0 else 1
  | _ => 0
  end.

(** The tickets taken from the counter, in the order of the increments. *)
Definition issued (tr : list event) : list Z :=
  omap (fun e => match e with Issue _ t => Some t | _ => None end) tr.

(** Replaying the admissions of a trace: the state is the next ticket to
    let in and the thread inside the critical section, if any.  An [Enter]
    is accepted only with that ticket and nobody inside, a [Leave] only
    from the thread inside. *)
Definition gate_step (st : Z * option nat) (e : event) : option (Z * option nat) :=
  match e, st with
  | Issue _ _, _ => Some st
  | Enter i t, (k, None) => if t =? k then Some (k, Some i) else None
  | Leave i t, (k, Some j) =>
      if (t =? k) && Nat.eqb i j then Some (k + 1, None) else None
  | _, _ => None
  end.

Definition replay (tr : list event) : option (Z * option nat) :=
  foldl (fun o e => o ≫= fun st => gate_step st e) (Some (0, None)) tr.

(** The lines written so far number [n] and the replay of the trace ends
    with next ticket [k] and [ins] inside. *)
Definition gate_at (g : shared) (n k : Z) (ins : option nat) : Prop :=
  Z.of_nat (length (stdout g)) = n /\ replay (trace g) = Some (k, ins).

(** What holds of worker [i] at each program point. *)
Definition worker_ok (c : config) (g : shared) (i : nat) (w : worker) : Prop :=
  (pc w <> Unborn -> param w = param (spawn c i)) /\
  match pc w with
  | Unborn | GetLock | GetRead | Suspend2 => True
  | GetIncr => res w = next_ticket g
  | GetUnlock | LoopTest =>
      Issue i (res w) ∈ trace g /\ actual_ticket g <= res w
  | Suspend1 | AwLock | Blocked | AwReacq =>
      Issue i (ticket w) ∈ trace g /\ (actual_ticket g <= ticket w < lci c)
  | AwTest =>
      Issue i (ticket w) ∈ trace g /\ (actual_ticket g <= ticket w < lci c) /\
      gate_at g (actual_ticket g) (actual_ticket g) None
  | AwSignal | AwWait =>
      Issue i (ticket w) ∈ trace g /\ (actual_ticket g < ticket w < lci c) /\
      gate_at g (actual_ticket g) (actual_ticket g) None
  | Printf =>
      Issue i (ticket w) ∈ trace g /\ ticket w = actual_ticket g /\
      ticket w < lci c /\
      gate_at g (actual_ticket g) (actual_ticket g) (Some i)
  | AdvIncr =>
      Issue i (ticket w) ∈ trace g /\ ticket w = actual_ticket g /\
      ticket w < lci c /\
      gate_at g (actual_ticket g + 1) (actual_ticket g) (Some i)
  | AdvSignal | AdvUnlock =>
      ticket w + 1 = actual_ticket g /\ ticket w < lci c /\
      gate_at g (actual_ticket g) (ticket w) (Some i)
  | Done => lci c <= ticket w
  end.

(** The main thread against the thread array. *)
Definition main_ok (c : config) (s : state) : Prop :=
  match main_pc s with
  | MInitMutex | MInitCond =>
      all_workers (fun _ w => pc w = Unborn) (threads s)
  | MCreate k =>
      (k <= nthreads c)%nat /\
      all_workers (fun i w => pc w = Unborn <-> (k <= i)%nat) (threads s)
  | MJoin k =>
      (k <= nthreads c)%nat /\
      all_workers (fun i w => pc w <> Unborn /\ ((i < k)%nat -> pc w = Done))
        (threads s)
  | MFree | MDestroyMutex | MDestroyCond | MReturn =>
      all_workers (fun _ w => pc w = Done) (threads s)
  end.

(** The invariant of the threaded part. *)
Record inv (c : config) (s : state) : Prop := {
  inv_locks : all_workers (locks_ok (globals s)) (threads s);
  inv_workers : all_workers (worker_ok c (globals s)) (threads s);
  inv_length : length (threads s) = nthreads c;
  inv_actual : 0 <= actual_ticket (globals s) <= budget c;
  inv_drawn :
    next_ticket (globals s) =
    actual_ticket (globals s) + Z.of_nat (sum_list_with drawn (threads s));
  inv_final :
    Z.of_nat (sum_list_with (final c) (threads s)) =
    Z.max 0 (next_ticket (globals s) - budget c);
  inv_issued : issued (trace (globals s)) = seqZ 0 (next_ticket (globals s));
  inv_lines :
    map fst (stdout (globals s)) =
    seqZ 0 (Z.of_nat (length (stdout (globals s))));
  inv_ids :
    Forall (fun l => 1 <= l.2 <= Z.of_nat (nthreads c)) (stdout (globals s));
  inv_free :
    section_mutex (globals s) = None ->
    gate_at (globals s) (actual_ticket (globals s))
      (actual_ticket (globals s)) None;
  inv_main : main_ok c s }.

(** Every held mutex is held by a thread at a program point where it
    holds it. *)
Definition owners_ok (g : shared) (ths : list worker) : Prop :=
  (forall o, section_mutex g = Some o ->
             exists w, ths !! o = Some w /\ has_section_mutex (pc w) = true) /\
  (forall o, ticket_mutex g = Some o ->
             exists w, ths !! o = Some w /\ has_ticket_mutex (pc w) = true).

(** The tickets with which the critical section was entered, in order. *)
Definition entered (tr : list event) : list Z :=
  omap (fun e => match e with Enter _ t => Some t | _ => None end) tr.

(** The tickets with which a critical section was completed (the thread
    returned from [advance]), in order. *)
Definition completed (tr : list event) : list Z :=
  omap (fun e => match e with Leave _ t => Some t | _ => None end) tr.

(** Every admission is of a ticket the same thread took from the counter. *)
Definition enters_issued (tr : list event) : Prop :=
  forall i t, Enter i t ∈ tr -> Issue i t ∈ tr.

(** The main thread has returned from [main]. *)
Definition finished (s : state) : Prop := main_pc s = MReturn.

(** The configurations [main] starts the threads with and in which the
    counters stay within [int]. *)
Definition in_range (c : config) : Prop :=
  0 < thread_count c /\ 0 < loop_count c /\
  loop_count c + thread_count c <= INT_MAX.

(** The second part of the invariant. *)
Record inv2 (s : state) : Prop := {
  inv_owners : owners_ok (globals s) (threads s);
  inv_enters : enters_issued (trace (globals s)) }.

(** The ticket a worker holds: taken from the counter and not yet given
    back by [advance]. *)
Definition holds (w : worker) : option Z :=
  match pc w with
  | GetUnlock | LoopTest => Some (res w)
  | Suspend1 | AwLock | AwTest | AwSignal | AwWait | Blocked | AwReacq
  | Printf | AdvIncr => Some (ticket w)
  | _ => None
  end.

(** Program points from which the thread is going to signal the condition
    variable before it blocks or leaves. *)
Definition relays (p : wpc) : bool :=
  match p with
  | AdvSignal | AwReacq | AwTest | AwSignal => true
  | _ => false
  end.

(** Every ticket between the turn and the counter that allows an
    admission is held by some thread; and a blocked thread whose turn has
    come is not forgotten: some thread is about to signal. *)
Definition covered (c : config) (g : shared) (ths : list worker) : Prop :=
  forall t, actual_ticket g <= t < next_ticket g -> t < lci c ->
            exists i w, ths !! i = Some w /\ holds w = Some t.

Definition relay_ok (g : shared) (ths : list worker) : Prop :=
  forall r w, ths !! r = Some w -> pc w = Blocked ->
              ticket w = actual_ticket g ->
              exists x wx, ths !! x = Some wx /\ relays (pc wx) = true.

(** The third part of the invariant. *)
Record inv3 (c : config) (s : state) : Prop := {
  inv_cover : covered c (globals s) (threads s);
  inv_relay : relay_ok (globals s) (threads s) }.

(** Steps other than spurious wake-ups, and the states from which the
    program can run to its end without any. *)
Definition step_ns (c : config) (s s' : state) : Prop :=
  exists l, (forall j, l <> LSpurious j) /\ exec c l s = Some s'.

Definition can_finish (c : config) (s : state) : Prop :=
  exists s', rtc (step_ns c) s s' /\ finished s'.

(** The measure that decreases along a well-chosen run: the draws and
    admissions still to come; the blocked threads whose turn it is; and
    the distance of every thread to its next draw. *)
Definition to_come (c : config) (g : shared) : nat :=
  Z.to_nat (budget c + Z.of_nat (nthreads c) - next_ticket g) +
  Z.to_nat (budget c - actual_ticket g).

Definition turn_blocked (a : Z) (w : worker) : nat :=
  if bool_decide (pc w = Blocked) && (ticket w =? a) then 1 else 0.

Definition rank (a : Z) (b : nat) (w : worker) : nat :=
  match pc w with
  | Unborn => 30
  | GetUnlock => 28
  | LoopTest => 27
  | Suspend1 => 26
  | AwLock => 25
  | AwReacq => if (ticket w =? a) || (0 <? b)%nat then 24 else 1
  | AwTest => 23
  | AwSignal => 22
  | AwWait => 20
  | Printf => 19
  | AdvIncr => 18
  | AdvSignal => 17
  | AdvUnlock => 15
  | Suspend2 => 14
  | GetLock => 13
  | GetRead => 12
  | GetIncr => 11
  | Blocked | Done => 0
  end.

Definition main_rank (c : config) (p : mpc) : nat :=
  match p with
  | MInitMutex => 2 * nthreads c + 8
  | MInitCond => 2 * nthreads c + 7
  | MCreate k => (nthreads c - k) + nthreads c + 6
  | MJoin k => (nthreads c - k) + 4
  | MFree => 3
  | MDestroyMutex => 2
  | MDestroyCond => 1
  | MReturn => 0
  end.

Definition waiting (s : state) : nat :=
  sum_list_with (turn_blocked (actual_ticket (globals s))) (threads s).

Definition effort (c : config) (s : state) : nat :=
  sum_list_with (rank (actual_ticket (globals s)) (waiting s)) (threads s) +
  main_rank c (main_pc s).

Definition measure (c : config) (s : state) : nat * nat * nat :=
  (to_come c (globals s), waiting s, effort c s).

Definition lt3 (x y : nat * nat * nat) : Prop :=
  (x.1.1 < y.1.1)%nat \/
  (x.1.1 = y.1.1 /\ ((x.1.2 < y.1.2)%nat \/
                     (x.1.2 = y.1.2 /\ (x.2 < y.2)%nat))).

(** Threads the well-chosen run may move when no mutex is held. *)
Definition ready (a : Z) (b : nat) (w : worker) : bool :=
  match pc w with
  | GetLock | LoopTest | Suspend1 | AwLock | Suspend2 => true
  | AwReacq => (ticket w =? a) || (0 <? b)%nat
  | _ => false
  end.

(** A worker whose next statement can run now and brings the run
    forward. *)
Definition movable (s : state) (w : worker) : Prop :=
  match pc w with
  | GetLock => ticket_mutex (globals s) = None
  | AwLock => section_mutex (globals s) = None
  | AwReacq =>
      section_mutex (globals s) = None /\
      (ticket w =? actual_ticket (globals s)) || (0 <? waiting s)%nat = true
  | Unborn | Blocked | Done => False
  | _ => True
  end.

(** The three parts of the invariant together. *)
Definition good (c : config) (s : state) : Prop :=
  inv c s /\ inv2 s /\ inv3 c s.

(** The life cycle of the synchronisation objects and the exit status
    against the program point of the main thread. *)
Definition life_ok (s : state) : Prop :=
  ticket_mutex_life s = Static /\
  match main_pc s with
  | MInitMutex =>
      section_mutex_life s = Static /\ section_cond_life s = Static /\
      exit_status s = None
  | MInitCond =>
      section_mutex_life s = Ready /\ section_cond_life s = Static /\
      exit_status s = None
  | MCreate _ | MJoin _ | MFree | MDestroyMutex =>
      section_mutex_life s = Ready /\ section_cond_life s = Ready /\
      exit_status s = None
  | MDestroyCond =>
      section_mutex_life s = Gone /\ section_cond_life s = Ready /\
      exit_status s = None
  | MReturn =>
      section_mutex_life s = Gone /\ section_cond_life s = Gone /\
      exit_status s = Some EXIT_SUCCESS
  end.

(** How many tickets not below [loop_count] thread [i] has taken. *)
Definition final_draws (c : config) (i : nat) (tr : list event) : nat :=
  sum_list_with
    (fun e => match e with
              | Issue j t =>
                  if bool_decide (j = i) && (lci c <=? t) then 1%nat else 0%nat
              | _ => 0%nat
              end) tr.

Definition draws_ok (c : config) (s : state) : Prop :=
  all_workers (fun i w => final_draws c i (trace (globals s)) = final c w)
    (threads s).

(** Configurations at which single statements of the specification are
    evaluated. *)
Definition one_one : config := {| thread_count := 1; loop_count := 1 |}.

Definition beyond_int : config :=
  {| thread_count := 1; loop_count := 2147483648 |}.

Definition minus_one : config :=
  {| thread_count := 1; loop_count := 4294967295 |}.

(** A run used to instantiate the theorems: two threads, two entries.
    The second thread takes ticket 0 and is delayed before [await]; the
    first takes ticket 1, finds that it is not its turn and blocks; the
    second is let in, prints, advances and wakes the first, which is
    let in in turn.  [demo_mid] is the state at that point, [demo_end]
    the state after the run has been completed. *)
Definition demo : config := {| thread_count := 2; loop_count := 2 |}.

Definition demo_schedule : list label :=
  replicate 5 LMain ++ replicate 6 (LWorker 1 0) ++
  replicate 10 (LWorker 0 0) ++ replicate 6 (LWorker 1 0) ++
  replicate 2 (LWorker 0 0).

Definition demo_mid : state :=
  default (init demo) (run demo demo_schedule (init demo)).

Definition demo_end : state := run_sched demo 200 demo_mid.

(** ** Further notions: numerals, the end of [main], the lines written *)

(** The decimal numeral of a natural number, without leading zeros, as a
    user writes it on the command line. *)
Definition decimal (n : Z) : string :=
  DecimalString.NilEmpty.string_of_uint (N.to_uint (Z.to_N n)).

(** Strings all of whose characters satisfy a test. *)
Fixpoint all_chars (p : ascii -> bool) (s : string) : bool :=
  match s with
  | String c s' => p c && all_chars p s'
  | EmptyString => true
  end.

Definition is_digit (c : ascii) : bool :=
  match Args.digit_of c with Some _ => true | None => false end.

(** The strings [strtoul] converts whole: white space, an optional sign
    and at least one digit. *)
Definition numeral (s : string) : Prop :=
  exists ws sg ds : string,
    s = (ws ++ sg ++ ds)%string /\
    all_chars Args.isspace ws = true /\
    (sg = EmptyString \/ sg = "+"%string \/ sg = "-"%string) /\
    ds <> EmptyString /\ all_chars is_digit ds = true.

(** The value of a digit sequence read after [acc]. *)
Fixpoint uint_value (d : Decimal.uint) (acc : Z) : Z :=
  match d with
  | Decimal.Nil => acc
  | Decimal.D0 l => uint_value l (10 * acc + 0)
  | Decimal.D1 l => uint_value l (10 * acc + 1)
  | Decimal.D2 l => uint_value l (10 * acc + 2)
  | Decimal.D3 l => uint_value l (10 * acc + 3)
  | Decimal.D4 l => uint_value l (10 * acc + 4)
  | Decimal.D5 l => uint_value l (10 * acc + 5)
  | Decimal.D6 l => uint_value l (10 * acc + 6)
  | Decimal.D7 l => uint_value l (10 * acc + 7)
  | Decimal.D8 l => uint_value l (10 * acc + 8)
  | Decimal.D9 l => uint_value l (10 * acc + 9)
  end.

(** Program points of the main thread behind the second loop: every
    [pthread_join] has returned. *)
Definition joined (p : mpc) : bool :=
  match p with
  | MFree | MDestroyMutex | MDestroyCond | MReturn => true
  | _ => false
  end.

(** The thread that wrote a line: the index [i] of the thread whose id
    the line shows, with the ticket of the line taken from the counter and
    let into the critical section by that thread. *)
Definition line_of (tr : list event) (i : nat) (l : Z * Z) : Prop :=
  l.2 = Z.of_nat i + 1 /\ Issue i l.1 ∈ tr /\ Enter i l.1 ∈ tr.

(** Every line was written by a thread that had been let in with the
    ticket of the line, and a thread about to write has been let in. *)
Definition lines_ok (c : config) (s : state) : Prop :=
  all_workers (fun i w => pc w = Printf ->
                          Enter i (ticket w) ∈ trace (globals s)) (threads s) /\
  forall l, l ∈ stdout (globals s) ->
    exists i, (i < nthreads c)%nat /\ l.2 = Z.of_nat i + 1 /\
              Enter i l.1 ∈ trace (globals s).

(** The state of the run [demo] in which the first thread is blocked in
    [pthread_cond_wait] with ticket 1 and the second, inside the critical
    section with ticket 0, has just incremented [actual_ticket]. *)
Definition demo_wait : state :=
  default (init demo)
    (run demo (replicate 5 LMain ++ replicate 6 (LWorker 1 0) ++
               replicate 10 (LWorker 0 0) ++ replicate 4 (LWorker 1 0))
       (init demo)).

Definition demo_waiter : worker :=
  Eval vm_compute in default unborn (threads demo_wait !! 0%nat).

Definition demo_holder : worker :=
  Eval vm_compute in default unborn (threads demo_wait !! 1%nat).

(** The state of the same run one statement earlier: the second thread is
    about to increment [actual_ticket]. *)
Definition demo_incr : state :=
  default (init demo)
    (run demo (replicate 5 LMain ++ replicate 6 (LWorker 1 0) ++
               replicate 10 (LWorker 0 0) ++ replicate 3 (LWorker 1 0))
       (init demo)).

Definition demo_advancer : worker :=
  Eval vm_compute in default unborn (threads demo_incr !! 1%nat).

(** ** Sleeping *)

Module Sleep.

Import CInt.

Definition RAND_MAX : Z := 2147483647.

(** [suspend]: the [timespec] handed to [nanosleep], as the pair of
    [tv_sec] and [tv_nsec].  [tv_sec], [tv_usec] are the [timeval] that
    [gettimeofday] fills, [pid] is the result of [getpid], and [rand_r] is
    the function of the C library applied to the seed ([long] arithmetic
    converted to [unsigned]); the remainder is the one of C, which
    truncates towards zero. *)
Definition suspend (rand_r : Z -> Z) (tv_sec tv_usec pid : Z) : Z * Z :=
  let seedp := to_unsigned (1000000 * tv_sec + tv_usec + pid) in
  (0, Z.rem (rand_r seedp) 499999999 + 1).

(** The sample [rand_r] of POSIX, for concrete runs. *)
Definition sample_rand_r (seed : Z) : Z :=
  (to_unsigned (seed * 1103515245 + 12345) / 65536) mod 32768.

End Sleep.

(** Three threads and three entries: the third thread takes ticket 0 and
    sleeps in [suspend]; the first takes ticket 1, finds that it is not
    its turn and blocks; the second takes ticket 2, wakes the first and
    blocks.  [relay_round] is one round of the two waiting threads waking
    each other. *)
Definition relay : config := {| thread_count := 3; loop_count := 3 |}.

Definition relay_state : state :=
  default (init relay)
    (run relay (replicate 5 LMain ++ replicate 5 (LWorker 2 0) ++
                replicate 10 (LWorker 0 0) ++ replicate 10 (LWorker 1 0))
       (init relay)).

Definition relay_round : list label :=
  replicate 4 (LWorker 0 1) ++ replicate 4 (LWorker 1 0).

Definition is_spurious (l : label) : bool :=
  match l with LSpurious _ => true | _ => false end.

(** The statements that read or write [next_ticket], and those that read
    or write [actual_ticket]. *)
Definition uses_next_ticket (p : wpc) : bool :=
  match p with GetRead | GetIncr => true | _ => false end.

Definition uses_actual_ticket (p : wpc) : bool :=
  match p with AwTest | AdvIncr => true | _ => false end.

#[local] Instance movable_dec s w : Decision (movable s w).
Proof. unfold movable. destruct (pc w); apply _. Defined.

(** ** Proof automation

    [break_worker_step] splits a hypothesis [worker_step i w g = Some _]
    along the statement executed; [norm_tests] turns the boolean tests it
    leaves into propositions; [use_premises] discharges the premises of
    the invariant that the case at hand decides. *)

Ltac break_worker_step H :=
  unfold worker_step in H;
  repeat (case_match; simplify_eq; simpl in * );
  simplify_eq; simpl in *.

Ltac norm_tests :=
  repeat match goal with
  | H : negb _ = true |- _ => apply negb_true_iff in H
  | H : negb _ = false |- _ => apply negb_false_iff in H
  | H : (_ =? _) = true |- _ => apply Z.eqb_eq in H
  | H : (_ =? _) = false |- _ => apply Z.eqb_neq in H
  | H : (_ <? _) = true |- _ => apply Z.ltb_lt in H
  | H : (_ <? _) = false |- _ => apply Z.ltb_ge in H
  end.

Ltac use_premises :=
  repeat match goal with
  | H : ?x = ?x -> _ |- _ => specialize (H eq_refl)
  | H : ?p <> Unborn -> _ |- _ => specialize (H ltac:(discriminate))
  | H : ?a = ?b, H2 : ?a = ?b -> _ |- _ => specialize (H2 H)
  | H : _ /\ _ |- _ => destruct H
  end.

Ltac worker_cases w Hstep :=
  destruct w as [?p ?par ?t ?r]; simpl in *;
  match goal with
  | H : context [match ?p with Unborn => _ | _ => _ end] |- _ => destruct p
  end;
  break_worker_step Hstep; norm_tests; use_premises; subst; simpl in *.

(** ** Facts about the machine integers *)

Lemma to_int_id z : INT_MIN <= z <= INT_MAX -> to_int z = z.
Proof.
unfold to_int, INT_MIN, INT_MAX. intros H.
rewrite Z.mod_small by lia. lia.
Qed.

Lemma to_int_range z : INT_MIN <= to_int z <= INT_MAX.
Proof.
unfold to_int, INT_MIN, INT_MAX.
pose proof (Z.mod_pos_bound (z + 2147483648) 4294967296). lia.
Qed.

Lemma to_unsigned_id z : 0 <= z <= UINT_MAX -> to_unsigned z = z.
Proof.
unfold to_unsigned, UINT_MAX. intros H. apply Z.mod_small. lia.
Qed.

Lemma to_unsigned_range z : 0 <= to_unsigned z <= UINT_MAX.
Proof.
unfold to_unsigned, UINT_MAX.
pose proof (Z.mod_pos_bound z 4294967296). lia.
Qed.

(** ** The shape of a step *)

Lemma cond_signal_woken k ths ths' :
  cond_signal k ths = Some ths' -> woken ths ths'.
Proof.
  unfold cond_signal, woken, is_blocked. intros H.
  destruct (ths !! k) as [wk|] eqn:Hk.
  - case_bool_decide.
    + right. exists k, wk. by simplify_eq.
    + destruct (existsb _ ths); simplify_eq. by left.
  - destruct (existsb _ ths); simplify_eq. by left.
Qed.

Lemma exec_worker c i k s s' :
  exec c (LWorker i k) s = Some s' ->
  exists w w' g' sg ths',
    threads s !! i = Some w /\
    worker_step i w (globals s) = Some (w', g', sg) /\
    woken (<[i := w']> (threads s)) ths' /\
    (if sg then cond_signal k (<[i := w']> (threads s)) = Some ths'
     else ths' = <[i := w']> (threads s)) /\
    s' = set_threads g' ths' s.
Proof.
  unfold exec. intros H.
  destruct (threads s !! i) as [w|] eqn:Hi; [|done].
  destruct (worker_step i w (globals s)) as [[[w' g'] sg]|] eqn:Hw; [|done].
  destruct sg.
  - destruct (cond_signal k _) as [ths'|] eqn:Hc; [|done].
    simplify_eq. exists w, w', g', true, ths'.
    split_and!; try done. by eapply cond_signal_woken.
  - simplify_eq. exists w, w', g', false, (<[i := w']> (threads s)).
    split_and!; try done. by left.
Qed.

Lemma exec_spurious c j s s' :
  exec c (LSpurious j) s = Some s' ->
  woken (threads s) (threads s') /\ s' = set_threads (globals s) (threads s') s.
Proof.
  unfold exec, is_blocked. intros H.
  destruct (threads s !! j) as [w|] eqn:Hj; [|done].
  case_bool_decide; [|done]. simplify_eq. split; [|done].
  right. exists j, w. done.
Qed.

Lemma all_workers_insert (P : nat -> worker -> Prop) ths i w' :
  P i w' ->
  (forall j w, j <> i -> ths !! j = Some w -> P j w) ->
  all_workers P (<[i := w']> ths).
Proof.
  intros Hi Hrest j w Hj.
  destruct (decide (j = i)) as [->|Hne].
  - apply list_lookup_insert_Some in Hj as [(_ & -> & _)|(? & _)]; done.
  - rewrite list_lookup_insert_ne in Hj by done. by apply Hrest.
Qed.

Lemma all_workers_woken (P : nat -> worker -> Prop) ths ths' :
  woken ths ths' ->
  (forall k w, pc w = Blocked -> P k w -> P k (at_pc AwReacq w)) ->
  all_workers P ths -> all_workers P ths'.
Proof.
  intros [->|(k & wk & Hk & Hpc & ->)] Hwake Hall; [done|].
  apply all_workers_insert.
  - apply Hwake; [done|]. by apply Hall.
  - intros j w _ Hj. by apply Hall.
Qed.

Lemma woken_length ths ths' : woken ths ths' -> length ths' = length ths.
Proof.
  intros [->|(k & wk & _ & _ & ->)]; [done|]. by rewrite length_insert.
Qed.

Lemma main_step_shape c s s' :
  main_step c s = Some s' ->
  globals s' = globals s /\
  (threads s' = threads s \/
   exists k, main_pc s = MCreate k /\ threads s' = <[k := spawn c k]> (threads s)).
Proof.
  unfold main_step. intros H.
  destruct (main_pc s) eqn:Hpc; repeat case_match; simplify_eq; simpl; eauto.
Qed.

(** ** Mutual exclusion *)

Lemma locks_ok_worker_step i w g w' g' sg :
  worker_step i w g = Some (w', g', sg) ->
  locks_ok g i w ->
  locks_ok g' i w' /\
  (forall j wj, j <> i -> locks_ok g j wj -> locks_ok g' j wj).
Proof.
  intros Hstep [Hs Ht].
  destruct w as [p par t r]; simpl in *.
  unfold locks_ok.
  destruct p; break_worker_step Hstep;
    (split; [split; simpl; intros; try done; try (by apply Hs); by apply Ht
            | intros j [pj ? ? ?] Hne [Hjs Hjt]; simpl in *;
              split; intros Hx; try specialize (Hjs Hx); try specialize (Hjt Hx);
              try congruence]).
Qed.

Lemma locks_ok_init c : all_workers (locks_ok (globals (init c))) (threads (init c)).
Proof.
  intros i w Hi. simpl in Hi.
  apply lookup_replicate in Hi as [-> _]. by split.
Qed.

Lemma locks_ok_step c s s' :
  step c s s' ->
  all_workers (locks_ok (globals s)) (threads s) ->
  all_workers (locks_ok (globals s')) (threads s').
Proof.
  intros [l Hl] Hall. destruct l as [|i k|j].
  - apply main_step_shape in Hl as [-> [->|(k & _ & ->)]]; [done|].
    apply all_workers_insert; [by split|].
    intros j w _ Hj. by apply Hall.
  - apply exec_worker in Hl as (w & w' & g' & sg & ths' & Hi & Hw & Hwk & _ & ->).
    simpl. pose proof (locks_ok_worker_step _ _ _ _ _ _ Hw (Hall _ _ Hi)) as [Hi' Hrest].
    eapply all_workers_woken; [done| |].
    + intros k' wk Hpc [Hks Hkt]. split; [done|]. simpl. by rewrite Hpc in Hkt.
    + apply all_workers_insert; [done|].
      intros j wj Hne Hj. apply Hrest; [done|]. by apply Hall.
  - apply exec_spurious in Hl as [Hwk ->]. simpl.
    eapply all_workers_woken; [done| |done].
    intros k wk Hpc [Hks Hkt]. split; [done|]. simpl. by rewrite Hpc in Hkt.
Qed.

Lemma locks_ok_reachable c s :
  reachable c s -> all_workers (locks_ok (globals s)) (threads s).
Proof.
  intros H.
  apply (rtc_ind_r (R := step c)
           (fun s => all_workers (locks_ok (globals s)) (threads s))
           (init c)); [apply locks_ok_init| |exact H].
  intros y z _ Hstep IH. by eapply locks_ok_step.
Qed.

Lemma in_section_has_mutex p : in_section p = true -> has_section_mutex p = true.
Proof. by destruct p. Qed.

(** C3: in every state the program can reach, whatever the interleaving,
    the signals' choices and the spurious wake-ups, at most one thread is
    between the return of [await] and the return of [advance]. *)
Theorem mutual_exclusion c s i j wi wj :
  reachable c s ->
  threads s !! i = Some wi -> threads s !! j = Some wj ->
  in_section (pc wi) = true -> in_section (pc wj) = true ->
  i = j.
Proof.
  intros Hr Hi Hj Hci Hcj.
  pose proof (locks_ok_reachable c s Hr) as Hall.
  destruct (Hall _ _ Hi) as [Hmi _], (Hall _ _ Hj) as [Hmj _].
  apply in_section_has_mutex in Hci, Hcj.
  specialize (Hmi Hci). specialize (Hmj Hcj). congruence.
Qed.

(** ** Sums over the thread array, traces *)

Lemma sum_list_with_insert (f : worker -> nat) ths i w w' :
  ths !! i = Some w ->
  (sum_list_with f (<[i := w']> ths) + f w = sum_list_with f ths + f w')%nat.
Proof.
  revert i. induction ths as [|x ths IH]; intros [|i] Hi; simplify_eq/=.
  - lia.
  - specialize (IH _ Hi). lia.
Qed.

Lemma sum_list_with_woken (f : worker -> nat) ths ths' :
  (forall w, pc w = Blocked -> f (at_pc AwReacq w) = f w) ->
  woken ths ths' -> sum_list_with f ths' = sum_list_with f ths.
Proof.
  intros Hf [->|(k & wk & Hk & Hpc & ->)]; [done|].
  pose proof (sum_list_with_insert f ths k wk (at_pc AwReacq wk) Hk).
  rewrite Hf in H by done. lia.
Qed.

Lemma sum_list_with_le_length (f : worker -> nat) ths :
  (forall w, (f w <= 1)%nat) -> (sum_list_with f ths <= length ths)%nat.
Proof.
  intros Hf. induction ths as [|x ths IH]; simpl; [lia|].
  specialize (Hf x). lia.
Qed.

Lemma sum_list_with_all (f : worker -> nat) ths :
  (forall w, w ∈ ths -> f w = 1%nat) -> sum_list_with f ths = length ths.
Proof.
  induction ths as [|x ths IH]; intros Hf; simpl; [done|].
  rewrite Hf by left. rewrite IH; [done|]. intros w Hw. apply Hf. by right.
Qed.

Lemma drawn_le_1 w : (drawn w <= 1)%nat.
Proof. unfold drawn. destruct (pc w); lia. Qed.

Lemma final_le_1 c w : (final c w <= 1)%nat.
Proof. unfold final. destruct (pc w); try case_match; lia. Qed.

Lemma issued_snoc tr e :
  issued (tr ++ [e]) =
  issued tr ++ match e with Issue _ t => [t] | _ => [] end.
Proof. unfold issued. rewrite omap_app. by destruct e. Qed.

Lemma replay_snoc tr e :
  replay (tr ++ [e]) = replay tr ≫= fun st => gate_step st e.
Proof. unfold replay. by rewrite foldl_app. Qed.

Lemma issued_elem i t tr : Issue i t ∈ tr -> t ∈ issued tr.
Proof.
  intros H. unfold issued. apply list_elem_of_omap. by exists (Issue i t).
Qed.

Lemma issued_unique tr i j t :
  NoDup (issued tr) -> Issue i t ∈ tr -> Issue j t ∈ tr -> i = j.
Proof.
  induction tr as [|e tr IH]; intros Hnd Hi Hj.
  - by apply elem_of_nil in Hi.
  - apply elem_of_cons in Hi as [Hi|Hi], Hj as [Hj|Hj].
    + congruence.
    + subst e. simpl in Hnd. apply NoDup_cons in Hnd as [Hnot _].
      destruct Hnot. by eapply issued_elem.
    + subst e. simpl in Hnd. apply NoDup_cons in Hnd as [Hnot _].
      destruct Hnot. by eapply issued_elem.
    + apply IH; try done. unfold issued in Hnd. simpl in Hnd.
      destruct e; try done. by apply NoDup_cons in Hnd as [_ ?].
Qed.

Lemma seqZ_snoc (n : Z) : 0 <= n -> seqZ 0 (n + 1) = seqZ 0 n ++ [n].
Proof.
  intros Hn. rewrite seqZ_app by lia. f_equal.
Qed.

Lemma nthreads_test c k :
  (Z.of_nat k <? thread_count c) = true <-> (k < nthreads c)%nat.
Proof. unfold nthreads. rewrite Z.ltb_lt. lia. Qed.

(** ** The invariant is kept by every step *)

Lemma actual_incr c a : 0 <= a -> a < lci c -> to_int (a + 1) = a + 1.
Proof.
  intros H0 Hl. apply to_int_id.
  pose proof (to_int_range (loop_count c)). unfold lci in Hl.
  unfold INT_MIN, INT_MAX in *. lia.
Qed.

Lemma gate_enter k i : gate_step (k, None) (Enter i k) = Some (k, Some i).
Proof. simpl. by rewrite Z.eqb_refl. Qed.

Lemma gate_leave k i : gate_step (k, Some i) (Leave i k) = Some (k + 1, None).
Proof. simpl. by rewrite Z.eqb_refl, Nat.eqb_refl. Qed.

Lemma worker_ok_worker_step c g i w w' g' sg :
  worker_step i w g = Some (w', g', sg) ->
  locks_ok g i w -> worker_ok c g i w ->
  0 <= actual_ticket g <= next_ticket g ->
  NoDup (issued (trace g)) ->
  (section_mutex g = None ->
   gate_at g (actual_ticket g) (actual_ticket g) None) ->
  worker_ok c g' i w' /\
  (forall j wj, j <> i -> locks_ok g j wj -> worker_ok c g j wj ->
                worker_ok c g' j wj).
Proof.
  intros Hstep [Hs Ht] [Hpar Hw] Hrange Hnd Hfree.
  destruct w as [p par t r]; simpl in *.
  unfold worker_ok, gate_at in *.
  destruct p; break_worker_step Hstep; norm_tests; use_premises;
    subst; simpl in *; fold (lci c) in *.
  all: split;
    [ repeat split; simpl; try done;
      rewrite ?replay_snoc, ?length_app, ?elem_of_app; simpl;
      try (by left); try (by right; left); try lia
    | intros j [pj parj tj rj] Hne [Hjs Hjt] [Hjpar Hj]; simpl in *;
      (split; [done|]);
      destruct pj; simpl in *; use_premises; try congruence;
      repeat split; simpl; try done;
      rewrite ?replay_snoc, ?length_app, ?elem_of_app; simpl;
      try (by left); try lia ].
  all: repeat match goal with
       | H : replay _ = Some _ |- _ => rewrite H; clear H
       end; simpl.
  all: rewrite ?Z.eqb_refl, ?Nat.eqb_refl; simpl.
  all: try (rewrite (actual_incr c) by lia).
  all: try done; try lia.
  all: try match goal with
       | Hne : ?j <> ?i, Hnd : NoDup (issued ?tr),
         Hi : Issue ?i ?a ∈ ?tr, Hj : Issue ?j ?b ∈ ?tr |- _ =>
           assert (a <> b)
             by (intros Heq; rewrite Heq in Hi;
                 exact (Hne (issued_unique _ _ _ _ Hnd Hj Hi))); lia
       end.
Qed.

Lemma worker_ok_wake c g k w :
  pc w = Blocked -> worker_ok c g k w -> worker_ok c g k (at_pc AwReacq w).
Proof.
  unfold worker_ok. destruct w as [p ? ? ?]; simpl. intros -> [? ?].
  split; [|done]. intros _. auto.
Qed.

Lemma locks_ok_wake g k w :
  pc w = Blocked -> locks_ok g k w -> locks_ok g k (at_pc AwReacq w).
Proof.
  unfold locks_ok. destruct w as [p ? ? ?]; simpl. intros -> [? ?]. done.
Qed.

Lemma main_ok_worker_step c s i w w' g' sg ths' :
  main_ok c s ->
  threads s !! i = Some w ->
  worker_step i w (globals s) = Some (w', g', sg) ->
  woken (<[i := w']> (threads s)) ths' ->
  main_ok c (set_threads g' ths' s).
Proof.
  intros Hmain Hi Hstep Hwk.
  assert (pc w <> Unborn /\ pc w <> Done /\ pc w' <> Unborn) as (Hu & Hd & Hu').
  { unfold worker_step in Hstep. destruct w as [p ? ? ?]; simpl in *.
    destruct p; repeat (case_match; simplify_eq; simpl in * );
      simplify_eq; split_and!; done. }
  unfold main_ok in *. simpl.
  destruct (main_pc s).
  all: try (destruct Hmain as [Hk Hmain]; split; [done|]).
  all: pose proof (Hmain _ _ Hi) as Hmi; simpl in Hmi; try done.
  all: eapply all_workers_woken; [exact Hwk| |].
  all: try (apply all_workers_insert; [|intros j wj _ Hj; by apply Hmain]).
  all: try (intros k' wk Hpc; rewrite Hpc; simpl).
  - intros [Hx Hy]. split; [done|]. intros Hle. by specialize (Hy Hle).
  - split; [done|]. intros Hle. destruct Hmi as [_ Hmi]. by specialize (Hmi Hle).
  - intros [_ Hx]. split; [done|]. intros Hlt. by specialize (Hx Hlt).
  - split; [done|]. intros Hlt. destruct Hmi as [_ Hmi]. by specialize (Hmi Hlt).
Qed.

Lemma inv_worker_step c s i w w' g' sg ths' :
  no_overflow c -> inv c s ->
  threads s !! i = Some w ->
  worker_step i w (globals s) = Some (w', g', sg) ->
  woken (<[i := w']> (threads s)) ths' ->
  inv c (set_threads g' ths' s).
Proof.
  intros Hno [HL HW Hlen Hact Hdr Hfin Hiss Hlines Hids Hfree Hmain] Hi Hstep Hwk.
  pose proof (HL _ _ Hi) as HLi. pose proof (HW _ _ Hi) as HWi.
  assert (0 <= actual_ticket (globals s) <= next_ticket (globals s)) as Hrange by lia.
  assert (NoDup (issued (trace (globals s)))) as Hnd
    by (rewrite Hiss; apply NoDup_seqZ).
  destruct (worker_ok_worker_step c _ _ _ _ _ _ Hstep HLi HWi Hrange Hnd Hfree)
    as [HWi' HWrest].
  destruct (locks_ok_worker_step _ _ _ _ _ _ Hstep HLi) as [HLi' HLrest].
  assert (i < nthreads c)%nat as Hlt
    by (rewrite <- Hlen; by eapply lookup_lt_Some).
  pose proof (sum_list_with_insert drawn _ _ _ w' Hi) as Hsd.
  pose proof (sum_list_with_insert (final c) _ _ _ w' Hi) as Hsf.
  pose proof (sum_list_with_le_length drawn (<[i := w']> (threads s)) drawn_le_1)
    as Hbd.
  rewrite length_insert, Hlen in Hbd.
  assert (sum_list_with drawn ths' = sum_list_with drawn (<[i := w']> (threads s)))
    as Hwd by (apply sum_list_with_woken; [|done]; by intros [? ? ? ?] [= ->]).
  assert (sum_list_with (final c) ths'
          = sum_list_with (final c) (<[i := w']> (threads s)))
    as Hwf by (apply sum_list_with_woken; [|done]; by intros [? ? ? ?] [= ->]).
  pose proof (to_int_range (loop_count c)) as Hlc.
  unfold no_overflow, budget, lci, INT_MIN, INT_MAX in *.
  constructor; simpl.
  - eapply all_workers_woken; [done|apply locks_ok_wake|].
    apply all_workers_insert; [done|]. intros j wj Hne Hj. apply HLrest; auto.
  - eapply all_workers_woken; [done|apply worker_ok_wake|].
    apply all_workers_insert; [done|]. intros j wj Hne Hj. apply HWrest; auto.
  - by rewrite (woken_length _ _ Hwk), length_insert.
  - shelve.
  - shelve.
  - shelve.
  - shelve.
  - shelve.
  - shelve.
  - shelve.
  - by eapply main_ok_worker_step.
  Unshelve.
  all: clear HL HW HWrest HLrest Hmain HWi' HLi' Hwk.
  all: unfold worker_ok, locks_ok, gate_at, budget, lci in *.
  all: try rewrite Hwd; try rewrite Hwf; clear Hwd Hwf.
  all: generalize dependent (sum_list_with drawn (<[i := w']> (threads s)));
       generalize dependent (sum_list_with (final c) (<[i := w']> (threads s)));
       generalize dependent (sum_list_with drawn (threads s));
       generalize dependent (sum_list_with (final c) (threads s));
       intros F D Hdr Hfin F' Hsf D' Hsd Hbd.
  all: worker_cases w Hstep.
  all: unfold drawn, final in *; simpl in *.
  all: rewrite ?issued_snoc, ?app_nil_r, ?length_app, ?map_app, ?Forall_app in *; simpl.
  all: try done; try lia.
  all: unfold lci in *; repeat case_match; norm_tests; try lia.
  all: rewrite ?to_unsigned_id by (unfold UINT_MAX; lia).
  all: rewrite ?to_int_id by (unfold INT_MIN, INT_MAX; lia).
  all: try lia.
  all: try (intros Hn; try congruence; try specialize (Hfree Hn); use_premises;
            rewrite ?replay_snoc;
            repeat match goal with H : replay _ = _ |- _ => rewrite H end;
            simpl; rewrite ?Z.eqb_refl, ?Nat.eqb_refl; simpl;
            split; try done; try lia; repeat f_equal; lia).
  all: try (rewrite Hiss, seqZ_snoc by lia; done).
  all: try (rewrite Hlines, Nat2Z.inj_add, seqZ_snoc by lia; do 2 f_equal; lia).
  all: split; [done|]; repeat constructor; simpl; lia.
Qed.

Lemma inv_spurious c s ths' :
  inv c s -> woken (threads s) ths' ->
  inv c (set_threads (globals s) ths' s).
Proof.
  intros [HL HW Hlen Hact Hdr Hfin Hiss Hlines Hids Hfree Hmain] Hwk.
  constructor; simpl; try done.
  - eapply all_workers_woken; [done|apply locks_ok_wake|done].
  - eapply all_workers_woken; [done|apply worker_ok_wake|done].
  - by rewrite (woken_length _ _ Hwk).
  - rewrite (sum_list_with_woken drawn (threads s) ths'); try done.
    by intros [? ? ? ?] [= ->].
  - rewrite (sum_list_with_woken (final c) (threads s) ths'); try done.
    by intros [? ? ? ?] [= ->].
  - unfold main_ok in *. simpl. destruct (main_pc s).
    all: try (destruct Hmain as [Hk Hmain]; split; [done|]).
    all: eapply all_workers_woken; [exact Hwk| |exact Hmain].
    all: intros k' wk Hpc; rewrite Hpc; simpl; try done.
    + intros [Hx Hy]. split; [done|]. intros Hle. by specialize (Hy Hle).
    + intros [_ Hx]. split; [done|]. intros Hlt. by specialize (Hx Hlt).
Qed.

Lemma inv_main_step c s s' :
  inv c s -> main_step c s = Some s' -> inv c s'.
Proof.
  intros [HL HW Hlen Hact Hdr Hfin Hiss Hlines Hids Hfree Hmain] Hstep.
  unfold main_step in Hstep. unfold main_ok in Hmain.
  destruct (main_pc s) as [| |k|k| | | |] eqn:Hpc.
  all: repeat case_match; simplify_eq.
  all: try (destruct Hmain as [Hk Hmain]).
  all: try match goal with
       | H : (_ <? _) = true |- _ => apply nthreads_test in H
       | H : (_ <? _) = false |- _ =>
           apply not_true_iff_false in H; rewrite nthreads_test in H
       end.
  all: try (assert (exists wk, threads s !! k = Some wk /\ pc wk = Unborn)
              as (wk & Hwk & Hwpc)
              by (destruct (lookup_lt_is_Some_2 (threads s) k) as [wk Hwk];
                  [lia|]; exists wk; split; [done|]; by apply (Hmain _ _ Hwk))).
  all: try (pose proof (sum_list_with_insert drawn _ _ _ (spawn c k) Hwk) as Hsd;
            pose proof (sum_list_with_insert (final c) _ _ _ (spawn c k) Hwk) as Hsf;
            replace (drawn wk) with 0%nat in Hsd
              by (unfold drawn; by rewrite Hwpc);
            replace (final c wk) with 0%nat in Hsf
              by (unfold final; by rewrite Hwpc);
            change (drawn (spawn c k)) with 0%nat in Hsd;
            change (final c (spawn c k)) with 0%nat in Hsf).
  all: constructor; simpl; try done; unfold main_ok; simpl; try done.
  all: try (apply all_workers_insert; [done|]; intros j wj _ Hj; auto).
  all: try lia.
  all: try (rewrite length_insert; lia).
  all: try (split; [lia|]).
  all: intros j wj Hj.
  - split; [intros _; lia|intros _; by apply (Hmain _ _ Hj)].
  - destruct (decide (j = k)) as [->|Hne].
    + apply list_lookup_insert_Some in Hj as [(_ & <- & _)|(? & _)]; [|done].
      simpl. split; [done|lia].
    + rewrite list_lookup_insert_ne in Hj by done.
      rewrite (Hmain _ _ Hj). lia.
  - split; [|lia]. rewrite (Hmain _ _ Hj).
    apply lookup_lt_Some in Hj. lia.
  - destruct (Hmain _ _ Hj) as [Hu Hd]. split; [done|]. intros Hlt.
    destruct (decide (j = k)) as [->|Hne]; [congruence|]. apply Hd. lia.
  - apply (Hmain _ _ Hj). apply lookup_lt_Some in Hj. lia.
Qed.

Lemma inv_init c : inv c (init c).
Proof.
  constructor; simpl; try done.
  - apply locks_ok_init.
  - intros i w Hi. apply lookup_replicate in Hi as [-> _]. by split.
  - by rewrite length_replicate.
  - unfold budget. lia.
  - induction (nthreads c); simpl; [done|]. lia.
  - assert (sum_list_with (final c) (replicate (nthreads c) unborn) = 0%nat) as ->.
    { induction (nthreads c); simpl; [done|]. done. }
    unfold budget. lia.
  - intros i w Hi. by apply lookup_replicate in Hi as [-> _].
Qed.

Lemma inv_step c s s' : no_overflow c -> inv c s -> step c s s' -> inv c s'.
Proof.
  intros Hno Hinv [l Hl]. destruct l as [|i k|j].
  - by eapply inv_main_step.
  - apply exec_worker in Hl as (w & w' & g' & sg & ths' & Hi & Hw & Hwk & _ & ->).
    by eapply inv_worker_step.
  - apply exec_spurious in Hl as [Hwk ->]. by apply inv_spurious.
Qed.

Lemma inv_reachable c s : no_overflow c -> reachable c s -> inv c s.
Proof.
  intros Hno H.
  apply (rtc_ind_r (R := step c) (inv c) (init c)); [apply inv_init| |exact H].
  intros y z _ Hstep IH. by eapply inv_step.
Qed.

(** ** Mutex owners, admissions *)

Lemma woken_lookup ths ths' o w :
  woken ths ths' -> ths !! o = Some w -> pc w <> Blocked -> ths' !! o = Some w.
Proof.
  intros [->|(k & wk & Hk & Hpc & ->)] Ho Hnb; [done|].
  destruct (decide (o = k)) as [->|Hne]; [congruence|].
  by rewrite list_lookup_insert_ne.
Qed.

Lemma owners_ok_worker_step i w g w' g' sg ths ths' :
  worker_step i w g = Some (w', g', sg) ->
  ths !! i = Some w ->
  owners_ok g ths ->
  woken (<[i := w']> ths) ths' ->
  owners_ok g' ths'.
Proof.
  intros Hstep Hi [Hos Hot] Hwk.
  assert (forall o wo, o <> i -> ths !! o = Some wo -> pc wo <> Blocked ->
                       ths' !! o = Some wo) as Hother.
  { intros o wo Hne Ho Hnb. eapply woken_lookup; [done| |done].
    by rewrite list_lookup_insert_ne. }
  assert (pc w' <> Blocked -> ths' !! i = Some w') as Hself.
  { intros Hnb. eapply woken_lookup; [done| |done].
    apply list_lookup_insert_eq. by eapply lookup_lt_Some. }
  split; intros o Ho.
  - destruct (decide (o = i)) as [->|Hne].
    + exists w'. destruct w as [p ? ? ?]; simpl in *.
      destruct p; break_worker_step Hstep;
        try (split; [by apply Hself|done]);
        destruct (Hos _ Ho) as (w0 & Hw0 & Hh); simplify_eq; done.
    + assert (section_mutex g = Some o) as Ho'.
      { destruct w as [p ? ? ?]; simpl in *.
        destruct p; break_worker_step Hstep; congruence. }
      destruct (Hos _ Ho') as (wo & Hwo & Hh). exists wo. split; [|done].
      apply Hother; try done. by destruct (pc wo).
  - destruct (decide (o = i)) as [->|Hne].
    + exists w'. destruct w as [p ? ? ?]; simpl in *.
      destruct p; break_worker_step Hstep;
        try (split; [by apply Hself|done]);
        destruct (Hot _ Ho) as (w0 & Hw0 & Hh); simplify_eq; done.
    + assert (ticket_mutex g = Some o) as Ho'.
      { destruct w as [p ? ? ?]; simpl in *.
        destruct p; break_worker_step Hstep; congruence. }
      destruct (Hot _ Ho') as (wo & Hwo & Hh). exists wo. split; [|done].
      apply Hother; try done. by destruct (pc wo).
Qed.

Lemma owners_ok_woken g ths ths' :
  woken ths ths' -> owners_ok g ths -> owners_ok g ths'.
Proof.
  intros Hwk [Hos Hot]. split; intros o Ho.
  - destruct (Hos _ Ho) as (wo & Hwo & Hh). exists wo. split; [|done].
    eapply woken_lookup; try done. by destruct (pc wo).
  - destruct (Hot _ Ho) as (wo & Hwo & Hh). exists wo. split; [|done].
    eapply woken_lookup; try done. by destruct (pc wo).
Qed.

Lemma enters_issued_worker_step c i w g w' g' sg :
  worker_step i w g = Some (w', g', sg) ->
  worker_ok c g i w ->
  enters_issued (trace g) -> enters_issued (trace g').
Proof.
  intros Hstep [_ Hw] Hen.
  destruct w as [p ? ? ?]; simpl in *.
  destruct p; break_worker_step Hstep; try done.
  all: intros j t'; rewrite !elem_of_app, !list_elem_of_singleton.
  all: intros [?|?]; simplify_eq; try (left; by apply Hen).
  left. tauto.
Qed.

Lemma inv2_init c : inv2 (init c).
Proof.
  split; simpl.
  - split; intros o Ho; done.
  - intros i t Hi. by apply elem_of_nil in Hi.
Qed.

Lemma inv2_step c s s' : inv c s -> inv2 s -> step c s s' -> inv2 s'.
Proof.
  intros Hinv [Hown Hen] [l Hl]. destruct l as [|i k|j].
  - pose proof (inv_main _ _ Hinv) as Hmain.
    pose proof (main_step_shape _ _ _ Hl) as [Hg [Hth|(k & Hk & Hth)]];
      split; rewrite ?Hg, ?Hth; try done.
    unfold main_ok in Hmain. rewrite Hk in Hmain. destruct Hmain as [_ Hmain].
    destruct Hown as [Hos Hot].
    split; intros o Ho.
    + destruct (Hos _ Ho) as (wo & Hwo & Hh). exists wo. split; [|done].
      rewrite list_lookup_insert_ne; [done|]. intros <-.
      assert (pc wo = Unborn) as Hu by (apply (Hmain _ _ Hwo); lia).
      by rewrite Hu in Hh.
    + destruct (Hot _ Ho) as (wo & Hwo & Hh). exists wo. split; [|done].
      rewrite list_lookup_insert_ne; [done|]. intros <-.
      assert (pc wo = Unborn) as Hu by (apply (Hmain _ _ Hwo); lia).
      by rewrite Hu in Hh.
  - apply exec_worker in Hl as (w & w' & g' & sg & ths' & Hi & Hw & Hwk & _ & ->).
    split; simpl.
    + by eapply owners_ok_worker_step.
    + eapply enters_issued_worker_step; [done| |done].
      by apply (inv_workers _ _ Hinv).
  - apply exec_spurious in Hl as [Hwk ->]. split; simpl; [|done].
    by eapply owners_ok_woken.
Qed.

Lemma inv2_reachable c s :
  no_overflow c -> reachable c s -> inv c s /\ inv2 s.
Proof.
  intros Hno H.
  apply (rtc_ind_r (R := step c) (fun s => inv c s /\ inv2 s) (init c));
    [split; [apply inv_init|apply inv2_init]| |exact H].
  intros y z _ Hstep [IH1 IH2]. split; [by eapply inv_step|by eapply inv2_step].
Qed.

(** ** What a trace accepted by the replay looks like *)

Lemma entered_snoc tr e :
  entered (tr ++ [e]) =
  entered tr ++ match e with Enter _ t => [t] | _ => [] end.
Proof. unfold entered. rewrite omap_app. by destruct e. Qed.

Lemma replay_app_None l1 l2 : replay l1 = None -> replay (l1 ++ l2) = None.
Proof.
  unfold replay. rewrite foldl_app. intros ->.
  induction l2 as [|e l2 IH]; simpl; done.
Qed.

Lemma replay_prefix l1 l2 st :
  replay (l1 ++ l2) = Some st -> exists st1, replay l1 = Some st1.
Proof.
  intros H. destruct (replay l1) as [st1|] eqn:H1; [by exists st1|].
  by rewrite (replay_app_None _ l2 H1) in H.
Qed.

Lemma replay_shape tr k ins :
  replay tr = Some (k, ins) ->
  0 <= k /\
  entered tr = seqZ 0 (k + if ins is Some _ then 1 else 0) /\
  (forall i, ins = Some i -> exists p1 p2, tr = p1 ++ Enter i k :: p2) /\
  (forall a, 0 <= a < k ->
     exists i p1 p2 p3, tr = p1 ++ Enter i a :: p2 ++ Leave i a :: p3).
Proof.
  revert k ins. induction tr as [|e tr IH] using rev_ind; intros k ins H.
  - unfold replay in H. simpl in H. simplify_eq. split_and!; try done.
    intros a Ha. lia.
  - rewrite replay_snoc in H.
    destruct (replay tr) as [[k0 ins0]|] eqn:Hr; simpl in H; [|done].
    destruct (IH _ _ eq_refl) as (Hk0 & Hadm & Hins & Hpast).
    rewrite entered_snoc.
    destruct e as [j t|j t|j t]; simpl in H.
    + simplify_eq. split_and!; try done.
      * by rewrite app_nil_r.
      * intros i Hi. destruct (Hins _ Hi) as (p1 & p2 & ->).
        exists p1, (p2 ++ [Issue j t]). by rewrite <- app_assoc.
      * intros a Ha. destruct (Hpast _ Ha) as (i & p1 & p2 & p3 & ->).
        exists i, p1, p2, (p3 ++ [Issue j t]).
        by rewrite <- !app_assoc, <- !app_comm_cons, <- app_assoc.
    + destruct ins0; [done|]. case_match; [|done]. norm_tests. simplify_eq.
      split_and!; try done.
      * rewrite Hadm, Z.add_0_r. by rewrite seqZ_snoc.
      * intros i [= ->]. by exists tr, [].
      * intros a Ha. destruct (Hpast _ Ha) as (i & p1 & p2 & p3 & ->).
        exists i, p1, p2, (p3 ++ [Enter j k]).
        by rewrite <- !app_assoc, <- !app_comm_cons, <- app_assoc.
    + destruct ins0 as [j0|]; [|done]. case_match; [|done].
      apply andb_true_iff in H0 as [Ht Hj]. norm_tests.
      apply Nat.eqb_eq in Hj. simplify_eq.
      split_and!; try done; try lia.
      * rewrite Hadm, app_nil_r. f_equal. lia.
      * intros a Ha. destruct (decide (a = k0)) as [->|Hne].
        -- destruct (Hins _ eq_refl) as (p1 & p2 & ->).
           exists j0, p1, p2, []. by rewrite <- !app_assoc.
        -- destruct (Hpast a) as (i & p1 & p2 & p3 & ->); [lia|].
           exists i, p1, p2, (p3 ++ [Leave j0 k0]).
           by rewrite <- !app_assoc, <- !app_comm_cons, <- app_assoc.
Qed.

Lemma replay_enter pre post j b st :
  replay (pre ++ Enter j b :: post) = Some st -> replay pre = Some (b, None).
Proof.
  intros H.
  change (pre ++ Enter j b :: post) with (pre ++ [Enter j b] ++ post) in H.
  rewrite app_assoc in H.
  apply replay_prefix in H as [st1 H]. rewrite replay_snoc in H.
  destruct (replay pre) as [[k ins]|]; simpl in H; [|done].
  destruct ins; [done|]. case_match; [|done]. norm_tests. by simplify_eq.
Qed.

(** The replay of the trace succeeds in every state satisfying the
    invariant; its result is given by the state. *)
Lemma gate_state c s :
  inv c s -> inv2 s ->
  exists k ins,
    replay (trace (globals s)) = Some (k, ins) /\
    k <= actual_ticket (globals s) <= k + 1 /\
    (ins = None -> k = actual_ticket (globals s)) /\
    (k + 1 = actual_ticket (globals s) -> ins <> None) /\
    (section_mutex (globals s) = None -> ins = None).
Proof.
  intros Hinv [[Hos _] _].
  destruct (section_mutex (globals s)) as [o|] eqn:Hsm.
  - destruct (Hos _ eq_refl) as (w & Hw & Hh).
    pose proof (inv_workers _ _ Hinv _ _ Hw) as [_ Hok].
    unfold gate_at in Hok.
    destruct (pc w); try done; use_premises; do 2 eexists;
      (split; [eassumption|]); split_and!; try done; lia.
  - destruct (inv_free _ _ Hinv Hsm) as [_ Hr].
    do 2 eexists. split; [exact Hr|]. split_and!; try done; lia.
Qed.


Lemma in_range_no_overflow c :
  in_range c ->
  no_overflow c /\ lci c = loop_count c /\ budget c = loop_count c /\
  Z.of_nat (nthreads c) = thread_count c.
Proof.
  unfold in_range, no_overflow, budget, lci, nthreads, INT_MAX.
  intros (Ht & Hl & Hs).
  rewrite to_int_id by (unfold INT_MIN, INT_MAX; lia). lia.
Qed.

(** ** Admission order (C2) *)

(** C2: for two tickets [a < b] taken from the counter, [a] by thread [i]:
    whenever the trace of a reachable state lets ticket [b] in, thread [i]
    has before that both entered the critical section with [a] and left
    it.  The trace records the return of [await] as [Enter] and the return
    of [advance] as [Leave], under every interleaving. *)
Theorem admission_in_ticket_order c s pre post i j a b :
  no_overflow c -> reachable c s ->
  trace (globals s) = pre ++ Enter j b :: post ->
  Issue i a ∈ trace (globals s) -> a < b ->
  exists p1 p2 p3, pre = p1 ++ Enter i a :: p2 ++ Leave i a :: p3.
Proof.
  intros Hno Hr Htr Hia Hab.
  destruct (inv2_reachable c s Hno Hr) as [Hinv Hinv2].
  destruct (gate_state c s Hinv Hinv2) as (k & ins & Hrep & _).
  rewrite Htr in Hrep. apply replay_enter in Hrep.
  destruct (replay_shape _ _ _ Hrep) as (_ & _ & _ & Hpast).
  assert (0 <= a) as Ha0.
  { apply issued_elem in Hia. rewrite (inv_issued _ _ Hinv) in Hia.
    apply elem_of_seqZ in Hia. lia. }
  destruct (Hpast a) as (i' & p1 & p2 & p3 & Hpre); [lia|].
  assert (i' = i) as ->.
  { assert (Enter i' a ∈ trace (globals s)) as Hen.
    { rewrite Htr, Hpre. rewrite !elem_of_app, !elem_of_cons. auto. }
    apply (inv_enters _ Hinv2) in Hen.
    eapply issued_unique; [|exact Hen|exact Hia].
    rewrite (inv_issued _ _ Hinv). apply NoDup_seqZ. }
  by exists p1, p2, p3.
Qed.

(** ** The ticket counter (C5) *)


(** ** The turn counter (C6) *)

Lemma actual_step c s l s' :
  inv c s -> exec c l s = Some s' ->
  actual_ticket (globals s') = actual_ticket (globals s) \/
  exists i k w, l = LWorker i k /\ threads s !! i = Some w /\ pc w = AdvIncr /\
                actual_ticket (globals s') = actual_ticket (globals s) + 1.
Proof.
  intros Hinv Hex. destruct l as [|i k|j].
  - apply main_step_shape in Hex as [-> _]. by left.
  - apply exec_worker in Hex as (w & w' & g' & sg & ths' & Hi & Hst & _ & _ & ->).
    simpl. pose proof (inv_workers _ _ Hinv _ _ Hi) as [_ Hw].
    pose proof (inv_actual _ _ Hinv) as Hact.
    destruct (decide (pc w = AdvIncr)) as [Hpc|Hpc].
    + right. exists i, k, w. split_and!; try done.
      unfold worker_step in Hst. rewrite Hpc in Hst, Hw. simplify_eq. simpl.
      apply (actual_incr c); lia.
    + left. destruct w as [p ? ? ?]; simpl in *.
      destruct p; break_worker_step Hst; done.
  - apply exec_spurious in Hex as [_ ->]. by left.
Qed.

Lemma completed_snoc tr e :
  completed (tr ++ [e]) =
  completed tr ++ match e with Leave _ t => [t] | _ => [] end.
Proof. unfold completed. rewrite omap_app. by destruct e. Qed.

Lemma replay_completed tr k ins :
  replay tr = Some (k, ins) -> 0 <= k /\ completed tr = seqZ 0 k.
Proof.
  revert k ins. induction tr as [|e tr IH] using rev_ind; intros k ins H.
  - unfold replay in H. simpl in H. by simplify_eq.
  - rewrite replay_snoc in H.
    destruct (replay tr) as [[k0 ins0]|] eqn:Hr; simpl in H; [|done].
    destruct (IH _ _ eq_refl) as (Hk0 & Hc).
    rewrite completed_snoc.
    destruct e as [j t|j t|j t]; simpl in H.
    + simplify_eq. by rewrite app_nil_r.
    + destruct ins0; [done|]. case_match; [|done]. simplify_eq.
      by rewrite app_nil_r.
    + destruct ins0 as [j0|]; [|done]. case_match; [|done].
      apply andb_true_iff in H0 as [Ht Hj]. norm_tests. simplify_eq.
      split; [lia|]. rewrite Hc. by rewrite seqZ_snoc.
Qed.

Lemma completed_count tr k ins :
  replay tr = Some (k, ins) -> Z.of_nat (length (completed tr)) = k.
Proof.
  intros H. apply replay_completed in H as [Hk ->]. rewrite length_seqZ. lia.
Qed.

(** The increment in [advance]: the statement can always run, adds
    exactly one to [actual_ticket] and leaves the thread at the signal. *)
Lemma advance_increments c s i w :
  inv c s -> threads s !! i = Some w -> pc w = AdvIncr ->
  (exists s', exec c (LWorker i 0) s = Some s') /\
  forall k s', exec c (LWorker i k) s = Some s' ->
    actual_ticket (globals s') = actual_ticket (globals s) + 1 /\
    exists w', threads s' !! i = Some w' /\ pc w' = AdvSignal.
Proof.
  intros Hinv Hi Hpc.
  assert (worker_step i w (globals s) =
            Some (at_pc AdvSignal w,
                  set_actual_ticket (to_int (actual_ticket (globals s) + 1))
                    (globals s), false)) as Hst
    by (unfold worker_step; by rewrite Hpc).
  assert (forall k, exec c (LWorker i k) s =
            Some (set_threads
                    (set_actual_ticket (to_int (actual_ticket (globals s) + 1))
                       (globals s))
                    (<[i := at_pc AdvSignal w]> (threads s)) s)) as Hex0
    by (intros k; unfold exec; by rewrite Hi, Hst).
  split; [eexists; apply Hex0|]. intros k s' Hex.
  rewrite Hex0 in Hex. injection Hex as <-. simpl.
  pose proof (inv_workers _ _ Hinv _ _ Hi) as [_ Hw]. rewrite Hpc in Hw.
  pose proof (inv_actual _ _ Hinv) as Hact.
  split; [apply (actual_incr c); lia|].
  eexists. split; [apply list_lookup_insert_eq; by eapply lookup_lt_Some|done].
Qed.

(** [actual_ticket] counts the completed critical sections: it is their
    number, plus one while a thread is between the increment and the
    unlock of [advance]. *)
Lemma actual_counts c s :
  inv c s -> inv2 s ->
  (forall i w, threads s !! i = Some w ->
     pc w = AdvSignal \/ pc w = AdvUnlock ->
     Z.of_nat (length (completed (trace (globals s)))) + 1 =
       actual_ticket (globals s)) /\
  ((forall i w, threads s !! i = Some w ->
      pc w <> AdvSignal /\ pc w <> AdvUnlock) ->
   Z.of_nat (length (completed (trace (globals s)))) =
     actual_ticket (globals s)).
Proof.
  intros Hinv Hinv2. split.
  - intros i w Hi Hpc.
    pose proof (inv_workers _ _ Hinv _ _ Hi) as [_ Hw].
    destruct Hpc as [Hpc|Hpc]; rewrite Hpc in Hw;
      destruct Hw as (Ht & _ & _ & Hrep);
      rewrite (completed_count _ _ _ Hrep); lia.
  - intros Hnone.
    destruct (gate_state c s Hinv Hinv2) as (k & ins & Hrep & Hk & Hn & _ & Hfree).
    rewrite (completed_count _ _ _ Hrep).
    destruct (section_mutex (globals s)) as [o|] eqn:Ho; [|by apply Hn, Hfree].
    destruct (inv_owners _ Hinv2) as [Hos _].
    destruct (Hos _ Ho) as (w & Hw & Hh).
    pose proof (inv_workers _ _ Hinv _ _ Hw) as [_ Hok].
    destruct (Hnone _ _ Hw) as [H1 H2].
    unfold gate_at in Hok.
    destruct (pc w); try done.
    all: repeat match goal with H : _ /\ _ |- _ => destruct H end.
    all: congruence.
Qed.

(** C6: in a reachable state, a step changes [actual_ticket] only if it
    is the increment in [advance] of a thread that is inside the critical
    section, and then by exactly one; the value never decreases along a
    run; it is at most every ticket that was taken from the counter and
    not yet let in; the increment in [advance] can always run and every
    execution of it adds exactly one; and [actual_ticket] is the number
    of critical sections completed so far, plus one exactly while a
    thread is between the increment and the unlock of its [advance]. *)
Theorem current_turn_discipline c s :
  no_overflow c -> reachable c s ->
  (forall l s', exec c l s = Some s' ->
     actual_ticket (globals s') = actual_ticket (globals s) \/
     exists i k w, l = LWorker i k /\ threads s !! i = Some w /\
                   pc w = AdvIncr /\ in_section (pc w) = true /\
                   actual_ticket (globals s') = actual_ticket (globals s) + 1) /\
  (forall s', rtc (step c) s s' ->
     actual_ticket (globals s) <= actual_ticket (globals s')) /\
  (forall t, t ∈ issued (trace (globals s)) ->
             t ∉ entered (trace (globals s)) ->
             actual_ticket (globals s) <= t) /\
  (forall i w, threads s !! i = Some w -> pc w = AdvIncr ->
     (exists s', exec c (LWorker i 0) s = Some s') /\
     forall k s', exec c (LWorker i k) s = Some s' ->
       actual_ticket (globals s') = actual_ticket (globals s) + 1 /\
       exists w', threads s' !! i = Some w' /\ pc w' = AdvSignal) /\
  (forall i w, threads s !! i = Some w ->
     pc w = AdvSignal \/ pc w = AdvUnlock ->
     Z.of_nat (length (completed (trace (globals s)))) + 1 =
       actual_ticket (globals s)) /\
  ((forall i w, threads s !! i = Some w ->
      pc w <> AdvSignal /\ pc w <> AdvUnlock) ->
   Z.of_nat (length (completed (trace (globals s)))) =
     actual_ticket (globals s)).
Proof.
  intros Hno Hr.
  destruct (inv2_reachable c s Hno Hr) as [Hinv Hinv2].
  split_and!.
  - intros l s' Hex.
    destruct (actual_step _ _ _ _ Hinv Hex) as [?|(i & k & w & ? & ? & Hpc & ?)];
      [by left|right].
    exists i, k, w. split_and!; try done. by rewrite Hpc.
  - intros s' Hrtc. induction Hrtc as [s|s s1 s' [l Hl] Hrtc IH]; [done|].
    assert (reachable c s1) as Hr1 by (eapply rtc_r; [exact Hr|by eexists]).
    destruct (inv2_reachable c s1 Hno Hr1) as [Hinv1 Hinv21].
    specialize (IH Hr1 Hinv1 Hinv21).
    destruct (actual_step _ _ _ _ Hinv Hl) as [?|(? & ? & ? & _ & _ & _ & ?)]; lia.
  - intros t Hiss Hadm.
    destruct (gate_state c s Hinv Hinv2) as (k & ins & Hrep & Hk & Hnone & Hsome & _).
    destruct (replay_shape _ _ _ Hrep) as (Hk0 & Hseq & _).
    rewrite (inv_issued _ _ Hinv) in Hiss. apply elem_of_seqZ in Hiss.
    destruct (decide (actual_ticket (globals s) <= t)) as [|Hlt]; [done|].
    destruct Hadm. rewrite Hseq. apply elem_of_seqZ.
    destruct ins; [lia|]. specialize (Hnone eq_refl). lia.
  - intros i w Hi Hpc. exact (advance_increments c s i w Hinv Hi Hpc).
  - exact (proj1 (actual_counts c s Hinv Hinv2)).
  - exact (proj2 (actual_counts c s Hinv Hinv2)).
Qed.

(** ** Complete runs *)

Lemma all_done_sum (f : worker -> nat) ths :
  all_workers (fun _ w => pc w = Done) ths ->
  (forall w, pc w = Done -> f w = 1%nat) ->
  sum_list_with f ths = length ths.
Proof.
  intros Hall Hf. apply sum_list_with_all. intros w Hw.
  apply list_elem_of_lookup in Hw as [i Hi]. apply Hf. by apply (Hall _ _ Hi).
Qed.

Lemma finished_all_done c s :
  inv c s -> finished s -> all_workers (fun _ w => pc w = Done) (threads s).
Proof.
  intros Hinv Hfin. pose proof (inv_main _ _ Hinv) as Hmain.
  unfold main_ok, finished in *. by rewrite Hfin in Hmain.
Qed.

Lemma all_done_counts c s :
  inv c s -> inv2 s -> (0 < nthreads c)%nat ->
  all_workers (fun _ w => pc w = Done) (threads s) ->
  next_ticket (globals s) = budget c + Z.of_nat (nthreads c) /\
  actual_ticket (globals s) = budget c /\
  section_mutex (globals s) = None /\
  Z.of_nat (length (stdout (globals s))) = budget c /\
  entered (trace (globals s)) = seqZ 0 (budget c).
Proof.
  intros Hinv Hinv2 Htc Hall.
  pose proof (inv_drawn _ _ Hinv) as Hdr.
  pose proof (inv_final _ _ Hinv) as Hfi.
  pose proof (inv_actual _ _ Hinv) as Hact.
  rewrite (all_done_sum drawn), (inv_length _ _ Hinv) in Hdr;
    [|done|by unfold drawn; intros w ->].
  rewrite (all_done_sum (final c)), (inv_length _ _ Hinv) in Hfi;
    [|done|by unfold final; intros w ->].
  assert (section_mutex (globals s) = None) as Hsm.
  { destruct (section_mutex (globals s)) as [o|] eqn:Ho; [|done].
    destruct (inv_owners _ Hinv2) as [Hos _].
    destruct (Hos _ Ho) as (w & Hw & Hh).
    by rewrite (Hall _ _ Hw) in Hh. }
  destruct (inv_free _ _ Hinv Hsm) as [Hlen Hrep].
  destruct (replay_shape _ _ _ Hrep) as (_ & Hadm & _).
  assert (actual_ticket (globals s) = budget c) as Ha by lia.
  rewrite Z.add_0_r in Hadm. rewrite <- Ha.
  split_and!; try done; lia.
Qed.

Lemma lines_bound c s :
  inv c s -> inv2 s -> Z.of_nat (length (stdout (globals s))) <= budget c.
Proof.
  intros Hinv Hinv2. pose proof (inv_actual _ _ Hinv) as Hact.
  destruct (section_mutex (globals s)) as [o|] eqn:Ho.
  - destruct (inv_owners _ Hinv2) as [Hos _].
    destruct (Hos _ Ho) as (w & Hw & Hh).
    pose proof (inv_workers _ _ Hinv _ _ Hw) as [_ Hok].
    unfold gate_at, budget in *.
    destruct (pc w); try done; use_premises; lia.
  - destruct (inv_free _ _ Hinv Ho) as [Hlen _]. lia.
Qed.

(** ** Coverage of the tickets and relay of the wake-ups *)

Lemma next_incr c s i w :
  no_overflow c -> inv c s ->
  threads s !! i = Some w -> drawn w = 0%nat ->
  0 <= next_ticket (globals s) < budget c + Z.of_nat (nthreads c) /\
  to_int (next_ticket (globals s) + 1) = next_ticket (globals s) + 1.
Proof.
  intros Hno Hinv Hi Hd.
  pose proof (inv_drawn _ _ Hinv) as Hdr.
  pose proof (inv_actual _ _ Hinv) as Hact.
  pose proof (sum_list_with_insert drawn _ _ _ (at_pc Done w) Hi) as Hsd.
  pose proof (sum_list_with_le_length drawn (<[i := at_pc Done w]> (threads s))
                drawn_le_1) as Hbd.
  rewrite length_insert, (inv_length _ _ Hinv) in Hbd.
  rewrite Hd in Hsd. change (drawn (at_pc Done w)) with 1%nat in Hsd.
  unfold no_overflow in Hno.
  split; [lia|]. apply to_int_id. unfold INT_MIN, INT_MAX in *. lia.
Qed.

Lemma worker_step_holds c s i w w' g' sg :
  no_overflow c -> inv c s ->
  threads s !! i = Some w ->
  worker_step i w (globals s) = Some (w', g', sg) ->
  (pc w = GetIncr /\ next_ticket g' = next_ticket (globals s) + 1 /\
   actual_ticket g' = actual_ticket (globals s) /\
   holds w = None /\ holds w' = Some (next_ticket (globals s))) \/
  (pc w = AdvIncr /\ next_ticket g' = next_ticket (globals s) /\
   actual_ticket g' = actual_ticket (globals s) + 1 /\
   holds w = Some (actual_ticket (globals s)) /\ holds w' = None) \/
  (pc w = LoopTest /\ pc w' = Done /\ g' = globals s /\
   lci c <= res w /\ holds w = Some (res w) /\ holds w' = None) \/
  (pc w <> GetIncr /\ pc w <> AdvIncr /\
   next_ticket g' = next_ticket (globals s) /\
   actual_ticket g' = actual_ticket (globals s) /\ holds w' = holds w).
Proof.
  intros Hno Hinv Hi Hstep.
  pose proof (inv_workers _ _ Hinv _ _ Hi) as [Hpar Hw].
  pose proof (inv_actual _ _ Hinv) as Hact.
  destruct (decide (pc w = GetIncr)) as [Hpc|Hn1].
  { left. rewrite Hpc in Hw.
    destruct (next_incr c s i w Hno Hinv Hi) as [_ Hto];
      [by unfold drawn; rewrite Hpc|].
    unfold worker_step in Hstep. rewrite Hpc in Hstep. simplify_eq. simpl.
    unfold holds. rewrite Hpc. simpl. by rewrite Hto, Hw. }
  destruct (decide (pc w = AdvIncr)) as [Hpc|Hn2].
  { right; left. rewrite Hpc in Hw. destruct Hw as (_ & Ht & Hlt & _).
    unfold worker_step in Hstep. rewrite Hpc in Hstep. simplify_eq. simpl.
    unfold holds. rewrite Hpc. simpl.
    rewrite (actual_incr c) by lia. by rewrite Ht. }
  destruct w as [p par t r]; simpl in *.
  destruct p; break_worker_step Hstep; norm_tests; use_premises;
    subst; simpl in *; fold (lci c) in *; try done;
    try (right; right; right; by split_and!).
  right; right; left. by split_and!.
Qed.

Lemma holds_wake w : pc w = Blocked -> holds (at_pc AwReacq w) = holds w.
Proof. destruct w as [p ? ? ?]; simpl. by intros ->. Qed.

Lemma woken_holds ths ths' j wj :
  woken ths ths' -> ths !! j = Some wj ->
  exists wj', ths' !! j = Some wj' /\ holds wj' = holds wj /\
              (pc wj <> Blocked -> wj' = wj).
Proof.
  intros [->|(k & wk & Hk & Hpc & ->)] Hj; [by exists wj|].
  destruct (decide (j = k)) as [->|Hne].
  - rewrite Hj in Hk. injection Hk as <-.
    exists (at_pc AwReacq wj). split_and!.
    + apply list_lookup_insert_eq. by eapply lookup_lt_Some.
    + by apply holds_wake.
    + done.
  - exists wj. by rewrite list_lookup_insert_ne.
Qed.

Lemma covered_worker_step c s i w w' g' sg ths' :
  no_overflow c -> inv c s ->
  threads s !! i = Some w ->
  worker_step i w (globals s) = Some (w', g', sg) ->
  woken (<[i := w']> (threads s)) ths' ->
  covered c (globals s) (threads s) -> covered c g' ths'.
Proof.
  intros Hno Hinv Hi Hstep Hwk Hcov t Ht Hlt.
  assert (forall j wj, j <> i -> threads s !! j = Some wj -> holds wj = Some t ->
            exists i0 w0, ths' !! i0 = Some w0 /\ holds w0 = Some t) as Hother.
  { intros j wj Hne Hj Hh.
    destruct (woken_holds _ _ j wj Hwk) as (wj' & Hj' & Hh' & _).
    - by rewrite list_lookup_insert_ne.
    - exists j, wj'. by rewrite Hh'. }
  assert (holds w' = Some t -> exists i0 w0, ths' !! i0 = Some w0 /\ holds w0 = Some t)
    as Hself.
  { intros Hh. destruct (woken_holds _ _ i w' Hwk) as (wi' & Hi' & Hh' & _).
    - apply list_lookup_insert_eq. by eapply lookup_lt_Some.
    - exists i, wi'. by rewrite Hh'. }
  assert (forall t0, actual_ticket (globals s) <= t0 < next_ticket (globals s) ->
            t0 = t -> (holds w = Some t -> holds w' = Some t) ->
            exists i0 w0, ths' !! i0 = Some w0 /\ holds w0 = Some t) as Hold.
  { intros t0 Hr -> Hkeep. destruct (Hcov t) as (j & wj & Hj & Hh); [done..|].
    destruct (decide (j = i)) as [->|Hne]; [|by eapply Hother].
    simplify_eq. by apply Hself, Hkeep. }
  destruct (worker_step_holds c s i w w' g' sg Hno Hinv Hi Hstep)
    as [(Hpc & Hn & Ha & Hh & Hh')|[(Hpc & Hn & Ha & Hh & Hh')|
        [(Hpc & Hpc' & -> & Hres & Hh & Hh')|(_ & _ & Hn & Ha & Hh)]]].
  - destruct (decide (t = next_ticket (globals s))) as [->|Hne]; [by apply Hself|].
    apply (Hold t); [lia|done|congruence].
  - apply (Hold t); [lia|done|]. rewrite Hh. intros [= <-]. lia.
  - apply (Hold t); [lia|done|]. rewrite Hh. intros [= <-]. lia.
  - apply (Hold t); [lia|done|]. by rewrite Hh.
Qed.

Lemma existsb_blocked ths r wr :
  ths !! r = Some wr -> pc wr = Blocked -> existsb is_blocked ths = true.
Proof.
  intros Hr Hpc. apply existsb_exists. exists wr. split.
  - apply list_elem_of_In, list_elem_of_lookup. by exists r.
  - unfold is_blocked. by apply bool_decide_eq_true.
Qed.

Lemma cond_signal_relay k ths ths' r wr :
  cond_signal k ths = Some ths' ->
  ths' !! r = Some wr -> pc wr = Blocked ->
  exists x wx, ths' !! x = Some wx /\ pc wx = AwReacq.
Proof.
  unfold cond_signal. intros H Hr Hpc.
  destruct (ths !! k) as [wk|] eqn:Hk.
  - destruct (is_blocked wk) eqn:Hb.
    + injection H as <-. exists k, (at_pc AwReacq wk). split; [|done].
      apply list_lookup_insert_eq. by eapply lookup_lt_Some.
    + destruct (existsb is_blocked ths) eqn:He; [done|]. injection H as <-.
      by rewrite (existsb_blocked _ _ _ Hr Hpc) in He.
  - destruct (existsb is_blocked ths) eqn:He; [done|]. injection H as <-.
    by rewrite (existsb_blocked _ _ _ Hr Hpc) in He.
Qed.

Lemma relay_worker_step c s i k w w' g' sg ths' :
  no_overflow c -> inv c s ->
  threads s !! i = Some w ->
  worker_step i w (globals s) = Some (w', g', sg) ->
  (if sg then cond_signal k (<[i := w']> (threads s)) = Some ths'
   else ths' = <[i := w']> (threads s)) ->
  relay_ok (globals s) (threads s) -> relay_ok g' ths'.
Proof.
  intros Hno Hinv Hi Hstep Hsg Hrel r wr Hr Hpc Ht.
  assert (i < length (threads s))%nat as Hlen by (by eapply lookup_lt_Some).
  destruct sg.
  { destruct (cond_signal_relay _ _ _ _ _ Hsg Hr Hpc) as (x & wx & Hx & Hpx).
    exists x, wx. by rewrite Hpx. }
  subst ths'.
  destruct (worker_step_holds c s i w w' g' false Hno Hinv Hi Hstep)
    as [(Hpw & Hn & Ha & Hh & Hh')|[(Hpw & Hn & Ha & Hh & Hh')|
        [(Hpw & Hpw' & -> & Hres & Hh & Hh')|(Hn1 & Hn2 & Hn & Ha & Hh)]]].
  2:{ exists i, w'. split; [by apply list_lookup_insert_eq|].
      unfold worker_step in Hstep. rewrite Hpw in Hstep. by simplify_eq. }
  all: pose proof (inv_workers _ _ Hinv _ _ Hi) as [_ Hw].
  all: assert (r <> i) as Hne
    by (intros ->; rewrite list_lookup_insert_eq in Hr by done; simplify_eq;
        destruct w as [p ? ? ?]; simpl in *;
        destruct p; break_worker_step Hstep; simpl in *; try done; lia).
  all: rewrite list_lookup_insert_ne in Hr by done.
  all: destruct (Hrel r wr Hr Hpc) as (x & wx & Hx & Hrx); [congruence|].
  all: destruct (decide (x = i)) as [->|Hxi];
    [|exists x, wx; by rewrite list_lookup_insert_ne].
  all: exists i, w'; split; [by apply list_lookup_insert_eq|].
  all: rewrite Hi in Hx; injection Hx as <-.
  all: pose proof (inv_workers _ _ Hinv _ _ Hr) as [_ Hwr]; rewrite Hpc in Hwr.
  all: assert (NoDup (issued (trace (globals s)))) as Hnd
    by (rewrite (inv_issued _ _ Hinv); apply NoDup_seqZ).
  all: destruct w as [p ? ? ?]; simpl in *.
  all: destruct p; break_worker_step Hstep; norm_tests; simpl in *; try done.
  all: use_premises; destruct Hne.
  all: eapply issued_unique; [exact Hnd| |eassumption]; congruence.
Qed.

Lemma inv3_init c : inv3 c (init c).
Proof.
  split; simpl.
  - intros t Ht. simpl in Ht. lia.
  - intros r w Hr Hpc. apply lookup_replicate in Hr as [-> _]. done.
Qed.

Lemma woken_blocked_inv ths ths' r wr :
  woken ths ths' -> ths' !! r = Some wr -> pc wr = Blocked -> ths !! r = Some wr.
Proof.
  intros [->|(k & wk & Hk & Hpc & ->)] Hr Hb; [done|].
  destruct (decide (r = k)) as [->|Hne].
  - rewrite list_lookup_insert_eq in Hr by (by eapply lookup_lt_Some).
    by simplify_eq.
  - by rewrite list_lookup_insert_ne in Hr.
Qed.

Lemma inv3_step c s s' :
  no_overflow c -> inv c s -> inv3 c s -> step c s s' -> inv3 c s'.
Proof.
  intros Hno Hinv [Hcov Hrel] [l Hl]. destruct l as [|i k|j].
  - pose proof (inv_main _ _ Hinv) as Hmain.
    pose proof (main_step_shape _ _ _ Hl) as [Hg [Hth|(k & Hk & Hth)]];
      split; rewrite ?Hg, ?Hth; try done.
    all: unfold main_ok in Hmain; rewrite Hk in Hmain; destruct Hmain as [_ Hmain].
    + intros t Ht Hlt. destruct (Hcov t Ht Hlt) as (j & wj & Hj & Hh).
      exists j, wj. split; [|done]. rewrite list_lookup_insert_ne; [done|].
      intros <-. assert (pc wj = Unborn) as Hu by (apply (Hmain _ _ Hj); lia).
      unfold holds in Hh. by rewrite Hu in Hh.
    + intros r wr Hr Hpc Ht.
      assert (r <> k) as Hne.
      { intros ->. apply list_lookup_insert_Some in Hr as [(_ & <- & _)|(? & _)]; done. }
      rewrite list_lookup_insert_ne in Hr by done.
      destruct (Hrel r wr Hr Hpc Ht) as (x & wx & Hx & Hrx).
      exists x, wx. split; [|done]. rewrite list_lookup_insert_ne; [done|].
      intros <-. assert (pc wx = Unborn) as Hu by (apply (Hmain _ _ Hx); lia).
      by rewrite Hu in Hrx.
  - apply exec_worker in Hl as (w & w' & g' & sg & ths' & Hi & Hw & Hwk & Hsg & ->).
    split; simpl.
    + by eapply covered_worker_step.
    + by eapply relay_worker_step.
  - apply exec_spurious in Hl as [Hwk ->]. split; simpl.
    + intros t Ht Hlt. destruct (Hcov t Ht Hlt) as (i & wi & Hi & Hh).
      destruct (woken_holds _ _ i wi Hwk Hi) as (wi' & Hi' & Hh' & _).
      exists i, wi'. by rewrite Hh'.
    + intros r wr Hr Hpc Ht.
      pose proof (woken_blocked_inv _ _ _ _ Hwk Hr Hpc) as Hr0.
      destruct (Hrel r wr Hr0 Hpc Ht) as (x & wx & Hx & Hrx).
      destruct (woken_holds _ _ x wx Hwk Hx) as (wx' & Hx' & _ & Hsame).
      exists x, wx'. split; [done|]. rewrite Hsame; [done|]. by destruct (pc wx).
Qed.

Lemma good_step c s s' : no_overflow c -> good c s -> step c s s' -> good c s'.
Proof.
  intros Hno (H1 & H2 & H3) Hstep. split_and!.
  - by eapply inv_step.
  - by eapply inv2_step.
  - by eapply inv3_step.
Qed.

Lemma good_reachable c s : no_overflow c -> reachable c s -> good c s.
Proof.
  intros Hno H.
  apply (rtc_ind_r (R := step c) (good c) (init c)); [| |exact H].
  - split_and!; [apply inv_init|apply inv2_init|apply inv3_init].
  - intros y z _ Hstep IH. by eapply good_step.
Qed.

Lemma step_ns_step c s s' : step_ns c s s' -> step c s s'.
Proof. intros (l & _ & Hl). by exists l. Qed.

(** ** Progress: some step decreases the measure *)

Lemma find_worker (P : worker -> Prop) `{!forall w, Decision (P w)} (ths : list worker) :
  (exists k wk, ths !! k = Some wk /\ P wk) \/
  (forall k wk, ths !! k = Some wk -> ~ P wk).
Proof.
  destruct (list_find P ths) as [[k wk]|] eqn:Hf.
  - apply list_find_Some in Hf as (Hk & HP & _). left. by exists k, wk.
  - apply list_find_None in Hf. right. intros k wk Hk.
    by apply (Forall_lookup_1 _ _ _ _ Hf Hk).
Qed.

Lemma sum_list_with_pos (f : worker -> nat) ths :
  (0 < sum_list_with f ths)%nat ->
  exists k wk, ths !! k = Some wk /\ (0 < f wk)%nat.
Proof.
  induction ths as [|x ths IH]; simpl; [lia|]. intros H.
  destruct (decide (0 < f x)%nat) as [Hx|Hx].
  - by exists O, x.
  - destruct IH as (k & wk & Hk & Hf); [lia|]. by exists (S k), wk.
Qed.

Lemma sum_list_with_zero (f : worker -> nat) ths k wk :
  sum_list_with f ths = 0%nat -> ths !! k = Some wk -> f wk = 0%nat.
Proof.
  revert k. induction ths as [|x ths IH]; intros [|k] H Hk; simplify_eq/=.
  - lia.
  - apply (IH k); [lia|done].
Qed.

Lemma measure_lt c s s' :
  (to_come c (globals s') < to_come c (globals s))%nat \/
  (to_come c (globals s') = to_come c (globals s) /\
   ((waiting s' < waiting s)%nat \/
    (waiting s' = waiting s /\ (effort c s' < effort c s)%nat))) ->
  lt3 (measure c s') (measure c s).
Proof. done. Qed.

Lemma main_progress c s s' :
  inv c s -> main_step c s = Some s' ->
  lt3 (measure c s') (measure c s).
Proof.
  intros Hinv Hstep. pose proof (inv_main _ _ Hinv) as Hmain.
  apply measure_lt. right.
  unfold main_step in Hstep. unfold main_ok in Hmain.
  unfold waiting, effort.
  destruct (main_pc s) as [| |k|k| | | |] eqn:Hpc.
  all: repeat case_match; simplify_eq; simpl.
  all: try (destruct Hmain as [Hk Hmain]).
  all: try match goal with
       | H : (_ <? _) = true |- _ => apply nthreads_test in H
       | H : (_ <? _) = false |- _ =>
           apply not_true_iff_false in H; rewrite nthreads_test in H
       end.
  all: split; [done|right].
  all: unfold waiting; simpl.
  all: try (split; [done|lia]).
  assert (exists wk, threads s !! k = Some wk /\ pc wk = Unborn) as (wk & Hwk & Hwpc).
  { destruct (lookup_lt_is_Some_2 (threads s) k) as [wk Hwk].
    - rewrite (inv_length _ _ Hinv). lia.
    - exists wk. split; [done|]. by apply (Hmain _ _ Hwk). }
  pose proof (sum_list_with_insert (turn_blocked (actual_ticket (globals s)))
                _ _ _ (spawn c k) Hwk) as Hb.
  replace (turn_blocked (actual_ticket (globals s)) wk) with 0%nat in Hb
    by (unfold turn_blocked; by rewrite Hwpc).
  change (turn_blocked (actual_ticket (globals s)) (spawn c k)) with 0%nat in Hb.
  assert (sum_list_with (turn_blocked (actual_ticket (globals s)))
            (<[k := spawn c k]> (threads s)) =
          sum_list_with (turn_blocked (actual_ticket (globals s))) (threads s))
    as Hb' by lia.
  split; [done|]. rewrite Hb'.
  pose proof (sum_list_with_insert
                (rank (actual_ticket (globals s))
                   (sum_list_with (turn_blocked (actual_ticket (globals s)))
                      (threads s)))
                _ _ _ (spawn c k) Hwk) as Hr.
  unfold rank in Hr at 2 4. rewrite Hwpc in Hr. simpl in Hr. lia.
Qed.

Lemma cond_signal_blocked k ths wk :
  ths !! k = Some wk -> pc wk = Blocked ->
  cond_signal k ths = Some (<[k := at_pc AwReacq wk]> ths).
Proof.
  intros Hk Hpc. unfold cond_signal, is_blocked. rewrite Hk.
  by rewrite bool_decide_eq_true_2.
Qed.

Lemma cond_signal_none k ths :
  (forall j wj, ths !! j = Some wj -> pc wj <> Blocked) ->
  cond_signal k ths = Some ths.
Proof.
  intros Hnone. unfold cond_signal.
  assert (existsb is_blocked ths = false) as ->.
  { destruct (existsb is_blocked ths) eqn:He; [|done].
    apply existsb_exists in He as (x & Hx & Hb).
    apply list_elem_of_In, list_elem_of_lookup in Hx as [j Hj].
    unfold is_blocked in Hb. apply bool_decide_eq_true in Hb.
    by destruct (Hnone _ _ Hj). }
  destruct (ths !! k) as [wk|] eqn:Hk; [|done].
  unfold is_blocked. rewrite bool_decide_eq_false_2; [done|]. by eapply Hnone.
Qed.

Lemma exec_worker_quiet c s i k w w' g' :
  threads s !! i = Some w ->
  worker_step i w (globals s) = Some (w', g', false) ->
  exec c (LWorker i k) s = Some (set_threads g' (<[i := w']> (threads s)) s).
Proof. intros Hi Hw. unfold exec. by rewrite Hi, Hw. Qed.

Lemma exec_worker_signal c s i k w w' g' ths' :
  threads s !! i = Some w ->
  worker_step i w (globals s) = Some (w', g', true) ->
  cond_signal k (<[i := w']> (threads s)) = Some ths' ->
  exec c (LWorker i k) s = Some (set_threads g' ths' s).
Proof. intros Hi Hw Hc. unfold exec. by rewrite Hi, Hw, Hc. Qed.

Lemma quiet_measure c s i w w' g' :
  threads s !! i = Some w ->
  actual_ticket g' = actual_ticket (globals s) ->
  next_ticket g' = next_ticket (globals s) ->
  turn_blocked (actual_ticket (globals s)) w = 0%nat ->
  turn_blocked (actual_ticket (globals s)) w' = 0%nat ->
  (rank (actual_ticket (globals s)) (waiting s) w' <
   rank (actual_ticket (globals s)) (waiting s) w)%nat ->
  lt3 (measure c (set_threads g' (<[i := w']> (threads s)) s)) (measure c s).
Proof.
  intros Hi Ha Hn Hb Hb' Hr. apply measure_lt. right.
  unfold to_come, effort, waiting. simpl. rewrite Ha, Hn. split; [done|]. right.
  pose proof (sum_list_with_insert (turn_blocked (actual_ticket (globals s)))
                _ _ _ w' Hi) as Hsb.
  rewrite Hb, Hb' in Hsb.
  assert (sum_list_with (turn_blocked (actual_ticket (globals s)))
            (<[i := w']> (threads s)) =
          sum_list_with (turn_blocked (actual_ticket (globals s))) (threads s))
    as Hsb' by lia.
  split; [done|]. rewrite Hsb'.
  pose proof (sum_list_with_insert (rank (actual_ticket (globals s)) (waiting s))
                _ _ _ w' Hi) as Hsr.
  unfold waiting in *. lia.
Qed.

Lemma draw_measure c s g' ths' :
  (to_come c g' < to_come c (globals s))%nat ->
  lt3 (measure c (set_threads g' ths' s)) (measure c s).
Proof. intros H. apply measure_lt. by left. Qed.

Lemma not_blocked_turn a w : pc w <> Blocked -> turn_blocked a w = 0%nat.
Proof. intros H. unfold turn_blocked. by rewrite bool_decide_eq_false_2. Qed.

(** A signal that wakes the blocked thread whose turn it is. *)
Lemma signal_measure_turn c s i k w w' wk :
  threads s !! i = Some w -> pc w <> Blocked -> pc w' <> Blocked ->
  threads s !! k = Some wk ->
  (0 < turn_blocked (actual_ticket (globals s)) wk)%nat ->
  lt3 (measure c (set_threads (globals s)
                    (<[k := at_pc AwReacq wk]> (<[i := w']> (threads s))) s))
      (measure c s).
Proof.
  intros Hi Hnb Hnb' Hk Htb.
  set (a := actual_ticket (globals s)) in *.
  assert (k <> i) as Hne.
  { intros ->. simplify_eq. rewrite not_blocked_turn in Htb by done. lia. }
  assert (<[i := w']> (threads s) !! k = Some wk) as Hk1
    by (by rewrite list_lookup_insert_ne).
  pose proof (sum_list_with_insert (turn_blocked a) _ _ _ w' Hi) as Hsb.
  rewrite !not_blocked_turn in Hsb by done.
  pose proof (sum_list_with_insert (turn_blocked a) _ _ _
                (at_pc AwReacq wk) Hk1) as Hsb2.
  change (turn_blocked a (at_pc AwReacq wk)) with 0%nat in Hsb2.
  apply measure_lt. right. split; [done|]. left.
  unfold waiting. simpl. fold a. lia.
Qed.

(** A signal that has to wake a blocked thread whose turn it is not. *)
Lemma signal_measure_other c s i k w w' wk :
  threads s !! i = Some w -> pc w <> Blocked -> pc w' <> Blocked ->
  (rank (actual_ticket (globals s)) 0 w' + 2 <=
   rank (actual_ticket (globals s)) 0 w)%nat ->
  waiting s = 0%nat ->
  threads s !! k = Some wk -> pc wk = Blocked ->
  lt3 (measure c (set_threads (globals s)
                    (<[k := at_pc AwReacq wk]> (<[i := w']> (threads s))) s))
      (measure c s).
Proof.
  intros Hi Hnb Hnb' Hr Hw0 Hk Hpc.
  set (a := actual_ticket (globals s)) in *.
  assert (k <> i) as Hne by (intros ->; by simplify_eq).
  assert (<[i := w']> (threads s) !! k = Some wk) as Hk1
    by (by rewrite list_lookup_insert_ne).
  assert (turn_blocked a wk = 0%nat) as Htb
    by (by eapply sum_list_with_zero).
  pose proof (sum_list_with_insert (turn_blocked a) _ _ _ w' Hi) as Hsb.
  rewrite !not_blocked_turn in Hsb by done.
  pose proof (sum_list_with_insert (turn_blocked a) _ _ _
                (at_pc AwReacq wk) Hk1) as Hsb2.
  change (turn_blocked a (at_pc AwReacq wk)) with 0%nat in Hsb2.
  rewrite Htb in Hsb2.
  apply measure_lt. right. split; [done|]. right.
  unfold effort, waiting in *. simpl. fold a. fold a in Hw0.
  split; [lia|].
  replace (sum_list_with (turn_blocked a)
             (<[k := at_pc AwReacq wk]> (<[i := w']> (threads s))))
    with 0%nat by lia.
  rewrite Hw0.
  pose proof (sum_list_with_insert (rank a 0) _ _ _ w' Hi) as Hsr.
  pose proof (sum_list_with_insert (rank a 0) _ _ _ (at_pc AwReacq wk) Hk1)
    as Hsr2.
  assert (rank a 0 wk = 0%nat) as Hr0 by (unfold rank; by rewrite Hpc).
  assert (rank a 0 (at_pc AwReacq wk) = 1%nat) as Hr1.
  { unfold rank. simpl. unfold turn_blocked in Htb.
    rewrite bool_decide_eq_true_2 in Htb by done. simpl in Htb.
    by destruct (ticket wk =? a). }
  lia.
Qed.

Lemma worker_progress c s i w :
  no_overflow c -> good c s ->
  threads s !! i = Some w -> movable s w ->
  exists k s', exec c (LWorker i k) s = Some s' /\
               lt3 (measure c s') (measure c s).
Proof.
  intros Hno (Hinv & Hinv2 & Hinv3) Hi Hmov.
  pose proof (inv_locks _ _ Hinv _ _ Hi) as [HLs HLt].
  pose proof (inv_workers _ _ Hinv _ _ Hi) as [_ HW].
  pose proof (inv_actual _ _ Hinv) as Hact.
  pose proof (to_int_range (loop_count c)) as Hlc.
  assert (forall p', p' <> Blocked ->
            turn_blocked (actual_ticket (globals s)) (at_pc p' w) = 0%nat) as Hnb
    by (intros p' Hp'; by apply not_blocked_turn).
  unfold movable in Hmov.
  set (a := actual_ticket (globals s)) in *.
  assert (forall w' g',
            worker_step i w (globals s) = Some (w', g', false) ->
            actual_ticket g' = a -> next_ticket g' = next_ticket (globals s) ->
            turn_blocked a w' = 0%nat ->
            (rank a (waiting s) w' < rank a (waiting s) w)%nat ->
            exists k s', exec c (LWorker i k) s = Some s' /\
                         lt3 (measure c s') (measure c s)) as Hquiet.
  { intros w' g' Hst Ha Hn Htb Hr. exists O. eexists. split.
    - by eapply exec_worker_quiet.
    - apply (quiet_measure c s i w); try done.
      apply not_blocked_turn. intros Hb. unfold worker_step in Hst.
      by rewrite Hb in Hst. }
  assert (forall w' g',
            worker_step i w (globals s) = Some (w', g', false) ->
            (to_come c g' < to_come c (globals s))%nat ->
            exists k s', exec c (LWorker i k) s = Some s' /\
                         lt3 (measure c s') (measure c s)) as Hdraw.
  { intros w' g' Hst Hlt. exists O. eexists. split.
    - by eapply exec_worker_quiet.
    - by apply draw_measure. }
  assert (forall w',
            worker_step i w (globals s) = Some (w', globals s, true) ->
            pc w' <> Blocked ->
            (rank a (waiting s) w' + 2 <= rank a (waiting s) w)%nat ->
            exists k s', exec c (LWorker i k) s = Some s' /\
                         lt3 (measure c s') (measure c s)) as Hsignal.
  { intros w' Hst Hnb' Hr.
    assert (pc w <> Blocked) as Hnbw
      by (intros Hb; unfold worker_step in Hst; by rewrite Hb in Hst).
    assert (forall k wk, threads s !! k = Some wk -> pc wk = Blocked ->
              <[i := w']> (threads s) !! k = Some wk) as Hlook.
    { intros k wk Hk Hb. rewrite list_lookup_insert_ne; [done|].
      intros ->. by simplify_eq. }
    destruct (decide (0 < waiting s)%nat) as [Hpos|Hzero].
    - apply sum_list_with_pos in Hpos as (k & wk & Hk & Htb).
      assert (pc wk = Blocked) as Hb.
      { unfold turn_blocked in Htb. destruct (bool_decide (pc wk = Blocked)) eqn:Hd;
          [by apply bool_decide_eq_true in Hd|simpl in Htb; lia]. }
      exists k. eexists. split.
      + eapply exec_worker_signal; [done..|].
        apply cond_signal_blocked; [by apply Hlook|done].
      + by apply (signal_measure_turn c s i k w).
    - assert (waiting s = 0%nat) as Hw0 by lia.
      destruct (find_worker (fun w => pc w = Blocked) (threads s))
        as [(k & wk & Hk & Hb)|Hnone].
      + exists k. eexists. split.
        * eapply exec_worker_signal; [done..|].
          apply cond_signal_blocked; [by apply Hlook|done].
        * apply (signal_measure_other c s i k w); try done.
          by rewrite Hw0 in Hr.
      + exists O. eexists. split.
        * eapply exec_worker_signal; [done..|].
          apply cond_signal_none. intros j wj Hj.
          destruct (decide (j = i)) as [->|Hne].
          -- rewrite list_lookup_insert_eq in Hj by (by eapply lookup_lt_Some).
             by simplify_eq.
          -- rewrite list_lookup_insert_ne in Hj by done. by eapply Hnone.
        * apply (quiet_measure c s i w); try done;
            try (by apply not_blocked_turn). fold a. lia. }
  unfold worker_step in Hquiet, Hdraw, Hsignal.
  unfold rank in Hquiet at 2. unfold rank in Hsignal at 2.
  destruct (pc w) eqn:Hpc; try done;
    simpl in Hmov, HLs, HLt, HW, Hquiet, Hdraw, Hsignal; use_premises.
  all: try solve
         [eapply Hquiet;
          [rewrite ?Hmov, ?decide_True by auto; reflexivity
          |simpl; try done; try (apply Hnb; congruence);
           unfold rank; simpl; lia..]].
  all: try solve
         [eapply Hsignal; [reflexivity|simpl; congruence|unfold rank; simpl; lia]].
  - (* GetIncr *)
    destruct (next_incr c s i w Hno Hinv Hi) as [Hn Hto];
      [by unfold drawn; rewrite Hpc|].
    eapply Hdraw; [reflexivity|]. unfold to_come. simpl. rewrite Hto. lia.
  - (* LoopTest *)
    destruct (res w <? Param.loop_count (param w));
      (eapply Hquiet; [reflexivity|simpl; try done; try (apply Hnb; congruence);
                       unfold rank; simpl; lia..]).
  - (* AwTest *)
    destruct (ticket w =? actual_ticket (globals s)); simpl in Hquiet;
      (eapply Hquiet; [reflexivity|simpl; try done; try (apply Hnb; congruence);
                       unfold rank; simpl; lia..]).
  - (* AwWait *)
    eapply Hquiet; [rewrite decide_True by auto; reflexivity|simpl; try done..].
    + unfold turn_blocked. simpl.
      rewrite (proj2 (Z.eqb_neq _ _)) by lia. by rewrite ?andb_false_r.
    + unfold rank. simpl. lia.
  - (* AwReacq *)
    match goal with H : _ || _ = true |- _ => rewrite H in Hquiet end.
    match goal with H : section_mutex _ = None |- _ => rewrite H in Hquiet end.
    eapply Hquiet;
      [reflexivity|simpl; try done; try (apply Hnb; congruence);
                   unfold rank; simpl; lia..].
  - (* AdvIncr *)
    eapply Hdraw; [reflexivity|]. unfold to_come. simpl.
    rewrite (actual_incr c) by lia. unfold budget. fold a. unfold lci in *. lia.
Qed.

Lemma not_movable s w :
  ticket_mutex (globals s) = None -> section_mutex (globals s) = None ->
  ~ movable s w ->
  pc w = Unborn \/ pc w = Blocked \/ pc w = Done \/
  (pc w = AwReacq /\
   (ticket w =? actual_ticket (globals s)) || (0 <? waiting s)%nat = false).
Proof.
  unfold movable. intros Ht Hs Hn.
  destruct (pc w); try (by destruct Hn); auto.
  right; right; right. split; [done|].
  destruct ((ticket w =? actual_ticket (globals s)) || (0 <? waiting s)%nat);
    [by destruct Hn|done].
Qed.

Lemma progress c s :
  no_overflow c -> good c s -> ~ finished s ->
  exists s', step_ns c s s' /\ lt3 (measure c s') (measure c s).
Proof.
  intros Hno Hgood Hnf. pose proof Hgood as (Hinv & Hinv2 & Hinv3).
  assert (forall i w, threads s !! i = Some w -> movable s w ->
            exists s', step_ns c s s' /\ lt3 (measure c s') (measure c s)) as Hmove.
  { intros i w Hi Hm.
    destruct (worker_progress c s i w Hno Hgood Hi Hm) as (k & s' & Hex & Hlt).
    exists s'. split; [|done]. by exists (LWorker i k). }
  destruct (inv_owners _ Hinv2) as [Hos Hot].
  destruct (ticket_mutex (globals s)) as [o|] eqn:Htm.
  { destruct (Hot _ eq_refl) as (w & Hw & Hh). apply (Hmove _ _ Hw).
    unfold movable. by destruct (pc w). }
  destruct (section_mutex (globals s)) as [o|] eqn:Hsm.
  { destruct (Hos _ eq_refl) as (w & Hw & Hh). apply (Hmove _ _ Hw).
    unfold movable. by destruct (pc w). }
  destruct (main_step c s) as [s'|] eqn:Hms.
  { exists s'. split; [by exists LMain|]. by eapply main_progress. }
  destruct (find_worker (movable s) (threads s)) as [(i & w & Hi & Hm)|Hnone].
  { by apply (Hmove _ _ Hi). }
  exfalso.
  (* the main thread waits for a worker that has not returned *)
  pose proof (inv_main _ _ Hinv) as Hmain.
  unfold main_step in Hms. unfold main_ok in Hmain. unfold finished in Hnf.
  destruct (main_pc s) as [| |k|k| | | |] eqn:Hpc; try done;
    repeat case_match; simplify_eq.
  destruct Hmain as [_ Hmain].
  match goal with H : threads s !! k = Some ?w |- _ =>
    rename H into Hk; rename w into wk end.
  assert (pc wk <> Done) as Hnd by done.
  destruct (Hmain _ _ Hk) as [Hnu _].
  (* nobody blocked has the turn *)
  assert (waiting s = 0%nat) as Hw0.
  { destruct (decide (0 < waiting s)%nat) as [Hpos|]; [|lia].
    apply sum_list_with_pos in Hpos as Hr.
    destruct Hr as (r & wr & Hr & Htb).
    unfold turn_blocked in Htb.
    destruct (bool_decide (pc wr = Blocked)) eqn:Hb; [|simpl in Htb; lia].
    apply bool_decide_eq_true in Hb. simpl in Htb.
    destruct (ticket wr =? actual_ticket (globals s)) eqn:Ht; [|lia].
    apply Z.eqb_eq in Ht.
    destruct (inv_relay _ _ Hinv3 r wr Hr Hb Ht) as (x & wx & Hx & Hrx).
    destruct (not_movable s wx Htm Hsm (Hnone _ _ Hx))
      as [Hp|[Hp|[Hp|[Hp Hc]]]]; rewrite Hp in Hrx; try done.
    apply orb_false_iff in Hc as [_ Hc]. apply Nat.ltb_ge in Hc. lia. }
  (* but the waiting worker holds a ticket, so the turn is held too *)
  pose proof (inv_workers _ _ Hinv _ _ Hk) as [_ HWk].
  assert (exists t, Issue k t ∈ trace (globals s) /\
            actual_ticket (globals s) <= t < lci c) as (t & Hiss & Ht).
  { destruct (not_movable s wk Htm Hsm (Hnone _ _ Hk))
      as [Hp|[Hp|[Hp|[Hp Hc]]]]; try done; rewrite Hp in HWk;
      exists (ticket wk); tauto. }
  apply issued_elem in Hiss. rewrite (inv_issued _ _ Hinv) in Hiss.
  apply elem_of_seqZ in Hiss.
  destruct (inv_cover _ _ Hinv3 (actual_ticket (globals s))) as (j & wj & Hj & Hh); [lia|lia|].
  destruct (not_movable s wj Htm Hsm (Hnone _ _ Hj))
    as [Hp|[Hp|[Hp|[Hp Hc]]]]; unfold holds in Hh; rewrite Hp in Hh;
    try done; injection Hh as Hh.
  - pose proof (sum_list_with_zero _ _ _ _ Hw0 Hj) as Hz.
    unfold turn_blocked in Hz. rewrite bool_decide_eq_true_2 in Hz by done.
    rewrite Hh, Z.eqb_refl in Hz. done.
  - apply orb_false_iff in Hc as [Hc _].
    rewrite Hh, Z.eqb_refl in Hc. done.
  - match goal with H : threads s !! k = None |- _ =>
      apply lookup_ge_None in H; rewrite (inv_length _ _ Hinv) in H end.
    match goal with H : (_ <? _) = true |- _ => apply nthreads_test in H end.
    lia.
Qed.

(** ** From every reachable state the program can run to its end *)

Lemma can_finish_step c s s' : step_ns c s s' -> can_finish c s' -> can_finish c s.
Proof.
  intros Hstep (s'' & Hrtc & Hfin). exists s''. split; [|done].
  by eapply rtc_l.
Qed.

Lemma good_can_finish c s0 : no_overflow c -> good c s0 -> can_finish c s0.
Proof.
  intros Hno.
  assert (forall m1 m2 m3 s, good c s -> measure c s = (m1, m2, m3) ->
                             can_finish c s) as Hall.
  { induction m1 as [m1 IH1] using lt_wf_ind.
    induction m2 as [m2 IH2] using lt_wf_ind.
    induction m3 as [m3 IH3] using lt_wf_ind.
    intros s Hgood Hm.
    destruct (decide (main_pc s = MReturn)) as [Hfin|Hnf].
    { exists s. by split. }
    destruct (progress c s Hno Hgood Hnf) as (s' & Hstep & Hlt).
    assert (good c s') as Hgood'
      by (eapply good_step; [done..|by apply step_ns_step]).
    apply (can_finish_step _ _ _ Hstep).
    destruct (measure c s') as [[n1 n2] n3] eqn:Hm'.
    rewrite Hm in Hlt. unfold lt3 in Hlt. simpl in Hlt.
    destruct Hlt as [Hlt|[-> [Hlt|[-> Hlt]]]].
    - by eapply (IH1 n1 Hlt n2 n3).
    - by eapply (IH2 n2 Hlt n3).
    - by eapply (IH3 n3 Hlt). }
  intros Hgood. destruct (measure c s0) as [[m1 m2] m3] eqn:Hm.
  by eapply Hall.
Qed.

Lemma reachable_can_finish c s :
  no_overflow c -> reachable c s -> can_finish c s.
Proof. intros Hno Hr. by apply good_can_finish, good_reachable. Qed.

Lemma can_finish_reachable c s s' :
  reachable c s -> rtc (step_ns c) s s' -> reachable c s'.
Proof.
  intros Hr Hrtc. induction Hrtc as [|s s1 s' Hstep _ IH]; [done|].
  apply IH. eapply rtc_r; [exact Hr|]. by apply step_ns_step.
Qed.

(** ** Life cycle and exit status, for every configuration *)

Lemma life_ok_init c : life_ok (init c).
Proof. by split. Qed.

Lemma life_ok_step c s s' : step c s s' -> life_ok s -> life_ok s'.
Proof.
  intros [l Hl] [Ht Hm]. destruct l as [|i k|j].
  - unfold exec, main_step in Hl. unfold life_ok.
    destruct (main_pc s) eqn:Hpc; repeat case_match; simplify_eq; simpl;
      rewrite ?Hpc; destruct Hm as (? & ? & ?); by split_and!.
  - apply exec_worker in Hl as (? & ? & ? & ? & ? & _ & _ & _ & _ & ->).
    by split.
  - apply exec_spurious in Hl as [_ ->]. by split.
Qed.

Lemma life_ok_reachable c s : reachable c s -> life_ok s.
Proof.
  intros H.
  apply (rtc_ind_r (R := step c) life_ok (init c)); [apply life_ok_init| |exact H].
  intros y z _ Hstep IH. by eapply life_ok_step.
Qed.

Lemma main_ok_init c : main_ok c (init c) /\ length (threads (init c)) = nthreads c.
Proof.
  split; simpl; [|by rewrite length_replicate].
  intros i w Hi. by apply lookup_replicate in Hi as [-> _].
Qed.

Lemma main_ok_main_step c s s' :
  main_ok c s -> length (threads s) = nthreads c ->
  main_step c s = Some s' ->
  main_ok c s' /\ length (threads s') = nthreads c.
Proof.
  intros Hmain Hlen Hstep.
  unfold main_step in Hstep. unfold main_ok in Hmain.
  destruct (main_pc s) as [| |k|k| | | |] eqn:Hpc.
  all: repeat case_match; simplify_eq; unfold main_ok; simpl.
  all: try (destruct Hmain as [Hk Hmain]).
  all: try match goal with
       | H : (_ <? _) = true |- _ => apply nthreads_test in H
       | H : (_ <? _) = false |- _ =>
           apply not_true_iff_false in H; rewrite nthreads_test in H
       end.
  all: rewrite ?length_insert.
  all: split; [|done].
  all: try done.
  all: try (split; [lia|]).
  all: intros j wj Hj.
  - split; [intros _; lia|intros _; by apply (Hmain _ _ Hj)].
  - destruct (decide (j = k)) as [->|Hne].
    + apply list_lookup_insert_Some in Hj as [(_ & <- & _)|(? & _)]; [|done].
      simpl. split; [done|lia].
    + rewrite list_lookup_insert_ne in Hj by done.
      rewrite (Hmain _ _ Hj). lia.
  - split; [|lia]. rewrite (Hmain _ _ Hj).
    apply lookup_lt_Some in Hj. lia.
  - destruct (Hmain _ _ Hj) as [Hu Hd]. split; [done|]. intros Hlt.
    destruct (decide (j = k)) as [->|Hne]; [congruence|]. apply Hd. lia.
  - apply (Hmain _ _ Hj). apply lookup_lt_Some in Hj. lia.
Qed.

Lemma main_ok_reachable c s :
  reachable c s -> main_ok c s /\ length (threads s) = nthreads c.
Proof.
  intros H.
  apply (rtc_ind_r (R := step c)
           (fun s => main_ok c s /\ length (threads s) = nthreads c) (init c));
    [apply main_ok_init| |exact H].
  intros y z _ [l Hl] [IH Hlen]. destruct l as [|i k|j].
  - by eapply main_ok_main_step.
  - apply exec_worker in Hl as (w & w' & g' & sg & ths' & Hi & Hw & Hwk & _ & ->).
    split; [by eapply main_ok_worker_step|].
    simpl. by rewrite (woken_length _ _ Hwk), length_insert.
  - apply exec_spurious in Hl as [Hwk ->]. split.
    + unfold main_ok in *. simpl. destruct (main_pc y).
      all: try (destruct IH as [Hk IH]; split; [done|]).
      all: eapply all_workers_woken; [exact Hwk| |exact IH].
      all: intros k' wk Hpc; rewrite Hpc; simpl; try done.
      * intros [Hx Hy]. split; [done|]. intros Hle. by specialize (Hy Hle).
      * intros [_ Hx]. split; [done|]. intros Hlt. by specialize (Hx Hlt).
    + simpl. by rewrite (woken_length _ _ Hwk).
Qed.

(** ** The last ticket of every worker *)

Lemma final_draws_snoc c j tr e :
  final_draws c j (tr ++ [e]) =
  (final_draws c j tr +
   match e with
   | Issue i t => if bool_decide (i = j) && (lci c <=? t)%Z then 1 else 0
   | _ => 0
   end)%nat.
Proof.
  unfold final_draws. induction tr as [|x tr IH]; simpl; [lia|].
  rewrite IH. lia.
Qed.

Lemma draws_worker_step c i w g w' g' sg j :
  worker_step i w g = Some (w', g', sg) ->
  worker_ok c g i w ->
  (final_draws c j (trace g') + (if decide (j = i) then final c w else 0) =
   final_draws c j (trace g) + (if decide (j = i) then final c w' else 0))%nat.
Proof.
  intros Hstep [Hpar Hw].
  destruct w as [p par t r]; simpl in *. unfold final.
  destruct (decide (j = i)) as [->|Hne].
  - destruct p; break_worker_step Hstep; norm_tests; use_premises; subst;
      simpl in *; fold (lci c) in *; rewrite ?final_draws_snoc; simpl;
      rewrite ?bool_decide_eq_true_2 by done; simpl; try lia.
    all: repeat match goal with
         | |- context [(?a <=? ?b)%Z] => destruct (Z.leb_spec a b)
         | |- context [(?a <? ?b)%Z] => destruct (Z.ltb_spec a b)
         end; lia.
  - destruct p; break_worker_step Hstep; norm_tests; use_premises; subst;
      simpl in *; fold (lci c) in *; rewrite ?final_draws_snoc; simpl;
      rewrite ?bool_decide_eq_false_2 by done; simpl; lia.
Qed.

Lemma draws_ok_init c : draws_ok c (init c).
Proof.
  intros i w Hi. simpl in *. by apply lookup_replicate in Hi as [-> _].
Qed.

Lemma draws_ok_step c s s' :
  inv c s -> draws_ok c s -> step c s s' -> draws_ok c s'.
Proof.
  intros Hinv Hdr [l Hl]. destruct l as [|i k|j].
  - pose proof (inv_main _ _ Hinv) as Hmain.
    pose proof (main_step_shape _ _ _ Hl) as [Hg [Hth|(k & Hk & Hth)]];
      unfold draws_ok; rewrite Hg, Hth; [done|].
    unfold main_ok in Hmain. rewrite Hk in Hmain. destruct Hmain as [_ Hmain].
    intros j wj Hj. destruct (decide (j = k)) as [->|Hne].
    + apply list_lookup_insert_Some in Hj as [(_ & <- & Hlt)|(? & _)]; [|done].
      destruct (lookup_lt_is_Some_2 (threads s) k Hlt) as [wk Hwk].
      rewrite (Hdr _ _ Hwk). unfold final.
      by rewrite (proj2 (Hmain _ _ Hwk)) by lia.
    + rewrite list_lookup_insert_ne in Hj by done. by apply Hdr.
  - apply exec_worker in Hl as (w & w' & g' & sg & ths' & Hi & Hw & Hwk & _ & ->).
    unfold draws_ok. simpl.
    pose proof (inv_workers _ _ Hinv _ _ Hi) as Hok.
    eapply all_workers_woken; [exact Hwk| |].
    + intros k' wk Hpc Hx. rewrite Hx. unfold final. simpl. by rewrite Hpc.
    + apply all_workers_insert.
      * pose proof (draws_worker_step c i w _ w' g' sg i Hw Hok) as Hd.
        rewrite !decide_True in Hd by done. rewrite <- (Hdr _ _ Hi) in Hd. lia.
      * intros j wj Hne Hj.
        pose proof (draws_worker_step c i w _ w' g' sg j Hw Hok) as Hd.
        rewrite !decide_False in Hd by done. rewrite <- (Hdr _ _ Hj). lia.
  - apply exec_spurious in Hl as [Hwk ->]. unfold draws_ok. simpl.
    eapply all_workers_woken; [exact Hwk| |exact Hdr].
    intros k' wk Hpc Hx. rewrite Hx. unfold final. simpl. by rewrite Hpc.
Qed.

Lemma draws_ok_reachable c s : no_overflow c -> reachable c s -> draws_ok c s.
Proof.
  intros Hno H.
  apply (rtc_ind_r (R := step c) (fun s => inv c s /\ draws_ok c s) (init c));
    [split; [apply inv_init|apply draws_ok_init]| |exact H].
  intros y z _ Hstep [IH1 IH2]. split; [by eapply inv_step|by eapply draws_ok_step].
Qed.

(** ** Concrete runs *)

Lemma run_rtc c ls s s' : run c ls s = Some s' -> rtc (step c) s s'.
Proof.
  revert s. induction ls as [|l ls IH]; intros s H; cbn [run] in H.
  - injection H as <-. apply rtc_refl.
  - destruct (exec c l s) as [s1|] eqn:Hl; [|done].
    eapply rtc_l; [by exists l|]. by apply IH.
Qed.

Lemma run_reachable c ls s : run c ls (init c) = Some s -> reachable c s.
Proof. apply run_rtc. Qed.

Lemma first_worker_step c s i k s' :
  first_worker c s i k = Some s' -> step c s s'.
Proof.
  revert i. induction k as [|k IH]; intros i H; cbn [first_worker] in H; [done|].
  destruct (exec c (LWorker i (first_blocked (threads s))) s) as [s1|] eqn:Hl.
  - simplify_eq. eexists. exact Hl.
  - by apply (IH (S i)).
Qed.

Lemma sched_step c s s' : sched c s = Some s' -> step c s s'.
Proof.
  unfold sched. intros H. destruct (exec c LMain s) as [s1|] eqn:Hl.
  - simplify_eq. by exists LMain.
  - by eapply first_worker_step.
Qed.

Lemma run_sched_rtc c n s : rtc (step c) s (run_sched c n s).
Proof.
  revert s. induction n as [|n IH]; intros s; cbn [run_sched]; [apply rtc_refl|].
  destruct (sched c s) as [s1|] eqn:Hs; [|apply rtc_refl].
  eapply rtc_l; [by apply sched_step|apply IH].
Qed.

Lemma run_sched_reachable c n : reachable c (run_sched c n (init c)).
Proof. apply run_sched_rtc. Qed.

Lemma demo_mid_reachable : reachable demo demo_mid.
Proof. apply (run_reachable demo demo_schedule). vm_compute; reflexivity. Qed.

Lemma demo_end_reachable : reachable demo demo_end.
Proof.
  eapply rtc_trans; [apply demo_mid_reachable|apply run_sched_rtc].
Qed.

Lemma demo_wait_reachable : reachable demo demo_wait.
Proof.
  unfold demo_wait.
  destruct (run demo _ (init demo)) as [s|] eqn:Hrun;
    [by eapply run_reachable|apply rtc_refl].
Qed.

Lemma demo_incr_reachable : reachable demo demo_incr.
Proof.
  unfold demo_incr.
  destruct (run demo _ (init demo)) as [s|] eqn:Hrun;
    [by eapply run_reachable|apply rtc_refl].
Qed.

Lemma demo_in_range : in_range demo.
Proof. unfold in_range, demo, INT_MAX. simpl. lia. Qed.

Lemma demo_no_overflow : no_overflow demo.
Proof. apply in_range_no_overflow, demo_in_range. Qed.

(** ** Witnesses of C2, C3, C5 and C6 *)

Lemma mutual_exclusion_witness :
  exists w,
    threads demo_mid !! 0%nat = Some w /\ in_section (pc w) = true /\
    0%nat = 0%nat.
Proof.
  assert (exists w, threads demo_mid !! 0%nat = Some w /\
                    in_section (pc w) = true) as (w & Hw & Hin)
    by (eexists; split; vm_compute; reflexivity).
  exists w. split; [exact Hw|]. split; [exact Hin|].
  exact (mutual_exclusion demo demo_mid 0 0 w w
           demo_mid_reachable Hw Hw Hin Hin).
Defined.

Lemma admission_in_ticket_order_witness :
  trace (globals demo_mid) =
    [Issue 1 0; Issue 0 1; Enter 1 0; Leave 1 0] ++ Enter 0 1 :: [] /\
  exists p1 p2 p3,
    [Issue 1 0; Issue 0 1; Enter 1 0; Leave 1 0] =
    p1 ++ Enter 1 0 :: p2 ++ Leave 1 0 :: p3.
Proof.
  assert (trace (globals demo_mid) =
            [Issue 1 0; Issue 0 1; Enter 1 0; Leave 1 0] ++ Enter 0 1 :: [])
    as Htr by (vm_compute; reflexivity).
  assert (Issue 1 0 ∈ trace (globals demo_mid)) as Hiss
    by (rewrite Htr; left).
  split; [exact Htr|].
  exact (admission_in_ticket_order demo demo_mid _ [] 1 0 0 1
           demo_no_overflow demo_mid_reachable Htr Hiss eq_refl).
Defined.


Lemma current_turn_discipline_witness :
  actual_ticket (globals demo_mid) = 1 /\
  actual_ticket (globals demo_end) = 2 /\
  actual_ticket (globals demo_mid) <= actual_ticket (globals demo_end) /\
  pc demo_advancer = AdvIncr /\
  ((exists s', exec demo (LWorker 1 0) demo_incr = Some s') /\
   forall k s', exec demo (LWorker 1 k) demo_incr = Some s' ->
     actual_ticket (globals s') = actual_ticket (globals demo_incr) + 1 /\
     exists w', threads s' !! 1%nat = Some w' /\ pc w' = AdvSignal) /\
  pc demo_holder = AdvSignal /\
  Z.of_nat (length (completed (trace (globals demo_wait)))) + 1 =
    actual_ticket (globals demo_wait).
Proof.
  assert (threads demo_incr !! 1%nat = Some demo_advancer) as Hadv
    by (vm_compute; reflexivity).
  assert (threads demo_wait !! 1%nat = Some demo_holder) as Hhold
    by (vm_compute; reflexivity).
  split; [vm_compute; reflexivity|]. split; [vm_compute; reflexivity|].
  split; [|split; [reflexivity|split; [|split; [reflexivity|]]]].
  - exact (proj1 (proj2 (current_turn_discipline demo demo_mid
                           demo_no_overflow demo_mid_reachable))
             demo_end (run_sched_rtc demo 200 demo_mid)).
  - exact (proj1 (proj2 (proj2 (proj2
             (current_turn_discipline demo demo_incr
                demo_no_overflow demo_incr_reachable))))
             1%nat demo_advancer Hadv eq_refl).
  - exact (proj1 (proj2 (proj2 (proj2 (proj2
             (current_turn_discipline demo demo_wait
                demo_no_overflow demo_wait_reachable)))))
             1%nat demo_holder Hhold (or_introl eq_refl)).
Defined.

(** ** The output of a run (C1) *)

(** C1, at a configuration [main] accepts: with one thread and
    [loop_count = 2147483648] (positive, and what [get_num] stores for
    that argument) the workers see the [int] -2147483648, and a complete
    run writes no line at all, not 2147483648 lines. *)
Lemma output_beyond_int_max :
  Args.main_prologue ["proj2"; "1"; "2147483648"]%string true true
    = Args.Launch (thread_count beyond_int) (loop_count beyond_int) /\
  0 < thread_count beyond_int /\ 0 < loop_count beyond_int /\
  ~ (forall s,
       reachable beyond_int s -> finished s ->
       Z.of_nat (length (stdout (globals s))) = loop_count beyond_int).
Proof.
  split; [vm_compute; reflexivity|].
  split; [reflexivity|]. split; [reflexivity|]. intros H.
  assert (finished (run_sched beyond_int 100 (init beyond_int))) as Hf
    by (vm_compute; reflexivity).
  specialize (H _ (run_sched_reachable beyond_int 100) Hf). clear Hf.
  vm_compute in H. discriminate H.
Qed.

(** C1 (amended): for [thread_count > 0] and [loop_count > 0] with
    [loop_count + thread_count <= INT_MAX], in every reachable state the
    tickets on the lines written so far are 0, 1, 2, ... in this order, at
    most [loop_count] of them, every thread id on them is in
    [1, thread_count]; when [main] has returned the tickets are exactly
    0, ..., [loop_count - 1]; and from every reachable state the program
    can run on until [main] returns. *)
Theorem output_of_a_run c :
  in_range c ->
  (forall s, reachable c s ->
     map fst (stdout (globals s)) =
       seqZ 0 (Z.of_nat (length (stdout (globals s)))) /\
     Z.of_nat (length (stdout (globals s))) <= loop_count c /\
     Forall (fun l => 1 <= l.2 <= thread_count c) (stdout (globals s))) /\
  (forall s, reachable c s -> finished s ->
     Z.of_nat (length (stdout (globals s))) = loop_count c /\
     map fst (stdout (globals s)) = seqZ 0 (loop_count c)) /\
  (forall s, reachable c s -> can_finish c s).
Proof.
  intros Hin. destruct (in_range_no_overflow c Hin) as (Hno & Hlci & Hbud & Htc).
  split_and!.
  - intros s Hr. destruct (inv2_reachable c s Hno Hr) as [Hinv Hinv2].
    split_and!.
    + apply (inv_lines _ _ Hinv).
    + rewrite <- Hbud. by apply lines_bound.
    + rewrite <- Htc. apply (inv_ids _ _ Hinv).
  - intros s Hr Hfin. destruct (inv2_reachable c s Hno Hr) as [Hinv Hinv2].
    destruct (all_done_counts c s Hinv Hinv2) as (_ & _ & _ & Hlen & _).
    + destruct Hin. lia.
    + by eapply finished_all_done.
    + rewrite Hbud in Hlen. split; [done|].
      rewrite (inv_lines _ _ Hinv). by rewrite Hlen.
  - intros s Hr. by apply reachable_can_finish.
Qed.

Lemma output_of_a_run_witness :
  in_range demo /\ stdout (globals demo_end) = [(0, 2); (1, 1)] /\
  map fst (stdout (globals demo_end)) = seqZ 0 (loop_count demo).
Proof.
  assert (finished demo_end) as Hfin by (vm_compute; reflexivity).
  split; [apply demo_in_range|]. split; [vm_compute; reflexivity|].
  exact (proj2 (proj1 (proj2 (output_of_a_run demo demo_in_range))
                  demo_end demo_end_reachable Hfin)).
Defined.

(** ** The tickets of a run (C4) *)

(** C4, with one thread and [loop_count = 1]: the complete run takes the
    tickets 0 and 1 from the counter, not 0 alone. *)
Lemma tickets_beyond_budget :
  ~ (forall s,
       reachable one_one s -> finished s ->
       issued (trace (globals s)) = seqZ 0 (loop_count one_one)).
Proof.
  intros H.
  assert (finished (run_sched one_one 100 (init one_one))) as Hf
    by (vm_compute; reflexivity).
  specialize (H _ (run_sched_reachable one_one 100) Hf). clear Hf.
  vm_compute in H. discriminate H.
Qed.

(** C4 (amended): for [thread_count > 0] and [loop_count > 0] with
    [loop_count + thread_count <= INT_MAX], when [main] has returned the
    tickets taken from the counter are 0, ..., [loop_count + thread_count
    - 1], each once (every worker takes one more ticket, on which it
    stops), and the tickets with which a worker was let into the
    critical section are 0, ..., [loop_count - 1], each once. *)
Theorem tickets_of_a_run c s :
  in_range c -> reachable c s -> finished s ->
  issued (trace (globals s)) = seqZ 0 (loop_count c + thread_count c) /\
  NoDup (issued (trace (globals s))) /\
  entered (trace (globals s)) = seqZ 0 (loop_count c) /\
  NoDup (entered (trace (globals s))).
Proof.
  intros Hin Hr Hfin.
  destruct (in_range_no_overflow c Hin) as (Hno & Hlci & Hbud & Htc).
  destruct (inv2_reachable c s Hno Hr) as [Hinv Hinv2].
  destruct (all_done_counts c s Hinv Hinv2) as (Hn & _ & _ & _ & Hadm).
  - destruct Hin. lia.
  - by eapply finished_all_done.
  - rewrite Hbud, Htc in Hn. rewrite Hbud in Hadm.
    rewrite (inv_issued _ _ Hinv), Hn, Hadm.
    split_and!; try done; apply NoDup_seqZ.
Qed.

Lemma tickets_of_a_run_witness :
  in_range demo /\ finished demo_end /\
  issued (trace (globals demo_end)) = seqZ 0 (loop_count demo + thread_count demo).
Proof.
  assert (finished demo_end) as Hfin by (vm_compute; reflexivity).
  split; [apply demo_in_range|]. split; [exact Hfin|].
  exact (proj1 (tickets_of_a_run demo demo_end demo_in_range
                  demo_end_reachable Hfin)).
Defined.

(** ** Termination of the workers (C9) *)

(** C9, at a configuration [main] accepts: with one thread and
    [loop_count = 2147483648] the worker sees the [int] -2147483648, its
    first ticket 0 is not below it, and when [main] has returned
    [getticket] has run once and [next_ticket] is 1, not
    [loop_count + thread_count] = 2147483649; the one ticket the worker
    took is below [loop_count]. *)
Lemma draws_beyond_int_max :
  Args.main_prologue ["proj2"; "1"; "2147483648"]%string true true
    = Args.Launch (thread_count beyond_int) (loop_count beyond_int) /\
  loop_count beyond_int + thread_count beyond_int = 2147483649 /\
  exists s,
    reachable beyond_int s /\ finished s /\
    map pc (threads s) = [Done] /\ map ticket (threads s) = [0] /\
    issued (trace (globals s)) = [0] /\
    next_ticket (globals s) = 1.
Proof.
  split; [vm_compute; reflexivity|]. split; [reflexivity|].
  exists (run_sched beyond_int 100 (init beyond_int)).
  split; [apply run_sched_reachable|]. vm_compute. repeat split.
Qed.

(** C9 (amended): for [thread_count > 0] and [loop_count > 0] with
    [loop_count + thread_count <= INT_MAX]: from every reachable state the
    program can run on, without any spurious wake-up, until [main]
    returns; when it has, every worker has returned from its loop after
    taking exactly one ticket not below [loop_count], [getticket] has been
    executed [loop_count + thread_count] times and [next_ticket] is
    [loop_count + thread_count]; and in every reachable state [getticket]
    has been executed [next_ticket] times, at most [loop_count +
    thread_count], and no worker has taken more than one ticket not below
    [loop_count], so that no worker goes round its loop more than
    [loop_count] times. *)
Theorem workers_terminate c :
  in_range c ->
  (forall s, reachable c s -> can_finish c s) /\
  (forall s, reachable c s -> finished s ->
     next_ticket (globals s) = loop_count c + thread_count c /\
     Z.of_nat (length (issued (trace (globals s)))) =
       loop_count c + thread_count c /\
     forall i, (Z.of_nat i < thread_count c) ->
       final_draws c i (trace (globals s)) = 1%nat /\
       exists w, threads s !! i = Some w /\ pc w = Done /\
                 loop_count c <= ticket w) /\
  (forall s, reachable c s ->
     Z.of_nat (length (issued (trace (globals s)))) = next_ticket (globals s) /\
     next_ticket (globals s) <= loop_count c + thread_count c /\
     forall i, (Z.of_nat i < thread_count c) ->
       (final_draws c i (trace (globals s)) <= 1)%nat).
Proof.
  intros Hin. destruct (in_range_no_overflow c Hin) as (Hno & Hlci & Hbud & Htc).
  split_and!.
  - intros s Hr. by apply reachable_can_finish.
  - intros s Hr Hfin.
    destruct (inv2_reachable c s Hno Hr) as [Hinv Hinv2].
    pose proof (finished_all_done c s Hinv Hfin) as Hdone.
    destruct (all_done_counts c s Hinv Hinv2) as (Hn & _); [destruct Hin; lia|done|].
    rewrite Hbud, Htc in Hn.
    split_and!; [done| |].
    + rewrite (inv_issued _ _ Hinv), length_seqZ, Hn. destruct Hin. lia.
    + intros i Hi.
      destruct (lookup_lt_is_Some_2 (threads s) i) as [w Hw].
      { rewrite (inv_length _ _ Hinv). lia. }
      pose proof (Hdone _ _ Hw) as Hpc.
      split.
      * rewrite (draws_ok_reachable c s Hno Hr _ _ Hw). unfold final. by rewrite Hpc.
      * exists w. split_and!; try done.
        pose proof (inv_workers _ _ Hinv _ _ Hw) as [_ Hok].
        rewrite Hpc in Hok. by rewrite <- Hlci.
  - intros s Hr. pose proof (inv_reachable c s Hno Hr) as Hinv.
    pose proof (inv_actual _ _ Hinv) as Ha.
    pose proof (inv_drawn _ _ Hinv) as Hd.
    pose proof (inv_final _ _ Hinv) as Hf.
    pose proof (inv_length _ _ Hinv) as Hl.
    pose proof (sum_list_with_le_length (final c) (threads s) (final_le_1 c)) as Hf1.
    split_and!.
    + rewrite (inv_issued _ _ Hinv), length_seqZ. lia.
    + lia.
    + intros i Hi.
      destruct (lookup_lt_is_Some_2 (threads s) i) as [w Hw]; [lia|].
      rewrite (draws_ok_reachable c s Hno Hr _ _ Hw). apply final_le_1.
Qed.

Lemma workers_terminate_witness :
  in_range demo /\ next_ticket (globals demo_end) = 4 /\
  next_ticket (globals demo_end) = loop_count demo + thread_count demo /\
  next_ticket (globals demo_mid) <= loop_count demo + thread_count demo.
Proof.
  assert (finished demo_end) as Hfin by (vm_compute; reflexivity).
  split; [apply demo_in_range|]. split; [vm_compute; reflexivity|]. split.
  - exact (proj1 (proj1 (proj2 (workers_terminate demo demo_in_range))
                    demo_end demo_end_reachable Hfin)).
  - exact (proj1 (proj2 (proj2 (proj2 (workers_terminate demo demo_in_range))
                           demo_mid demo_mid_reachable))).
Defined.

(** ** The exit status (C10) *)

Lemma prologue_launch argv m1 m2 tc lc :
  Args.main_prologue argv m1 m2 = Args.Launch tc lc <->
  length argv = 3%nat /\
  Args.get_num (nth 1 argv EmptyString) = (true, tc) /\ 0 < tc /\
  Args.get_num (nth 2 argv EmptyString) = (true, lc) /\ 0 < lc /\
  m1 = true /\ m2 = true.
Proof.
  unfold Args.main_prologue, Args.print_help.
  destruct (Nat.eqb_spec (length argv) 3) as [Hlen|Hlen]; simpl.
  2:{ split; [done|]. by intros (? & _). }
  destruct (Args.get_num (nth 1 argv _)) as [ok1 n1].
  destruct (Args.get_num (nth 2 argv _)) as [ok2 n2].
  destruct ok1; simpl; [|split; [done|by intros (_ & ? & _)]].
  destruct (Z.leb_spec n1 0); [split; [done|intros (_ & ? & ? & _); simplify_eq; lia]|].
  destruct ok2; simpl; [|split; [done|by intros (_ & _ & _ & ? & _)]].
  destruct (Z.leb_spec n2 0);
    [split; [done|intros (_ & _ & _ & ? & ? & _); simplify_eq; lia]|].
  destruct m1, m2; simpl; split; try done;
    try (by intros (_ & _ & _ & _ & _ & ? & ?)).
  - intros [= -> ->]. by split_and!.
  - intros (_ & ? & _ & ? & _). by simplify_eq.
Qed.

(** Every early return of [main] has status [EXIT_FAILURE] and has written
    a text to standard error. *)
Lemma prologue_abort argv m1 m2 err st :
  Args.main_prologue argv m1 m2 = Args.Reject err st ->
  st = EXIT_FAILURE /\ err <> EmptyString.
Proof.
  unfold Args.main_prologue, Args.print_help.
  repeat case_match; intros [= <- <-]; split; done.
Qed.

Lemma exit_status_reachable c s :
  reachable c s ->
  (finished s -> exit_status s = Some EXIT_SUCCESS) /\
  (~ finished s -> exit_status s = None).
Proof.
  intros Hr. destruct (life_ok_reachable c s Hr) as [_ Hl].
  unfold finished. destruct (main_pc s); split; intros; try done; tauto.
Qed.

(** C10: when there are three arguments, both numbers are read and are
    positive and both allocations succeed, [main] does not return early;
    in every state the threaded part can reach, under every interleaving,
    [main] either has not returned or has returned [EXIT_SUCCESS]; and when
    the counters stay within [int], from every reachable state [main] can
    go on to return it. *)
Theorem main_returns_success argv tc lc :
  length argv = 3%nat ->
  Args.get_num (nth 1 argv EmptyString) = (true, tc) -> 0 < tc ->
  Args.get_num (nth 2 argv EmptyString) = (true, lc) -> 0 < lc ->
  Args.main_prologue argv true true = Args.Launch tc lc /\
  (forall s, reachable {| thread_count := tc; loop_count := lc |} s ->
     exit_status s = None \/ exit_status s = Some EXIT_SUCCESS) /\
  (forall s, reachable {| thread_count := tc; loop_count := lc |} s ->
     finished s -> exit_status s = Some EXIT_SUCCESS) /\
  (no_overflow {| thread_count := tc; loop_count := lc |} ->
   forall s, reachable {| thread_count := tc; loop_count := lc |} s ->
     exists s', rtc (step_ns {| thread_count := tc; loop_count := lc |}) s s' /\
                exit_status s' = Some EXIT_SUCCESS).
Proof.
  intros Hlen H1 Htc H2 Hlc. split_and!.
  - apply prologue_launch. by split_and!.
  - intros s Hr. destruct (exit_status_reachable _ s Hr) as [Hf Hn].
    destruct (decide (main_pc s = MReturn)); [right; by apply Hf|left; by apply Hn].
  - intros s Hr. exact (proj1 (exit_status_reachable _ s Hr)).
  - intros Hno s Hr.
    destruct (reachable_can_finish _ s Hno Hr) as (s' & Hrtc & Hfin).
    exists s'. split; [done|].
    exact (proj1 (exit_status_reachable _ s'
                    (can_finish_reachable _ s s' Hr Hrtc)) Hfin).
Qed.

Lemma main_returns_success_witness :
  Args.main_prologue ["proj2"; "2"; "2"]%string true true = Args.Launch 2 2 /\
  exit_status demo_end = Some EXIT_SUCCESS.
Proof.
  assert (finished demo_end) as Hfin by (vm_compute; reflexivity).
  assert (Args.get_num "2" = (true, 2)) as Hnum by (vm_compute; reflexivity).
  destruct (main_returns_success ["proj2"; "2"; "2"]%string 2 2
              eq_refl Hnum eq_refl Hnum eq_refl) as (Hp & _ & Hf & _).
  split; [exact Hp|]. exact (Hf demo_end demo_end_reachable Hfin).
Defined.

(** ** Rejected arguments (C7) *)

(** C7 evaluated at the arguments [1] and [-1]: [strtoul] reads the minus
    sign, [get_num] stores 4294967295 in the [unsigned], the test
    [loop_count <= 0] does not fire, one thread is started and [main]
    returns [EXIT_SUCCESS] with nothing written. *)
Theorem negative_count_accepted :
  Args.get_num "-1" = (true, 4294967295) /\
  Args.main_prologue ["proj2"; "1"; "-1"]%string true true
    = Args.Launch (thread_count minus_one) (loop_count minus_one) /\
  exists s,
    reachable minus_one s /\
    finished s /\ exit_status s = Some EXIT_SUCCESS /\
    map pc (threads s) = [Done] /\ stdout (globals s) = [].
Proof.
  split; [vm_compute; reflexivity|]. split; [vm_compute; reflexivity|].
  exists (run_sched minus_one 100 (init minus_one)).
  split; [apply run_sched_reachable|]. vm_compute. repeat split.
Qed.

(** ** Life cycle of the synchronisation objects (C8) *)

Lemma ticket_mutex_static c s : reachable c s -> ticket_mutex_life s = Static.
Proof. intros Hr. by destruct (life_ok_reachable c s Hr). Qed.

(** [section_mutex] and [section_cond] are initialised before the first
    thread is created and destroyed after the last one was joined. *)
Lemma section_objects_life c s i w :
  reachable c s -> threads s !! i = Some w ->
  (pc w <> Unborn ->
   section_mutex_life s <> Static /\ section_cond_life s <> Static) /\
  (section_mutex_life s = Gone \/ section_cond_life s = Gone -> pc w = Done).
Proof.
  intros Hr Hi.
  destruct (life_ok_reachable c s Hr) as [_ Hl].
  destruct (main_ok_reachable c s Hr) as [Hm _].
  unfold main_ok in Hm.
  destruct (main_pc s); destruct Hl as (Hsm & Hsc & _); rewrite Hsm, Hsc;
    try (destruct Hm as [_ Hm]); specialize (Hm _ _ Hi); simpl in Hm;
    split; try done; try tauto; intros [?|?]; done.
Qed.

(** C8 evaluated with one thread and [loop_count = 1]: the worker locks
    [ticket_mutex] while no [pthread_mutex_init] has been applied to it
    (its sibling [section_mutex] is initialised at that point), and when
    [main] has returned [section_mutex] and [section_cond] have been
    destroyed and [ticket_mutex] has not. *)
Theorem ticket_mutex_never_initialised :
  exists s1 s2,
    reachable one_one s1 /\
    ticket_mutex (globals s1) = Some 0%nat /\
    ticket_mutex_life s1 = Static /\
    section_mutex_life s1 = Ready /\ section_cond_life s1 = Ready /\
    rtc (step one_one) s1 s2 /\
    finished s2 /\
    ticket_mutex_life s2 = Static /\
    section_mutex_life s2 = Gone /\ section_cond_life s2 = Gone.
Proof.
  exists (run_sched one_one 5 (init one_one)).
  exists (run_sched one_one 100 (run_sched one_one 5 (init one_one))).
  split; [apply run_sched_reachable|].
  do 4 (split; [vm_compute; reflexivity|]).
  split; [apply run_sched_rtc|]. vm_compute. repeat split.
Qed.

(** * Further properties of the code *)

(** ** Reading numbers *)

Lemma string_length_app (s1 s2 : string) :
  String.length (s1 ++ s2)%string = (String.length s1 + String.length s2)%nat.
Proof. induction s1 as [|c s1 IH]; simpl; [done|]. by rewrite IH. Qed.

Lemma skip_space_spec s :
  exists ws, s = (ws ++ (Args.skip_space s).2)%string /\
             all_chars Args.isspace ws = true /\
             (Args.skip_space s).1 = String.length ws /\
             match (Args.skip_space s).2 with
             | String c _ => Args.isspace c = false
             | EmptyString => True
             end.
Proof.
  induction s as [|c s IH]; simpl.
  - by exists EmptyString.
  - destruct (Args.isspace c) eqn:Hc.
    + destruct IH as (ws & Heq & Hall & Hlen & Hhd).
      destruct (Args.skip_space s) as [k r]; simpl in *.
      exists (String c ws). simpl.
      split_and!; [by rewrite Heq at 1|by rewrite Hc, Hall|by rewrite Hlen|done].
    + exists EmptyString. simpl. by rewrite Hc.
Qed.

Lemma skip_space_app ws s :
  all_chars Args.isspace ws = true ->
  match s with String c _ => Args.isspace c = false | EmptyString => True end ->
  Args.skip_space (ws ++ s) = (String.length ws, s).
Proof.
  intros Hws Hs. induction ws as [|c ws IH]; simpl in *.
  - destruct s as [|c s]; [done|]. simpl. by rewrite Hs.
  - apply andb_true_iff in Hws as [Hc Hws]. rewrite Hc, IH by done. done.
Qed.

Lemma digits_spec s acc :
  exists ds r, s = (ds ++ r)%string /\ all_chars is_digit ds = true /\
               (Args.digits s acc).2 = String.length ds /\
               match r with
               | String c _ => is_digit c = false
               | EmptyString => True
               end.
Proof.
  revert acc. induction s as [|c s IH]; intros acc; simpl.
  - by exists EmptyString, EmptyString.
  - destruct (Args.digit_of c) as [d|] eqn:Hc.
    + destruct (IH (10 * acc + d)) as (ds & r & Heq & Hall & Hlen & Hhd).
      destruct (Args.digits s (10 * acc + d)) as [v k]; simpl in *.
      exists (String c ds), r. simpl.
      split_and!; [by rewrite Heq at 1| |by rewrite Hlen|done].
      unfold is_digit at 1. by rewrite Hc, Hall.
    + exists EmptyString, (String c s). simpl. unfold is_digit. by rewrite Hc.
Qed.

Lemma digits_all ds acc :
  all_chars is_digit ds = true ->
  (Args.digits ds acc).2 = String.length ds.
Proof.
  revert acc. induction ds as [|c ds IH]; intros acc Hall; simpl in *; [done|].
  apply andb_true_iff in Hall as [Hc Hall]. unfold is_digit in Hc.
  destruct (Args.digit_of c) as [d|]; [|done].
  specialize (IH (10 * acc + d) Hall).
  destruct (Args.digits ds (10 * acc + d)); simpl in *. by rewrite IH.
Qed.

Lemma digit_not_space c : is_digit c = true -> Args.isspace c = false.
Proof.
  unfold is_digit, Args.digit_of, Args.isspace.
  destruct (_ && _)%bool eqn:H; [|done]. intros _.
  apply andb_true_iff in H as [H1 H2].
  apply Nat.leb_le in H1. apply Nat.leb_le in H2.
  apply orb_false_iff. split.
  - apply Nat.eqb_neq. lia.
  - apply andb_false_iff. right. apply Nat.leb_gt. lia.
Qed.

Lemma digit_not_sign c :
  is_digit c = true -> Ascii.eqb c "-" = false /\ Ascii.eqb c "+" = false.
Proof.
  intros H. split; apply Ascii.eqb_neq; intros ->; done.
Qed.

Lemma string_length_0 s : String.length s = O -> s = EmptyString.
Proof. by destruct s. Qed.

Lemma string_app_nil_r (s : string) : (s ++ EmptyString)%string = s.
Proof.
  induction s as [|c s IH]; [done|].
  change (String c (s ++ EmptyString)%string = String c s). by rewrite IH.
Qed.

(** What [strtoul] does to a string that is a numeral: it skips the white
    space and the sign and stops behind the last digit. *)
Lemma strtoul_numeral ws sg ds :
  all_chars Args.isspace ws = true ->
  sg = EmptyString \/ sg = "+"%string \/ sg = "-"%string ->
  ds <> EmptyString -> all_chars is_digit ds = true ->
  Args.strtoul (ws ++ sg ++ ds) =
    (let v := (Args.digits ds 0).1 in
     if ULONG_MAX <? v then ULONG_MAX
     else if bool_decide (sg = "-"%string)
          then (ULONG_MAX + 1 - v) mod (ULONG_MAX + 1) else v,
     String.length (ws ++ sg ++ ds)).
Proof.
  intros Hws Hsg Hne Hds.
  destruct ds as [|c ds']; [done|]. clear Hne.
  assert (is_digit c = true) as Hc by (simpl in Hds; by apply andb_true_iff in Hds as [? _]).
  pose proof (digit_not_space c Hc) as Hsp.
  pose proof (digit_not_sign c Hc) as [Hm Hp].
  pose proof (digits_all (String c ds') 0 Hds) as Hnd.
  unfold Args.strtoul. rewrite skip_space_app; [|done|by destruct Hsg as [->|[->| ->]]].
  rewrite !string_length_app.
  destruct Hsg as [->|[->| ->]].
  all: match goal with
       | |- context [(?a ++ String ?x ?y)%string] =>
           let z := eval cbv [String.append] in (a ++ String x y)%string in
           change (a ++ String x y)%string with z
       end.
  all: cbn beta iota; rewrite ?Hm, ?Hp.
  all: change (Ascii.eqb "+" "-") with false; change (Ascii.eqb "+" "+") with true.
  all: change (Ascii.eqb "-" "-") with true; cbn beta iota.
  all: destruct (Args.digits (String c ds') 0) as [v nd].
  all: simpl in Hnd; subst nd; cbn [fst snd String.length].
  all: rewrite ?bool_decide_eq_false_2 by done.
  all: rewrite ?bool_decide_eq_true_2 by done.
  all: f_equal; lia.
Qed.

(** [get_num] reports success exactly on the empty string (for which it
    stores 0) and on the numerals: white space, an optional sign, at
    least one digit and nothing behind. *)
Theorem get_num_accepts s :
  (Args.get_num s).1 = true <-> s = EmptyString \/ numeral s.
Proof.
  split.
  - intros H. unfold Args.get_num, Args.strtoul in H.
    destruct (skip_space_spec s) as (ws & Heq & Hws & Hlen & _).
    destruct (Args.skip_space s) as [k s1]. cbn [fst snd] in *.
    assert (forall (neg : bool) (sg : string) s2,
              s1 = (sg ++ s2)%string ->
              sg = EmptyString \/ sg = "+"%string \/ sg = "-"%string ->
              (let '(v, endptr) :=
                 let '(v, nd) := Args.digits s2 0 in
                 match nd with
                 | O => (0, O)
                 | S _ =>
                     (if ULONG_MAX <? v then ULONG_MAX
                      else if neg then (ULONG_MAX + 1 - v) mod (ULONG_MAX + 1)
                           else v, (k + String.length sg + nd)%nat)
                 end in
               (Nat.eqb endptr (String.length s), to_unsigned v)).1 = true ->
              s = EmptyString \/ numeral s) as Hgen.
    { intros neg sg s2 Hs1 Hsg Hflag.
      destruct (digits_spec s2 0) as (ds & r & Hs2 & Hds & Hnd & _).
      destruct (Args.digits s2 0) as [v nd]. cbn [fst snd] in *.
      destruct nd as [|nd'].
      - left. apply string_length_0. symmetry. by apply Nat.eqb_eq.
      - right. cbn [fst] in Hflag. apply Nat.eqb_eq in Hflag.
        assert (r = EmptyString) as ->.
        { apply string_length_0.
          rewrite Heq, Hs1, Hs2, !string_length_app in Hflag. lia. }
        rewrite string_app_nil_r in Hs2. subst s2.
        exists ws, sg, ds. split_and!; try done; [by rewrite Heq, Hs1|].
        intros ->. done. }
    destruct s1 as [|c r0].
    + by apply (Hgen false EmptyString EmptyString); [|left|].
    + destruct (Ascii.eqb c "-") eqn:Hm; [|destruct (Ascii.eqb c "+") eqn:Hp].
      * apply Ascii.eqb_eq in Hm as ->.
        by apply (Hgen true "-"%string r0); [|right; right|].
      * apply Ascii.eqb_eq in Hp as ->.
        by apply (Hgen false "+"%string r0); [|right; left|].
      * by apply (Hgen false EmptyString (String c r0)); [|left|].
  - intros [->|(ws & sg & ds & -> & Hws & Hsg & Hne & Hds)]; [done|].
    unfold Args.get_num. rewrite strtoul_numeral by done.
    cbn [fst snd]. apply Nat.eqb_refl.
Qed.

(** ** The value [get_num] stores for a decimal numeral *)

Lemma digits_string_of_uint d acc :
  Args.digits (DecimalString.NilEmpty.string_of_uint d) acc =
    (uint_value d acc,
     String.length (DecimalString.NilEmpty.string_of_uint d)).
Proof.
  revert acc. induction d; intros acc; cbn [DecimalString.NilEmpty.string_of_uint
    Args.digits uint_value String.length]; [done|..].
  all: match goal with
       | |- context [Args.digit_of ?c] =>
           let x := eval vm_compute in (Args.digit_of c) in
           change (Args.digit_of c) with x
       end; cbn beta iota; by rewrite IHd.
Qed.

Lemma all_digits_string_of_uint d :
  all_chars is_digit (DecimalString.NilEmpty.string_of_uint d) = true.
Proof. induction d; simpl; by rewrite ?IHd. Qed.

Lemma of_uint_acc_value d p :
  Z.pos (Pos.of_uint_acc d p) = uint_value d (Z.pos p).
Proof.
  revert p. induction d; intros p; cbn [Pos.of_uint_acc uint_value]; [done|..].
  all: rewrite IHd; f_equal; lia.
Qed.

Lemma of_uint_value d : Z.of_N (Pos.of_uint d) = uint_value d 0.
Proof.
  induction d; cbn [Pos.of_uint uint_value]; [done|by rewrite IHd|..].
  all: cbn [Z.of_N]; by rewrite of_uint_acc_value.
Qed.

Lemma decimal_digits n :
  0 <= n ->
  decimal n <> EmptyString /\ all_chars is_digit (decimal n) = true /\
  (Args.digits (decimal n) 0).1 = n.
Proof.
  intros Hn. unfold decimal. split_and!.
  - destruct (Z.to_N n) as [|p]; [done|]. cbn [N.to_uint].
    pose proof (DecimalPos.Unsigned.to_uint_nonnil p) as Hnil.
    by destruct (Pos.to_uint p).
  - apply all_digits_string_of_uint.
  - rewrite digits_string_of_uint. cbn [fst].
    rewrite <- of_uint_value.
    change (Pos.of_uint (N.to_uint (Z.to_N n))) with
      (N.of_uint (N.to_uint (Z.to_N n))).
    rewrite DecimalN.Unsigned.of_to. lia.
Qed.

Lemma strtoul_decimal ws sg n :
  all_chars Args.isspace ws = true ->
  sg = EmptyString \/ sg = "+"%string \/ sg = "-"%string -> 0 <= n ->
  Args.strtoul (ws ++ sg ++ decimal n) =
    (if ULONG_MAX <? n then ULONG_MAX
     else if bool_decide (sg = "-"%string)
          then (ULONG_MAX + 1 - n) mod (ULONG_MAX + 1) else n,
     String.length (ws ++ sg ++ decimal n)).
Proof.
  intros Hws Hsg Hn. destruct (decimal_digits n Hn) as (Hne & Hall & Hv).
  pose proof (strtoul_numeral ws sg (decimal n) Hws Hsg Hne Hall) as H.
  by rewrite Hv in H.
Qed.

Lemma get_num_value ws sg n :
  all_chars Args.isspace ws = true ->
  sg = EmptyString \/ sg = "+"%string ->
  0 <= n <= ULONG_MAX ->
  Args.get_num (ws ++ sg ++ decimal n) = (true, n mod 4294967296).
Proof.
  intros Hws Hsg [Hn Hmax]. unfold Args.get_num.
  rewrite strtoul_decimal by (done || tauto).
  destruct (Z.ltb_spec ULONG_MAX n); [lia|].
  rewrite bool_decide_eq_false_2 by (by destruct Hsg as [->| ->]).
  by rewrite Nat.eqb_refl.
Qed.

(** A decimal numeral that fits [unsigned long], also behind white space
    and a plus sign, is accepted, and the value stored is the number
    modulo 2^32: what does not fit the [unsigned] is cut off without
    notice. *)
Theorem get_num_decimal ws sg n :
  all_chars Args.isspace ws = true ->
  sg = EmptyString \/ sg = "+"%string ->
  0 <= n <= ULONG_MAX ->
  Args.get_num (ws ++ sg ++ decimal n) = (true, n mod 4294967296).
Proof.
  intros Hws Hsg [Hn Hmax].
  destruct (decimal_digits n Hn) as (Hne & Hall & Hv).
  assert (sg <> "-"%string) as Hplus by (by destruct Hsg as [->| ->]).
  unfold Args.get_num.
  rewrite (strtoul_numeral ws sg (decimal n)) by (done || tauto).
  rewrite Hv. cbn zeta.
  destruct (Z.ltb_spec ULONG_MAX n); [lia|].
  rewrite bool_decide_eq_false_2 by done.
  by rewrite Nat.eqb_refl.
Qed.

Lemma get_num_decimal_witness :
  Args.get_num " +4294967297" = (true, 1).
Proof.
  exact (get_num_decimal " " "+" 4294967297 eq_refl (or_intror eq_refl)
           ltac:(vm_compute; split; congruence)).
Defined.

(** A numeral beyond [unsigned long] is accepted as well, with either
    sign: [strtoul] answers [ULONG_MAX] (and sets [errno], which [get_num]
    does not look at), of which the [unsigned] keeps [UINT_MAX]. *)
Theorem get_num_saturates ws sg n :
  all_chars Args.isspace ws = true ->
  sg = EmptyString \/ sg = "+"%string \/ sg = "-"%string ->
  ULONG_MAX < n ->
  Args.get_num (ws ++ sg ++ decimal n) = (true, UINT_MAX).
Proof.
  intros Hws Hsg Hn. unfold Args.get_num.
  rewrite strtoul_decimal by (done || (unfold ULONG_MAX in Hn; lia)).
  destruct (Z.ltb_spec ULONG_MAX n); [|lia]. by rewrite Nat.eqb_refl.
Qed.

Lemma get_num_saturates_witness :
  Args.get_num "18446744073709551616" = (true, 4294967295).
Proof.
  exact (get_num_saturates "" "" 18446744073709551616 eq_refl
           (or_introl eq_refl) eq_refl).
Defined.

(** A minus sign is accepted: the number is negated in [unsigned long],
    so that [get_num] stores its two's complement and never a negative
    value; the test [<= 0] of [main] then rejects only the multiples of
    2^32. *)
Theorem get_num_negative ws n :
  all_chars Args.isspace ws = true ->
  0 <= n <= ULONG_MAX ->
  Args.get_num (ws ++ "-" ++ decimal n) = (true, (- n) mod 4294967296) /\
  0 <= (- n) mod 4294967296 <= UINT_MAX.
Proof.
  intros Hws [Hn Hmax]. unfold Args.get_num.
  rewrite strtoul_decimal by (done || tauto).
  destruct (Z.ltb_spec ULONG_MAX n); [lia|].
  rewrite bool_decide_eq_true_2 by done. rewrite Nat.eqb_refl.
  unfold to_unsigned, ULONG_MAX, UINT_MAX.
  assert (((18446744073709551615 + 1 - n) mod (18446744073709551615 + 1))
            mod 4294967296 = (- n) mod 4294967296) as ->.
  { rewrite Z.mod_mod_divide by (by exists 4294967296).
    replace (18446744073709551615 + 1 - n) with (- n + 4294967296 * 4294967296) by lia.
    by rewrite Z_mod_plus_full. }
  split; [done|]. pose proof (Z.mod_pos_bound (- n) 4294967296). lia.
Qed.

Lemma get_num_negative_witness :
  Args.get_num "-2" = (true, 4294967294) /\ 0 <= 4294967294 <= UINT_MAX.
Proof.
  exact (get_num_negative "" 2 eq_refl ltac:(vm_compute; split; congruence)).
Defined.

(** [main] on two decimal numerals that fit [unsigned long], with both
    allocations succeeding: the threads are started with the two numbers
    modulo 2^32, unless one of them is a multiple of 2^32, which is read
    as 0 and answered with the usage text. *)
Theorem main_prologue_decimal pname a b :
  0 <= a <= ULONG_MAX -> 0 <= b <= ULONG_MAX ->
  Args.main_prologue [pname; decimal a; decimal b] true true =
    if (a mod 4294967296 =? 0) || (b mod 4294967296 =? 0)
    then Args.Reject (Args.print_help pname).1 EXIT_FAILURE
    else Args.Launch (a mod 4294967296) (b mod 4294967296).
Proof.
  intros Ha Hb.
  pose proof (get_num_value "" "" a eq_refl (or_introl eq_refl) Ha) as Hga.
  pose proof (get_num_value "" "" b eq_refl (or_introl eq_refl) Hb) as Hgb.
  change (EmptyString ++ EmptyString ++ decimal a)%string with (decimal a) in Hga.
  change (EmptyString ++ EmptyString ++ decimal b)%string with (decimal b) in Hgb.
  pose proof (Z.mod_pos_bound a 4294967296).
  pose proof (Z.mod_pos_bound b 4294967296).
  destruct (Z.eqb_spec (a mod 4294967296) 0) as [Ha0|Ha0];
    [|destruct (Z.eqb_spec (b mod 4294967296) 0) as [Hb0|Hb0]]; cbn [orb].
  - unfold Args.main_prologue. cbn [length nth Nat.eqb negb].
    rewrite Hga, Ha0. done.
  - unfold Args.main_prologue. cbn [length nth Nat.eqb negb].
    rewrite Hga, Hgb, Hb0. cbn [negb orb].
    destruct (Z.leb_spec (a mod 4294967296) 0); done.
  - apply prologue_launch. split_and!; try done; lia.
Qed.

Lemma main_prologue_decimal_witness :
  Args.main_prologue ["proj2"; "4294967297"; "3"]%string true true =
    Args.Launch 1 3.
Proof.
  exact (main_prologue_decimal "proj2" 4294967297 3
           ltac:(vm_compute; split; congruence)
           ltac:(vm_compute; split; congruence)).
Defined.

(** ** The sleep of [suspend] *)

(** Whatever the clock, the process id and the behaviour of [rand_r]
    within its range, [suspend] asks [nanosleep] for no full second and
    for between 1 and 499999999 nanoseconds: a valid [timespec], never a
    sleep of zero and never one of half a second or more. *)
Theorem suspend_range rand_r tv_sec tv_usec pid :
  (forall seed, 0 <= rand_r seed <= Sleep.RAND_MAX) ->
  (Sleep.suspend rand_r tv_sec tv_usec pid).1 = 0 /\
  1 <= (Sleep.suspend rand_r tv_sec tv_usec pid).2 <= 499999999.
Proof.
  intros Hr. unfold Sleep.suspend. cbn [fst snd]. split; [done|].
  destruct (Hr (to_unsigned (1000000 * tv_sec + tv_usec + pid))) as [H0 _].
  pose proof (Z.rem_bound_pos _ 499999999 H0 ltac:(lia)). lia.
Qed.

Lemma sample_rand_r_range seed : 0 <= Sleep.sample_rand_r seed <= Sleep.RAND_MAX.
Proof.
  unfold Sleep.sample_rand_r, Sleep.RAND_MAX.
  pose proof (Z.mod_pos_bound (to_unsigned (seed * 1103515245 + 12345) / 65536) 32768).
  lia.
Qed.

Lemma suspend_range_witness :
  (Sleep.suspend Sleep.sample_rand_r 1394224713 250000 4242).1 = 0 /\
  1 <= (Sleep.suspend Sleep.sample_rand_r 1394224713 250000 4242).2 <= 499999999.
Proof.
  exact (suspend_range Sleep.sample_rand_r 1394224713 250000 4242
           sample_rand_r_range).
Defined.

(** ** Waiting is not passive *)

Lemma run_app c l1 l2 s :
  run c (l1 ++ l2) s = run c l1 s ≫= run c l2.
Proof.
  revert s. induction l1 as [|l l1 IH]; intros s; cbn [run app]; [done|].
  destruct (exec c l s); [apply IH|done].
Qed.

Lemma relay_state_reachable : reachable relay relay_state.
Proof.
  unfold relay_state.
  destruct (run relay _ (init relay)) as [s|] eqn:Hrun;
    [by eapply run_reachable|apply rtc_refl].
Qed.

(** Termination needs a fair scheduler.  With three threads there is a
    reachable state, with nothing written yet and the thread whose turn
    it is asleep in [suspend], from which the two threads waiting in
    [await] can wake each other round after round, any number of times,
    without a spurious wake-up and without the state changing. *)
Theorem relay_spins n :
  in_range relay /\ reachable relay relay_state /\
  ~ finished relay_state /\ stdout (globals relay_state) = [] /\
  forallb (fun l => negb (is_spurious l)) relay_round = true /\
  run relay (concat (replicate n relay_round)) relay_state = Some relay_state.
Proof.
  split_and!.
  - unfold in_range, relay, INT_MAX. simpl. lia.
  - apply relay_state_reachable.
  - vm_compute. discriminate.
  - vm_compute; reflexivity.
  - vm_compute; reflexivity.
  - induction n as [|n IH]; [done|].
    cbn [replicate concat]. rewrite run_app.
    assert (run relay relay_round relay_state = Some relay_state) as ->
      by (vm_compute; reflexivity).
    exact IH.
Qed.

(** ** Who holds a mutex *)

Lemma owners_reachable c s : reachable c s -> owners_ok (globals s) (threads s).
Proof.
  intros H.
  apply (rtc_ind_r (R := step c)
           (fun s => owners_ok (globals s) (threads s)) (init c));
    [by split| |exact H].
  intros y z Hy [l Hl] Hown. destruct l as [|i k|j].
  - destruct (main_ok_reachable c y Hy) as [Hmain _].
    pose proof (main_step_shape _ _ _ Hl) as [Hg [Hth|(k & Hk & Hth)]];
      rewrite ?Hg, ?Hth; [done|].
    unfold main_ok in Hmain. rewrite Hk in Hmain. destruct Hmain as [_ Hmain].
    destruct Hown as [Hos Hot].
    split; intros o Ho.
    + destruct (Hos _ Ho) as (wo & Hwo & Hh). exists wo. split; [|done].
      rewrite list_lookup_insert_ne; [done|]. intros <-.
      assert (pc wo = Unborn) as Hu by (apply (Hmain _ _ Hwo); lia).
      by rewrite Hu in Hh.
    + destruct (Hot _ Ho) as (wo & Hwo & Hh). exists wo. split; [|done].
      rewrite list_lookup_insert_ne; [done|]. intros <-.
      assert (pc wo = Unborn) as Hu by (apply (Hmain _ _ Hwo); lia).
      by rewrite Hu in Hh.
  - apply exec_worker in Hl as (w & w' & g' & sg & ths' & Hi & Hw & Hwk & _ & ->).
    simpl. by eapply owners_ok_worker_step.
  - apply exec_spurious in Hl as [Hwk ->]. simpl. by eapply owners_ok_woken.
Qed.

Lemma owner_iff c s i w :
  reachable c s -> threads s !! i = Some w ->
  (ticket_mutex (globals s) = Some i <-> has_ticket_mutex (pc w) = true) /\
  (section_mutex (globals s) = Some i <-> has_section_mutex (pc w) = true).
Proof.
  intros Hr Hi.
  destruct (locks_ok_reachable c s Hr _ _ Hi) as [Hs Ht].
  destruct (owners_reachable c s Hr) as [Hos Hot].
  split; (split; [|done]); intros Ho.
  - destruct (Hot _ Ho) as (w' & Hw' & Hh). by simplify_eq.
  - destruct (Hos _ Ho) as (w' & Hw' & Hh). by simplify_eq.
Qed.

(** In every reachable state a mutex is recorded as held by thread [i]
    exactly when thread [i] is between its lock and its unlock of that
    mutex (for [section_mutex]: between [pthread_mutex_lock] or the return
    of [pthread_cond_wait] and the next [pthread_cond_wait] or
    [pthread_mutex_unlock]). *)
Theorem mutex_owner c s i w :
  reachable c s -> threads s !! i = Some w ->
  (ticket_mutex (globals s) = Some i <-> has_ticket_mutex (pc w) = true) /\
  (section_mutex (globals s) = Some i <-> has_section_mutex (pc w) = true).
Proof.
  intros Hr Hi.
  destruct (locks_ok_reachable c s Hr _ _ Hi) as [Hs Ht].
  destruct (owners_reachable c s Hr) as [Hos Hot].
  split; split; try done.
  - intros Ho. destruct (Hot _ Ho) as (w' & Hw' & Hh).
    rewrite Hi in Hw'. by injection Hw' as <-.
  - intros Ho. destruct (Hos _ Ho) as (w' & Hw' & Hh).
    rewrite Hi in Hw'. by injection Hw' as <-.
Qed.

Lemma mutex_owner_witness :
  threads demo_wait !! 1%nat = Some demo_holder /\
  (ticket_mutex (globals demo_wait) = Some 1%nat <->
   has_ticket_mutex (pc demo_holder) = true) /\
  (section_mutex (globals demo_wait) = Some 1%nat <->
   has_section_mutex (pc demo_holder) = true).
Proof.
  assert (threads demo_wait !! 1%nat = Some demo_holder) as Hw
    by (vm_compute; reflexivity).
  split; [exact Hw|].
  exact (mutex_owner demo demo_wait 1 demo_holder demo_wait_reachable Hw).
Defined.

(** A worker that cannot take its next step is not yet created, blocked
    in [pthread_cond_wait], returned, or at a [pthread_mutex_lock] (or the
    reacquisition inside [pthread_cond_wait]) of a mutex another thread
    holds.  So no [pthread_mutex_unlock] and no [pthread_cond_wait] is
    ever called on a mutex the caller does not hold, and no thread locks
    a mutex it holds already. *)
Theorem worker_stops c s i w :
  reachable c s -> threads s !! i = Some w ->
  worker_step i w (globals s) = None ->
  pc w = Unborn \/ pc w = Blocked \/ pc w = Done \/
  (pc w = GetLock /\
   exists o, ticket_mutex (globals s) = Some o /\ o <> i) \/
  ((pc w = AwLock \/ pc w = AwReacq) /\
   exists o, section_mutex (globals s) = Some o /\ o <> i).
Proof.
  intros Hr Hi Hst.
  destruct (owner_iff c s i w Hr Hi) as [Ht Hs].
  unfold worker_step in Hst.
  destruct (pc w) eqn:Hpc; simpl in *; try done; auto.
  - right; right; right; left. split; [done|].
    destruct (ticket_mutex (globals s)) as [o|] eqn:Ho; [|done].
    exists o. split; [done|]. intros ->. discriminate (proj1 Ht eq_refl).
  - case_decide; [done|]. destruct H. by apply Ht.
  - destruct (_ <? _); done.
  - right; right; right; right. split; [by left|].
    destruct (section_mutex (globals s)) as [o|] eqn:Ho; [|done].
    exists o. split; [done|]. intros ->. discriminate (proj1 Hs eq_refl).
  - destruct (negb _); done.
  - case_decide; [done|]. destruct H. by apply Hs.
  - right; right; right; right. split; [by right|].
    destruct (section_mutex (globals s)) as [o|] eqn:Ho; [|done].
    exists o. split; [done|]. intros ->. discriminate (proj1 Hs eq_refl).
  - case_decide; [done|]. destruct H. by apply Hs.
Qed.

Lemma worker_stops_witness :
  threads demo_wait !! 0%nat = Some demo_waiter /\
  worker_step 0 demo_waiter (globals demo_wait) = None /\
  (pc demo_waiter = Unborn \/ pc demo_waiter = Blocked \/
   pc demo_waiter = Done \/
   (pc demo_waiter = GetLock /\
    exists o, ticket_mutex (globals demo_wait) = Some o /\ o <> 0%nat) \/
   ((pc demo_waiter = AwLock \/ pc demo_waiter = AwReacq) /\
    exists o, section_mutex (globals demo_wait) = Some o /\ o <> 0%nat)).
Proof.
  assert (threads demo_wait !! 0%nat = Some demo_waiter) as Hw
    by (vm_compute; reflexivity).
  assert (worker_step 0 demo_waiter (globals demo_wait) = None) as Hst
    by (vm_compute; reflexivity).
  split; [exact Hw|]. split; [exact Hst|].
  exact (worker_stops demo demo_wait 0 demo_waiter demo_wait_reachable Hw Hst).
Defined.

Lemma cond_signal_total ths : exists k ths', cond_signal k ths = Some ths'.
Proof.
  destruct (find_worker (fun w => pc w = Blocked) ths) as [(k & wk & Hk & Hb)|Hn].
  - exists k. eexists. by apply cond_signal_blocked.
  - exists O, ths. by apply cond_signal_none.
Qed.

(** The holder of a mutex is never stopped: in every reachable state the
    thread that holds [section_mutex] or [ticket_mutex] can take its next
    step.  And no thread holds both mutexes, so the two are never locked
    in a nested way. *)
Theorem holder_runs c s o :
  reachable c s ->
  section_mutex (globals s) = Some o \/ ticket_mutex (globals s) = Some o ->
  (exists k s', exec c (LWorker o k) s = Some s') /\
  ~ (section_mutex (globals s) = Some o /\ ticket_mutex (globals s) = Some o).
Proof.
  intros Hr Ho.
  destruct (owners_reachable c s Hr) as [Hos Hot].
  assert (exists w, threads s !! o = Some w) as [w Hw].
  { destruct Ho as [Ho|Ho]; [destruct (Hos _ Ho) as (w & ? & _)|
                             destruct (Hot _ Ho) as (w & ? & _)]; by exists w. }
  destruct (owner_iff c s o w Hr Hw) as [Ht Hs].
  split.
  - assert (exists w' g' sg, worker_step o w (globals s) = Some (w', g', sg))
      as (w' & g' & sg & Hst).
    { unfold worker_step.
      destruct Ho as [Ho|Ho]; [apply Hs in Ho as Hp|apply Ht in Ho as Hp];
        destruct (pc w); try done; repeat case_match; try done; eauto. }
    destruct sg.
    + destruct (cond_signal_total (<[o := w']> (threads s))) as (k & ths' & Hc).
      exists k. eexists. by eapply exec_worker_signal.
    + exists O. eexists. by eapply exec_worker_quiet.
  - intros [H1 H2]. apply Hs in H1. apply Ht in H2. by destruct (pc w).
Qed.

Lemma holder_runs_witness :
  (exists k s', exec demo (LWorker 1 k) demo_wait = Some s') /\
  ~ (section_mutex (globals demo_wait) = Some 1%nat /\
     ticket_mutex (globals demo_wait) = Some 1%nat).
Proof.
  assert (section_mutex (globals demo_wait) = Some 1%nat) as Ho
    by (vm_compute; reflexivity).
  exact (holder_runs demo demo_wait 1 demo_wait_reachable (or_introl Ho)).
Defined.

(** ** No lost wake-up *)

(** When a thread is blocked in [pthread_cond_wait] although its ticket is
    the current turn, some thread is at a point from which it calls
    [pthread_cond_signal] before it blocks or returns: the signal in
    [advance], the signal in the loop of [await], or the test of that
    loop, reached by a thread that holds the mutex or has just been
    woken. *)
Theorem no_lost_wakeup c s r w :
  no_overflow c -> reachable c s ->
  threads s !! r = Some w -> pc w = Blocked ->
  ticket w = actual_ticket (globals s) ->
  exists x wx, x <> r /\ threads s !! x = Some wx /\ relays (pc wx) = true.
Proof.
  intros Hno Hr Hw Hpc Ht.
  destruct (good_reachable c s Hno Hr) as (_ & _ & [_ Hrel]).
  destruct (Hrel r w Hw Hpc Ht) as (x & wx & Hx & Hrx).
  exists x, wx. split_and!; try done. intros ->. simplify_eq.
  by rewrite Hpc in Hrx.
Qed.

Lemma no_lost_wakeup_witness :
  pc demo_waiter = Blocked /\
  ticket demo_waiter = actual_ticket (globals demo_wait) /\
  exists x wx, x <> 0%nat /\ threads demo_wait !! x = Some wx /\
               relays (pc wx) = true.
Proof.
  assert (threads demo_wait !! 0%nat = Some demo_waiter) as Hw
    by (vm_compute; reflexivity).
  assert (ticket demo_waiter = actual_ticket (globals demo_wait)) as Ht
    by (vm_compute; reflexivity).
  split; [reflexivity|]. split; [exact Ht|].
  exact (no_lost_wakeup demo demo_wait 0 demo_waiter demo_no_overflow
           demo_wait_reachable Hw eq_refl Ht).
Defined.

(** ** Bounds of the counters *)

(** While [loop_count + thread_count] fits [int]: [actual_ticket] never
    passes [next_ticket], the tickets taken and not yet given back are at
    most one per thread, [actual_ticket] stays within the budget and
    [next_ticket] within the budget plus one per thread.  So neither
    increment ever overflows. *)
Theorem counters_bounded c s :
  no_overflow c -> reachable c s ->
  0 <= actual_ticket (globals s) <= next_ticket (globals s) /\
  next_ticket (globals s) - actual_ticket (globals s) <= Z.of_nat (nthreads c) /\
  actual_ticket (globals s) <= budget c /\
  next_ticket (globals s) <= budget c + Z.of_nat (nthreads c) /\
  next_ticket (globals s) <= INT_MAX.
Proof.
  intros Hno Hr. pose proof (inv_reachable c s Hno Hr) as Hinv.
  pose proof (inv_actual _ _ Hinv) as Ha.
  pose proof (inv_drawn _ _ Hinv) as Hd.
  pose proof (inv_final _ _ Hinv) as Hf.
  pose proof (inv_length _ _ Hinv) as Hl.
  pose proof (sum_list_with_le_length drawn (threads s) drawn_le_1) as Hd1.
  pose proof (sum_list_with_le_length (final c) (threads s) (final_le_1 c)) as Hf1.
  unfold no_overflow in Hno. lia.
Qed.

Lemma counters_bounded_witness :
  0 <= actual_ticket (globals demo_wait) <= next_ticket (globals demo_wait) /\
  next_ticket (globals demo_wait) - actual_ticket (globals demo_wait)
    <= Z.of_nat (nthreads demo) /\
  actual_ticket (globals demo_wait) <= budget demo /\
  next_ticket (globals demo_wait) <= budget demo + Z.of_nat (nthreads demo) /\
  next_ticket (globals demo_wait) <= INT_MAX.
Proof.
  exact (counters_bounded demo demo_wait demo_no_overflow demo_wait_reachable).
Defined.

(** ** Outstanding tickets *)

Lemma holds_issued c g i w t :
  worker_ok c g i w -> holds w = Some t -> Issue i t ∈ trace g.
Proof.
  intros [_ Hw] Hh. unfold holds in Hh.
  destruct (pc w); simplify_eq; tauto.
Qed.

(** While [loop_count + thread_count] fits [int], no ticket is lost: every
    ticket that was taken from the counter, is below [loop_count] and has
    not been used up by an [advance] is in the hands of exactly one
    thread, which is on its way into or inside the critical section. *)
Theorem tickets_covered c s t :
  no_overflow c -> reachable c s ->
  actual_ticket (globals s) <= t < next_ticket (globals s) -> t < lci c ->
  exists i w, threads s !! i = Some w /\ holds w = Some t /\
    forall j wj, threads s !! j = Some wj -> holds wj = Some t -> j = i.
Proof.
  intros Hno Hr Ht Hlt.
  destruct (good_reachable c s Hno Hr) as (Hinv & _ & [Hcov _]).
  destruct (Hcov t Ht Hlt) as (i & w & Hi & Hh).
  exists i, w. split_and!; try done. intros j wj Hj Hhj.
  eapply issued_unique.
  - rewrite (inv_issued _ _ Hinv). apply NoDup_seqZ.
  - eapply holds_issued; [by apply (inv_workers _ _ Hinv _ _ Hj)|done].
  - eapply holds_issued; [by apply (inv_workers _ _ Hinv _ _ Hi)|done].
Qed.

Lemma tickets_covered_witness :
  exists i w, threads demo_wait !! i = Some w /\ holds w = Some 1 /\
    forall j wj, threads demo_wait !! j = Some wj -> holds wj = Some 1 -> j = i.
Proof.
  exact (tickets_covered demo demo_wait 1 demo_no_overflow demo_wait_reachable
           ltac:(vm_compute; split; congruence)
           ltac:(vm_compute; reflexivity)).
Defined.

(** ** A loop count beyond [INT_MAX] *)

Lemma lci_beyond c :
  INT_MAX < loop_count c <= UINT_MAX -> lci c = loop_count c - 4294967296.
Proof.
  unfold lci, to_int, INT_MAX, UINT_MAX. intros H.
  replace (loop_count c + 2147483648)
    with (loop_count c - 2147483648 + 1 * 4294967296) by lia.
  rewrite Z_mod_plus_full, Z.mod_small by lia. lia.
Qed.

(** A [loop_count] in the upper half of [unsigned] (which [main] accepts)
    is negative in the [int] the workers compare with: no thread ever
    enters the critical section, nothing is written, and the run can
    always go on to the return of [main], where the counter stands at one
    ticket per thread. *)
Theorem silent_beyond_int c s :
  0 < thread_count c <= INT_MAX -> INT_MAX < loop_count c <= UINT_MAX ->
  reachable c s ->
  stdout (globals s) = [] /\ actual_ticket (globals s) = 0 /\
  (forall i w, threads s !! i = Some w -> in_section (pc w) = false) /\
  (finished s -> next_ticket (globals s) = thread_count c) /\
  can_finish c s.
Proof.
  intros Htc Hlc Hr.
  pose proof (lci_beyond c Hlc) as Hlci.
  assert (budget c = 0) as Hb by (unfold budget, UINT_MAX in *; lia).
  assert (Z.of_nat (nthreads c) = thread_count c) as Hn
    by (unfold nthreads; lia).
  assert (no_overflow c) as Hno by (unfold no_overflow; lia).
  destruct (inv2_reachable c s Hno Hr) as [Hinv Hinv2].
  pose proof (lines_bound c s Hinv Hinv2) as Hlines.
  pose proof (inv_actual _ _ Hinv) as Ha.
  split_and!.
  - destruct (stdout (globals s)); [done|]. simpl in Hlines. lia.
  - lia.
  - intros i w Hi. destruct (inv_workers _ _ Hinv _ _ Hi) as [_ Hw].
    unfold UINT_MAX in Hlc.
    destruct (pc w); try done; exfalso.
    + destruct Hw as (_ & ? & ? & _). lia.
    + destruct Hw as (_ & ? & ? & _). lia.
    + destruct Hw as (? & _ & _ & Hrep).
      apply replay_shape in Hrep as [? _]. lia.
    + destruct Hw as (? & _ & _ & Hrep).
      apply replay_shape in Hrep as [? _]. lia.
  - intros Hfin.
    destruct (all_done_counts c s Hinv Hinv2) as (Hnext & _);
      [lia|by apply (finished_all_done c)|]. lia.
  - by apply reachable_can_finish.
Qed.

Lemma silent_beyond_int_witness :
  stdout (globals (run_sched minus_one 100 (init minus_one))) = [] /\
  next_ticket (globals (run_sched minus_one 100 (init minus_one))) = 1.
Proof.
  assert (finished (run_sched minus_one 100 (init minus_one))) as Hfin
    by (vm_compute; reflexivity).
  destruct (silent_beyond_int minus_one (run_sched minus_one 100 (init minus_one))
              ltac:(vm_compute; split; congruence)
              ltac:(vm_compute; split; congruence)
              (run_sched_reachable minus_one 100)) as (H1 & _ & _ & H2 & _).
  split; [exact H1|exact (H2 Hfin)].
Defined.

(** ** The end of [main] *)

(** Once the second loop of [main] has ended, every worker has returned
    and both mutexes are free: [free(params)] takes away no [param] that
    a worker still reads, and [pthread_mutex_destroy] is not applied to a
    locked mutex. *)
Theorem teardown_safe c s :
  reachable c s -> joined (main_pc s) = true ->
  (forall i w, threads s !! i = Some w -> pc w = Done) /\
  length (threads s) = nthreads c /\
  section_mutex (globals s) = None /\ ticket_mutex (globals s) = None.
Proof.
  intros Hr Hj.
  destruct (main_ok_reachable c s Hr) as [Hmain Hlen].
  destruct (owners_reachable c s Hr) as [Hos Hot].
  assert (forall i w, threads s !! i = Some w -> pc w = Done) as Hdone.
  { unfold main_ok in Hmain. destruct (main_pc s); try done. }
  split_and!; try done.
  - destruct (section_mutex (globals s)) as [o|]; [|done].
    destruct (Hos o eq_refl) as (w & Hw & Hh).
    by rewrite (Hdone _ _ Hw) in Hh.
  - destruct (ticket_mutex (globals s)) as [o|]; [|done].
    destruct (Hot o eq_refl) as (w & Hw & Hh).
    by rewrite (Hdone _ _ Hw) in Hh.
Qed.

Lemma teardown_safe_witness :
  (forall i w, threads demo_end !! i = Some w -> pc w = Done) /\
  length (threads demo_end) = nthreads demo /\
  section_mutex (globals demo_end) = None /\
  ticket_mutex (globals demo_end) = None.
Proof.
  exact (teardown_safe demo demo_end demo_end_reachable
           ltac:(vm_compute; reflexivity)).
Defined.

(** ** Who wrote a line *)

Lemma worker_step_output i w g w' g' sg :
  worker_step i w g = Some (w', g', sg) ->
  (exists evs, trace g' = trace g ++ evs) /\
  (pc w' = Printf -> Enter i (ticket w') ∈ trace g') /\
  (stdout g' = stdout g \/
   pc w = Printf /\
   stdout g' = stdout g ++ [(ticket w, to_int (Param.id (param w)))]).
Proof.
  intros Hstep. destruct w as [p par t r]; simpl in *.
  destruct p; break_worker_step Hstep.
  all: split_and!; try done; try (by right); try (by left).
  all: try (by exists []; rewrite app_nil_r).
  all: try (by eexists).
  intros _. set_solver.
Qed.

Lemma spawn_id c i :
  no_overflow c -> (i < nthreads c)%nat ->
  to_int (Param.id (param (spawn c i))) = Z.of_nat i + 1.
Proof.
  unfold no_overflow, budget, INT_MAX. intros Hno Hi. simpl.
  rewrite to_unsigned_id by (unfold UINT_MAX; lia).
  apply to_int_id. unfold INT_MIN, INT_MAX. lia.
Qed.

Lemma lines_ok_init c : lines_ok c (init c).
Proof.
  split; simpl.
  - intros i w Hi. apply lookup_replicate in Hi as [-> _]. done.
  - intros l Hl. by apply elem_of_nil in Hl.
Qed.

Lemma lines_ok_step c s s' :
  no_overflow c -> inv c s -> lines_ok c s -> step c s s' -> lines_ok c s'.
Proof.
  intros Hno Hinv [Hpr Hout] [l Hl]. destruct l as [|i k|j].
  - pose proof (main_step_shape _ _ _ Hl) as [Hg [Hth|(k & Hk & Hth)]];
      split; rewrite ?Hg, ?Hth; try done.
    apply all_workers_insert; [done|]. intros j w _ Hj. by apply Hpr.
  - apply exec_worker in Hl as (w & w' & g' & sg & ths' & Hi & Hw & Hwk & _ & ->).
    destruct (worker_step_output _ _ _ _ _ _ Hw) as ([evs Htr] & Hent & Hlines).
    split; simpl.
    + eapply all_workers_woken; [exact Hwk|done|].
      apply all_workers_insert; [done|].
      intros j wj _ Hj Hpc. rewrite Htr. apply elem_of_app. left. by apply Hpr.
    + intros l Hl.
      assert (l ∈ stdout (globals s) \/
              pc w = Printf /\
              l = (ticket w, to_int (Param.id (param w)))) as [Hold|[Hpc ->]].
      { destruct Hlines as [Heq|[Hpc Heq]]; rewrite Heq in Hl; [by left|].
        apply elem_of_app in Hl as [?|Hl]; [by left|right].
        by apply list_elem_of_singleton in Hl. }
      * destruct (Hout l Hold) as (x & Hx & Hid & Hen).
        exists x. split_and!; try done. rewrite Htr. apply elem_of_app. by left.
      * exists i.
        assert (i < nthreads c)%nat as Hlt.
        { rewrite <- (inv_length _ _ Hinv). by eapply lookup_lt_Some. }
        destruct (inv_workers _ _ Hinv _ _ Hi) as [Hpar _].
        rewrite Hpar by (by rewrite Hpc).
        split_and!; [done|by apply spawn_id|].
        simpl. rewrite Htr. apply elem_of_app. left. by apply (Hpr _ _ Hi).
  - apply exec_spurious in Hl as [Hwk ->]. split; simpl; [|done].
    eapply all_workers_woken; [exact Hwk|done|done].
Qed.

Lemma lines_ok_reachable c s : no_overflow c -> reachable c s -> lines_ok c s.
Proof.
  intros Hno H.
  apply (rtc_ind_r (R := step c) (lines_ok c) (init c));
    [apply lines_ok_init| |exact H].
  intros y z Hy Hstep IH. eapply lines_ok_step; try done.
  by apply inv_reachable.
Qed.

(** Every line on standard output shows the id of the thread that took
    the ticket of the line from the counter, the only thread that took
    it, and that thread was let into the critical section with it. *)
Theorem line_by_drawer c s l :
  no_overflow c -> reachable c s -> l ∈ stdout (globals s) ->
  exists i, (i < nthreads c)%nat /\ line_of (trace (globals s)) i l /\
            forall j, Issue j l.1 ∈ trace (globals s) -> j = i.
Proof.
  intros Hno Hr Hl.
  destruct (lines_ok_reachable c s Hno Hr) as [_ Hout].
  destruct (inv2_reachable c s Hno Hr) as [Hinv Hinv2].
  destruct (Hout l Hl) as (i & Hi & Hid & Hen).
  pose proof (inv_enters _ Hinv2 _ _ Hen) as Hiss.
  exists i. split_and!; try done.
  intros j Hj. eapply issued_unique; [|exact Hj|exact Hiss].
  rewrite (inv_issued _ _ Hinv). apply NoDup_seqZ.
Qed.

Lemma line_by_drawer_witness :
  exists i, (i < nthreads demo)%nat /\
            line_of (trace (globals demo_end)) i (0, 2) /\
            forall j, Issue j 0 ∈ trace (globals demo_end) -> j = i.
Proof.
  assert ((0, 2) ∈ stdout (globals demo_end)) as Hl.
  { replace (stdout (globals demo_end)) with [(0, 2); (1, 1)]
      by (vm_compute; reflexivity). left. }
  exact (line_by_drawer demo demo_end (0, 2) demo_no_overflow
           demo_end_reachable Hl).
Defined.

(** ** The shared counters are used under their mutexes *)

(** The statements outside [uses_next_ticket] neither read nor write
    [next_ticket], and likewise for [actual_ticket]. *)
Lemma next_ticket_frame i w g n :
  uses_next_ticket (pc w) = false ->
  worker_step i w (set_next_ticket n g) =
    (fun r => (r.1.1, set_next_ticket n r.1.2, r.2)) <$> worker_step i w g.
Proof.
  intros Hp. unfold worker_step.
  destruct (pc w); try done; simpl; repeat case_match; done.
Qed.

Lemma actual_ticket_frame i w g a :
  uses_actual_ticket (pc w) = false ->
  worker_step i w (set_actual_ticket a g) =
    (fun r => (r.1.1, set_actual_ticket a r.1.2, r.2)) <$> worker_step i w g.
Proof.
  intros Hp. unfold worker_step.
  destruct (pc w); try done; simpl; repeat case_match; done.
Qed.

(** No data race on the two counters: in every reachable state, a thread
    whose next statement reads or writes [next_ticket] holds
    [ticket_mutex], one whose next statement reads or writes
    [actual_ticket] holds [section_mutex], and so no two threads are about
    to use the same counter; every other statement leaves the counter
    alone and does not depend on it. *)
Theorem no_data_race c s i j wi wj :
  reachable c s -> threads s !! i = Some wi -> threads s !! j = Some wj ->
  (uses_next_ticket (pc wi) = true -> ticket_mutex (globals s) = Some i) /\
  (uses_actual_ticket (pc wi) = true -> section_mutex (globals s) = Some i) /\
  (i <> j ->
   uses_next_ticket (pc wi) && uses_next_ticket (pc wj) = false /\
   uses_actual_ticket (pc wi) && uses_actual_ticket (pc wj) = false) /\
  (uses_next_ticket (pc wi) = false -> forall n,
     worker_step i wi (set_next_ticket n (globals s)) =
       (fun r => (r.1.1, set_next_ticket n r.1.2, r.2))
         <$> worker_step i wi (globals s)) /\
  (uses_actual_ticket (pc wi) = false -> forall a,
     worker_step i wi (set_actual_ticket a (globals s)) =
       (fun r => (r.1.1, set_actual_ticket a r.1.2, r.2))
         <$> worker_step i wi (globals s)).
Proof.
  intros Hr Hi Hj.
  destruct (locks_ok_reachable c s Hr _ _ Hi) as [Hsi Hti].
  destruct (locks_ok_reachable c s Hr _ _ Hj) as [Hsj Htj].
  split_and!.
  - intros Hu. apply Hti. by destruct (pc wi).
  - intros Hu. apply Hsi. by destruct (pc wi).
  - intros Hne. split.
    + destruct (uses_next_ticket (pc wi)) eqn:Hui; [|done].
      destruct (uses_next_ticket (pc wj)) eqn:Huj; [|done].
      destruct Hne.
      assert (ticket_mutex (globals s) = Some i) by (apply Hti; by destruct (pc wi)).
      assert (ticket_mutex (globals s) = Some j) by (apply Htj; by destruct (pc wj)).
      congruence.
    + destruct (uses_actual_ticket (pc wi)) eqn:Hui; [|done].
      destruct (uses_actual_ticket (pc wj)) eqn:Huj; [|done].
      destruct Hne.
      assert (section_mutex (globals s) = Some i) by (apply Hsi; by destruct (pc wi)).
      assert (section_mutex (globals s) = Some j) by (apply Hsj; by destruct (pc wj)).
      congruence.
  - intros Hu n. by apply next_ticket_frame.
  - intros Hu a. by apply actual_ticket_frame.
Qed.

Lemma no_data_race_witness :
  uses_next_ticket (pc demo_waiter) && uses_next_ticket (pc demo_holder) = false /\
  uses_actual_ticket (pc demo_waiter) && uses_actual_ticket (pc demo_holder) = false.
Proof.
  assert (threads demo_wait !! 0%nat = Some demo_waiter) as H0
    by (vm_compute; reflexivity).
  assert (threads demo_wait !! 1%nat = Some demo_holder) as H1
    by (vm_compute; reflexivity).
  exact (proj1 (proj2 (proj2 (no_data_race demo demo_wait 0 1 demo_waiter
                                demo_holder demo_wait_reachable H0 H1)))
           ltac:(discriminate)).
Defined.

(** ** The parameters of a thread *)

Lemma worker_step_param i w g w' g' sg :
  worker_step i w g = Some (w', g', sg) -> param w' = param w /\ pc w <> Unborn.
Proof.
  intros Hstep. destruct w as [p par t r]; simpl in *.
  destruct p; break_worker_step Hstep; done.
Qed.

Lemma params_reachable c s :
  reachable c s ->
  all_workers (fun i w => pc w <> Unborn -> param w = param (spawn c i))
    (threads s).
Proof.
  intros H.
  apply (rtc_ind_r (R := step c)
           (fun s => all_workers
              (fun i w => pc w <> Unborn -> param w = param (spawn c i))
              (threads s)) (init c)); [| |exact H].
  - intros i w Hi. apply lookup_replicate in Hi as [-> _]. done.
  - intros y z _ [l Hl] IH. destruct l as [|i k|j].
    + pose proof (main_step_shape _ _ _ Hl) as [_ [Hth|(k & Hk & Hth)]];
        rewrite Hth; [done|].
      apply all_workers_insert; [done|]. intros j w _ Hj. by apply IH.
    + apply exec_worker in Hl as (w & w' & g' & sg & ths' & Hi & Hw & Hwk & _ & ->).
      destruct (worker_step_param _ _ _ _ _ _ Hw) as [Hpar Hnu].
      simpl. eapply all_workers_woken; [exact Hwk| |].
      * intros x wx Hb Hx _. apply Hx. by rewrite Hb.
      * apply all_workers_insert; [|intros x wx _ Hx; by apply IH].
        intros _. rewrite Hpar. by apply (IH _ _ Hi).
    + apply exec_spurious in Hl as [Hwk ->]. simpl.
      eapply all_workers_woken; [exact Hwk| |done].
      intros x wx Hb Hx _. apply Hx. by rewrite Hb.
Qed.

(** The [param] a thread works with is the one [main] wrote before
    [pthread_create] and nobody writes to afterwards: in every reachable
    state thread [i] has id [i + 1] (no wrap-around in [unsigned], so the
    ids of different threads differ) and the loop count
    [(int) loop_count]. *)
Theorem params_fixed c s i w :
  thread_count c <= UINT_MAX ->
  reachable c s -> threads s !! i = Some w -> pc w <> Unborn ->
  Param.id (param w) = Z.of_nat i + 1 /\
  Param.loop_count (param w) = to_int (loop_count c).
Proof.
  intros Htc Hr Hi Hpc.
  rewrite (params_reachable c s Hr i w Hi Hpc). simpl. split; [|done].
  apply to_unsigned_id.
  destruct (main_ok_reachable c s Hr) as [_ Hlen].
  apply lookup_lt_Some in Hi. rewrite Hlen in Hi. unfold nthreads in Hi. lia.
Qed.

Lemma params_fixed_witness :
  Param.id (param demo_holder) = 2 /\
  Param.loop_count (param demo_holder) = 2.
Proof.
  assert (threads demo_wait !! 1%nat = Some demo_holder) as H1
    by (vm_compute; reflexivity).
  assert (pc demo_holder <> Unborn) as Hpc by discriminate.
  exact (params_fixed demo demo_wait 1 demo_holder
           ltac:(vm_compute; congruence) demo_wait_reachable H1 Hpc).
Defined.

(** ** What [main] starts the threads with *)

(** When [main] goes on to start the threads, it was called with three
    arguments, both allocations succeeded, and both counts are between 1
    and [UINT_MAX]: never zero threads and never a count that does not
    fit the [unsigned] locals. *)
Theorem launch_range argv m1 m2 tc lc :
  Args.main_prologue argv m1 m2 = Args.Launch tc lc ->
  length argv = 3%nat /\ m1 = true /\ m2 = true /\
  1 <= tc <= UINT_MAX /\ 1 <= lc <= UINT_MAX /\
  (nthreads {| thread_count := tc; loop_count := lc |} > 0)%nat.
Proof.
  intros H. apply prologue_launch in H as (Hlen & H1 & Htc & H2 & Hlc & -> & ->).
  assert (forall str v, Args.get_num str = (true, v) -> 0 <= v <= UINT_MAX) as Hr.
  { intros str v Hg. unfold Args.get_num in Hg.
    destruct (Args.strtoul str) as [x e]. injection Hg as _ <-.
    apply to_unsigned_range. }
  apply Hr in H1, H2. unfold nthreads. simpl. split_and!; try done; lia.
Qed.

Lemma launch_range_witness :
  length ["proj2"; "2"; "2"]%string = 3%nat /\ true = true /\ true = true /\
  1 <= 2 <= UINT_MAX /\ 1 <= 2 <= UINT_MAX /\
  (nthreads {| thread_count := 2; loop_count := 2 |} > 0)%nat.
Proof.
  exact (launch_range ["proj2"; "2"; "2"]%string true true 2 2
           ltac:(vm_compute; reflexivity)).
Defined.
